(** * simpletensors: vectors, tensor products and tensors over symbolic scalars

    A shallow embedding of [Waveforms/simpletensors.py].  The module is
    Python 2 code ([from __future__ import division]) on top of sympy; the
    scalars of sympy are kept abstract behind the class [Scalar], and the
    rational numbers give one instance on which everything computes.

    Python objects that are mutated in place (the tensor products, whose
    [coefficient] attribute [compress] overwrites) live in an explicit
    heap; everything else is a value. *)

From Stdlib Require Import String Ascii List ZArith QArith Qreduction Bool Lia Arith.
From Stdlib Require Import Permutation DecimalString Decimal DecimalZ Morphisms Setoid.
From Stdlib Require Import SetoidList SetoidPermutation.
Import ListNotations.

Set Implicit Arguments.
Local Close Scope Q_scope.
Local Open Scope string_scope.
Local Open Scope list_scope.
Local Open Scope nat_scope.

(* ===================================================================== *)
(** ** Exceptions *)
(* ===================================================================== *)

Inductive exn : Type :=
| ValueError (msg : string)
| NameError (name : string)
| AttributeError (attr : string)
| IndexError.

Inductive result (A : Type) : Type :=
| Ok (a : A)
| Raise (e : exn).
Arguments Ok {A} a.
Arguments Raise {A} e.

Definition bind {A B : Type} (r : result A) (k : A -> result B) : result B :=
  match r with
  | Ok a => k a
  | Raise e => Raise e
  end.

Notation "x <- r ;; k" := (bind r (fun x => k))
  (at level 61, r at next level, right associativity).

Fixpoint mapM {A B : Type} (f : A -> result B) (l : list A) : result (list B) :=
  match l with
  | [] => Ok []
  | a :: l' => b <- f a ;; bs <- mapM f l' ;; Ok (b :: bs)
  end.

(* ===================================================================== *)
(** ** Strings *)
(* ===================================================================== *)

Module PyString.

(** [s[n:]] *)
Fixpoint drop (n : nat) (s : string) : string :=
  match n, s with
  | O, _ => s
  | S n', EmptyString => EmptyString
  | S n', String _ s' => drop n' s'
  end.

(** [s[:n]] *)
Fixpoint take (n : nat) (s : string) : string :=
  match n, s with
  | O, _ => EmptyString
  | S n', EmptyString => EmptyString
  | S n', String c s' => String c (take n' s')
  end.

(** [s.startswith(p)] *)
Definition startswith (s p : string) : bool := String.prefix p s.

(** [s.find(p)], with [None] for -1 *)
Definition find (p s : string) : option nat := String.index 0 p s.

(** Position of the last occurrence of the character [c]. *)
Fixpoint rfind_char (c : ascii) (s : string) : option nat :=
  match s with
  | EmptyString => None
  | String a s' =>
      match rfind_char c s' with
      | Some n => Some (S n)
      | None => if Ascii.eqb a c then Some 0 else None
      end
  end.

Definition LF : ascii := ascii_of_nat 10.

(** [s.split('\n')] *)
Fixpoint split_lines (s : string) : list string :=
  match s with
  | EmptyString => [EmptyString]
  | String c s' =>
      if Ascii.eqb c LF then EmptyString :: split_lines s'
      else match split_lines s' with
           | [] => [String c EmptyString]
           | l :: ls => String c l :: ls
           end
  end.

(** ['\n'.join(ls)] *)
Definition join_lines (ls : list string) : string :=
  String.concat (String LF EmptyString) ls.

(** The characters [str.isspace] accepts: space, \t, \n, \v, \f, \r. *)
Definition isspace (c : ascii) : bool :=
  let n := nat_of_ascii c in
  (n =? 32) || ((9 <=? n) && (n <=? 13)).

Fixpoint lstrip (s : string) : string :=
  match s with
  | EmptyString => EmptyString
  | String c s' => if isspace c then lstrip s' else s
  end.

Fixpoint rstrip (s : string) : string :=
  match s with
  | EmptyString => EmptyString
  | String c s' =>
      match rstrip s' with
      | EmptyString => if isspace c then EmptyString else String c EmptyString
      | r => String c r
      end
  end.

Definition strip (s : string) : string := rstrip (lstrip s).

(** [int(s)]: surrounding white space, an optional sign, decimal digits.
    [None] stands for the [ValueError] of an invalid literal. *)
Definition int (s : string) : option Z :=
  match strip s with
  | EmptyString => None
  | String c s' =>
      if Ascii.eqb c "-" then
        option_map (fun d => Z.opp (Z.of_uint d)) (NilZero.uint_of_string s')
      else if Ascii.eqb c "+" then
        option_map Z.of_uint (NilZero.uint_of_string s')
      else option_map Z.of_uint (NilZero.uint_of_string (String c s'))
  end.

(** [str(n)] for an integer, as [format] prints it. *)
Definition str (n : Z) : string := NilZero.string_of_int (Z.to_int n).

End PyString.

(** Every character of the string passes the test. *)
Fixpoint all_chars (P : ascii -> bool) (s : string) : bool :=
  match s with
  | EmptyString => true
  | String c s' => P c && all_chars P s'
  end.

(** The character does not occur in the string. *)
Definition no_char (x : ascii) (s : string) : bool :=
  all_chars (fun c => negb (Ascii.eqb c x)) s.

Definition is_digit (c : ascii) : bool :=
  (48 <=? nat_of_ascii c) && (nat_of_ascii c <=? 57).

(** The [re.sub] call of [DifferentiateString].  Its pattern reads: the
    literal [\partial_], a lazy run of any characters, the literal [^{],
    a greedy run of any characters (group 1), the literal [}], and a
    greedy run of any characters (group 2).

    The dot of a pattern matches every character but the line feed and
    the literal parts hold none, so a match lies within one line, and its
    last group runs to the end of that line: the substitution works line
    by line.  In a line the leftmost match starts at the first
    [\partial_]; the lazy run stops at the first [^{] after it; the
    greedy group 1 runs to the LAST [}] of the line.  When one of the
    three is missing, no later start in that line matches either, and the
    line is left as it is. *)
Definition increment_match (param : string) (group1 group2 : string) : result string :=
  match PyString.int group1 with
  | None => Raise (ValueError "invalid literal for int() with base 10")
  | Some k =>
      Ok ("\partial_" ++ param ++ "^{" ++ PyString.str (k + 1) ++ "}" ++ group2)%string
  end.

Definition sub_line (param : string) (line : string) : result string :=
  match PyString.find "\partial_" line with
  | None => Ok line
  | Some p =>
      let after := PyString.drop (p + 9) line in
      match PyString.find "^{" after with
      | None => Ok line
      | Some q =>
          let body := PyString.drop (q + 2) after in
          match PyString.rfind_char "}" body with
          | None => Ok line
          | Some r =>
              new <- increment_match param (PyString.take r body)
                                     (PyString.drop (r + 1) body) ;;
              Ok (PyString.take p line ++ new)%string
          end
      end
  end.

Definition re_sub_increment (param : string) (s : string) : result string :=
  ls <- mapM (sub_line param) (PyString.split_lines s) ;;
  Ok (PyString.join_lines ls).

(** [DifferentiateString(s, param='t')] *)
Definition DifferentiateString (s : string) (param : string) : result string :=
  if PyString.startswith s ("\partial_" ++ param ++ "^{")%string then
    re_sub_increment param s
  else if PyString.startswith s ("\partial_" ++ param)%string then
    Ok ("\partial_" ++ param ++ "^{2}" ++ PyString.drop 10 s)%string
  else
    Ok ("\partial_" ++ param ++ " " ++ s)%string.

(** [FindFirst(S, D)] of [DelimitString]: the first character of [S]
    that is an element of [D], and nothing when there is none. *)
Fixpoint FindFirst (S : string) (D : list string) : option string :=
  match S with
  | EmptyString => None
  | String s S' =>
      match List.find (String.eqb (String s EmptyString)) D with
      | Some d => Some d
      | None => FindFirst S' D
      end
  end.

(** [D.index(d)] *)
Fixpoint list_index (d : string) (D : list string) : option nat :=
  match D with
  | [] => None
  | x :: D' => if String.eqb x d then Some 0 else option_map S (list_index d D')
  end.

(** [DelimitString(S, latex=True)].  The third opener of the typeset
    mode is written ['\{'], a string of two characters, the backslash and
    the brace. *)
Definition DelimitString (S : string) (latex : bool) : result string :=
  let left := if latex then "\left" else "" in
  let right := if latex then "\right" else "" in
  let DelimiterOpeners := if latex then ["("; "["; "\{"] else ["("; "["; "{"] in
  let DelimiterClosers := if latex then [")"; "]"; "\}"] else [")"; "]"; "}"] in
  match FindFirst S DelimiterOpeners with
  | None => Ok (left ++ "(" ++ S ++ right ++ ")")%string
  | Some FirstDelim =>
      match list_index FirstDelim DelimiterOpeners with
      | None => Raise (ValueError "is not in list")
      | Some i =>
          let NewDelimiterIndex := (i + 1) mod length DelimiterOpeners in
          Ok (left ++ nth NewDelimiterIndex DelimiterOpeners "" ++ " " ++ S ++ " "
                ++ right ++ nth NewDelimiterIndex DelimiterClosers "")%string
      end
  end.

(* ===================================================================== *)
(** ** Scalars *)
(* ===================================================================== *)

(** What the module asks of sympy's expressions.  [of_int] takes the
    Python integers the module writes itself ([0], [1]), [frac] is
    [sympy.Rational], [eq_zero x] is the test [x == 0]. *)
Class Scalar (K : Type) : Type := {
  of_int : Z -> K;
  frac : Z -> Z -> K;
  sadd : K -> K -> K;
  smul : K -> K -> K;
  simplify : K -> K;
  eq_zero : K -> bool;
  scalar_derivative : K -> string -> K
}.

(** Rational numbers, kept in lowest terms as sympy keeps them. *)
#[export] Instance QScalar : Scalar Q := {
  of_int := inject_Z;
  frac := fun p q => Qred (Qmake p (Z.to_pos q));
  sadd := fun x y => Qred (Qplus x y);
  smul := fun x y => Qred (Qmult x y);
  simplify := Qred;
  eq_zero := fun x => Qeq_bool x (inject_Z 0);
  scalar_derivative := fun _ _ => inject_Z 0
}.

(** What the order of the terms cannot change is stated up to an
    equality [equ] of scalars, of which the module needs the usual laws
    of the sum and that [simplify] keeps the value ([SumLaws]), and
    that the test [x == 0] does not tell equal scalars apart
    ([ScalarLaws]).  With the last law a scalar is [== 0] exactly when
    what [simplify] makes of it is. *)
Class SumLaws (K : Type) {KS : Scalar K} (equ : K -> K -> Prop) : Prop := {
  equ_equivalence :: Equivalence equ;
  sadd_proper :: Proper (equ ==> equ ==> equ) sadd;
  sadd_comm : forall x y, equ (sadd x y) (sadd y x);
  sadd_assoc : forall x y z, equ (sadd (sadd x y) z) (sadd x (sadd y z));
  sadd_0_r : forall x, equ (sadd x (of_int 0)) x;
  simplify_equ : forall x, equ (simplify x) x
}.

Class ScalarLaws (K : Type) {KS : Scalar K} (equ : K -> K -> Prop) : Prop := {
  sum_laws :: SumLaws equ;
  eq_zero_proper : forall x y, equ x y -> eq_zero x = eq_zero y
}.

(** The laws of the product of scalars that the contraction of products
    of tensor products needs. *)
Class ProductLaws (K : Type) {KS : Scalar K} (equ : K -> K -> Prop) : Prop := {
  smul_proper :: Proper (equ ==> equ ==> equ) smul;
  smul_comm : forall x y, equ (smul x y) (smul y x);
  smul_assoc : forall x y z, equ (smul (smul x y) z) (smul x (smul y z));
  smul_1_l : forall x, equ (smul (of_int 1) x) x
}.

Section Objects.

Context {K : Type} {KS : Scalar K}.

(** The builtin [sum], which starts from the integer 0, and sympy's
    [prod], which starts from 1. *)
Definition py_sum (l : list K) : K := fold_left sadd l (of_int 0).
Definition sympy_prod (l : list K) : K := fold_left smul l (of_int 1).

(* =================================================================== *)
(** ** Vectors *)
(* =================================================================== *)

(** An applied vector function.  [VectorFunction] builds a new class at
    every call; [cls] names that class object, and sympy compares two
    applied functions by their class and their arguments.  A derivative
    function passed to [VectorFunction] is kept as a function of the
    differentiation parameter: the one the module passes itself, in
    [VectorConstant], ignores all its arguments. *)
Inductive Vector : Type :=
  mkVector (cls : nat) (name : string) (components : list K) (arg : string)
           (DerivativeFunction : option (string -> value))
with value : Type :=
| VScalar (s : K)
| VVector (v : Vector).

Definition cls (v : Vector) : nat := let 'mkVector c _ _ _ _ := v in c.
Definition name (v : Vector) : string := let 'mkVector _ n _ _ _ := v in n.
Definition components (v : Vector) : list K := let 'mkVector _ _ c _ _ := v in c.
Definition arg (v : Vector) : string := let 'mkVector _ _ _ a _ := v in a.
Definition DerivativeFunction (v : Vector) : option (string -> value) :=
  let 'mkVector _ _ _ _ d := v in d.

(** [VectorFunction(Name, ComponentFunctions, DerivativeFunction)(arg)] *)
Definition VectorFunction (cls : nat) (Name : string) (ComponentFunctions : list K)
           (DerivativeFunction : option (string -> value)) (arg : string) : Vector :=
  mkVector cls Name ComponentFunctions arg DerivativeFunction.

(** [VectorConstant(Name, Components)(arg)] *)
Definition VectorConstant (cls : nat) (Name : string) (Components : list K)
           (arg : string) : Vector :=
  VectorFunction cls Name Components (Some (fun _ => VScalar (of_int 0))) arg.

(** [v.diff(x)]: the derivative function of the class when one was
    given, and otherwise a vector of a new class [fresh], named by
    [DifferentiateString], of the derivatives of the components. *)
Definition diff (fresh : nat) (v : Vector) (x : string) : result value :=
  match DerivativeFunction v with
  | Some f => Ok (f x)
  | None =>
      n <- DifferentiateString (name v) (arg v) ;;
      Ok (VVector (VectorFunction fresh n
                     (map (fun c => scalar_derivative c x) (components v))
                     None (arg v)))
  end.

(** [v | w] *)
Definition Vector_or (v w : Vector) : K :=
  py_sum (map (fun so => smul (fst so) (snd so))
              (combine (components v) (components w))).

(** [v == w] *)
Definition Vector_eqb (v w : Vector) : bool :=
  (cls v =? cls w) && String.eqb (arg v) (arg w).

(* =================================================================== *)
(** ** Tensor products *)
(* =================================================================== *)

Record TensorProductFunction : Type := mkTensorProduct {
  vectors : list Vector;
  coefficient : K;
  symmetric : bool
}.

(** [TensorProduct(input_vectors, coefficient=..., symmetric=...)], with
    the defaults of the keyword arguments. *)
Definition TensorProduct (input_vectors : list Vector)
           (coefficient : option K) (symmetric : option bool) : TensorProductFunction :=
  {| vectors := input_vectors;
     coefficient := match coefficient with Some c => c | None => of_int 1 end;
     symmetric := match symmetric with Some b => b | None => false end |}.

Definition rank (A : TensorProductFunction) : nat := length (vectors A).

(** [collections.Counter]: a dictionary from the elements to their
    number of occurrences, in the order of first occurrence. *)
Fixpoint Counter_add (v : Vector) (d : list (Vector * nat)) : list (Vector * nat) :=
  match d with
  | [] => [(v, 1)]
  | (k, n) :: d' =>
      if Vector_eqb k v then (k, S n) :: d' else (k, n) :: Counter_add v d'
  end.

Definition Counter (l : list Vector) : list (Vector * nat) :=
  fold_left (fun d v => Counter_add v d) l [].

Fixpoint dict_get (v : Vector) (d : list (Vector * nat)) : option nat :=
  match d with
  | [] => None
  | (k, n) :: d' => if Vector_eqb k v then Some n else dict_get v d'
  end.

(** Equality of dictionaries: as many keys, and every key of the first
    bound to the same value in the second. *)
Definition dict_eqb (d1 d2 : list (Vector * nat)) : bool :=
  (length d1 =? length d2) &&
  forallb (fun kn => match dict_get (fst kn) d2 with
                     | Some m => snd kn =? m
                     | None => false
                     end) d1.

(** Equality of lists. *)
Fixpoint list_eqb (l1 l2 : list Vector) : bool :=
  match l1, l2 with
  | [], [] => true
  | v :: l1', w :: l2' => Vector_eqb v w && list_eqb l1' l2'
  | _, _ => false
  end.

Definition has_same_basis_element (A B : TensorProductFunction) : bool :=
  if symmetric A then dict_eqb (Counter (vectors A)) (Counter (vectors B))
  else list_eqb (vectors A) (vectors B).

(** [itertools.permutations]: lexicographic in the positions. *)
Fixpoint selections {A : Type} (l : list A) : list (A * list A) :=
  match l with
  | [] => []
  | x :: l' => (x, l') :: map (fun yr => (fst yr, x :: snd yr)) (selections l')
  end.

Fixpoint permutations_fuel {A : Type} (n : nat) (l : list A) : list (list A) :=
  match n with
  | O => [[]]
  | S n' =>
      flat_map (fun xr => map (cons (fst xr)) (permutations_fuel n' (snd xr)))
               (selections l)
  end.

Definition permutations {A : Type} (l : list A) : list (list A) :=
  permutations_fuel (length l) l.

Definition range (n : nat) : list nat := seq 0 n.

Definition ordered_as (A : TensorProductFunction) (index_set : list nat)
  : result (list Vector) :=
  mapM (fun i => match nth_error (vectors A) i with
                 | Some v => Ok v
                 | None => Raise IndexError
                 end) index_set.

(** What a tensor product is contracted with.  The terms of a tensor
    are given as they are read at the time of the call. *)
Inductive operand : Type :=
| OTensorProduct (B : TensorProductFunction)
| OTensor (tensor_products : list TensorProductFunction)
| OScalar (s : K).

Definition contract_message (r1 r2 : nat) : string :=
  ("Cannot contract rank-" ++ PyString.str (Z.of_nat r1)
     ++ " tensor with rank-" ++ PyString.str (Z.of_nat r2) ++ " tensor.")%string.

Definition dots (vs ws : list Vector) : list K :=
  map (fun vw => Vector_or (fst vw) (snd vw)) (combine vs ws).

(** [A | B] for a tensor product [B].  [factorial] is the binding of
    the global name [factorial] when the call is made, [None] when the
    name is bound nowhere. *)
Definition contract_products (factorial : option (nat -> nat))
           (A B : TensorProductFunction) : result K :=
  if negb (rank B =? rank A) then
    Raise (ValueError (contract_message (rank A) (rank B)))
  else if symmetric A then
    let cc := smul (coefficient A) (coefficient B) in
    match factorial with
    | None => Raise (NameError "factorial")
    | Some fact =>
        let c := simplify (smul cc (frac 1 (Z.of_nat (fact (rank A))))) in
        if eq_zero c then Ok (of_int 0)
        else
          ps <- mapM (fun index_set =>
                        vs <- ordered_as A index_set ;;
                        Ok (sympy_prod (dots vs (vectors B))))
                     (permutations (range (rank A))) ;;
          Ok (simplify (smul c (py_sum ps)))
    end
  else
    Ok (smul (smul (coefficient A) (coefficient B))
             (sympy_prod (dots (vectors A) (vectors B)))).

Definition operand_rank (B : operand) : result nat :=
  match B with
  | OTensorProduct B => Ok (rank B)
  | OTensor [] => Ok 0
  | OTensor (t :: _) => Ok (rank t)
  | OScalar _ => Raise (AttributeError "rank")
  end.

(** [_TensorProductFunction.__or__] *)
Definition TensorProduct_or_in (factorial : option (nat -> nat))
           (A : TensorProductFunction) (B : operand) : result K :=
  r <- operand_rank B ;;
  if negb (r =? rank A) then
    Raise (ValueError (contract_message (rank A) r))
  else
    match B with
    | OTensorProduct B => contract_products factorial A B
    | OTensor ts =>
        match mapM (contract_products factorial A) ts with
        | Ok cs => Ok (py_sum cs)
        | Raise (AttributeError _) =>
            Raise (ValueError "Don't know how to contract _TensorProductFunction")
        | Raise e => Raise e
        end
    | OScalar _ => Raise (AttributeError "rank")
    end.

(** The module imports [simplify], [Function], [latex], [prod],
    [Symbol], [flatten] and [Rational] from sympy and defines no
    [factorial]: the name is unbound in it. *)
Definition module_factorial : option (nat -> nat) := None.

Definition TensorProduct_or : TensorProductFunction -> operand -> result K :=
  TensorProduct_or_in module_factorial.

(* =================================================================== *)
(** ** Tensors *)
(* =================================================================== *)

(** Tensor products are objects: [compress] assigns to their
    [coefficient].  The heap gives the state of every such object; a
    tensor holds the list of the objects it sums. *)
Definition addr : Type := nat.
Definition heap : Type := addr -> TensorProductFunction.

Definition set_coefficient (h : heap) (a : addr) (c : K) : heap :=
  fun b => if b =? a
           then {| vectors := vectors (h a); coefficient := c;
                   symmetric := symmetric (h a) |}
           else h b.

Inductive obj : Type :=
| Num (s : K)
| TProd (a : addr)
| Tens (tensor_products : list addr).

(** [_TensorFunction.rank] *)
Definition Tensor_rank (h : heap) (tensor_products : list addr) : nat :=
  match tensor_products with
  | [] => 0
  | a :: _ => rank (h a)
  end.

Definition add_message (r1 r2 : nat) (plural : string) : string :=
  ("Cannot add rank-" ++ PyString.str (Z.of_nat r1)
     ++ " tensor to rank-" ++ PyString.str (Z.of_nat r2) ++ " tensor" ++ plural)%string.

(** [Tensor(TensorProducts)] for a list of tensor products. *)
Definition Tensor (h : heap) (TensorProducts : list addr) : result obj :=
  match TensorProducts with
  | [] => Ok (Tens [])
  | a :: _ =>
      let r := rank (h a) in
      match find (fun t_p => negb (rank (h t_p) =? r)) TensorProducts with
      | Some t_p => Raise (ValueError (add_message (rank (h t_p)) r "s."))
      | None => Ok (Tens TensorProducts)
      end
  end.

Definition mem (i : nat) (l : list nat) : bool := existsb (Nat.eqb i) l.

(** The body of the inner loop of [compress], for one [j]. *)
Definition compress_inner (T : list addr) (i : nat)
           (st : heap * list nat) (j : nat) : heap * list nat :=
  let '(h, removed_elements) := st in
  if mem j removed_elements then st
  else
    let ti := nth i T 0 in
    let tj := nth j T 0 in
    if has_same_basis_element (h ti) (h tj) then
      (set_coefficient h ti (simplify (sadd (coefficient (h ti)) (coefficient (h tj)))),
       removed_elements ++ [j])
    else st.

(** The body of the outer loop of [compress], for one [i]. *)
Definition compress_outer (T : list addr)
           (st : heap * list nat) (i : nat) : heap * list nat :=
  if mem i (snd st) then st
  else
    let '(h, removed_elements) :=
      fold_left (compress_inner T i) (seq (i + 1) (length T - (i + 1))) st in
    match removed_elements with
    | [] => (h, removed_elements)
    | _ :: _ =>
        if eq_zero (coefficient (h (nth i T 0)))
        then (h, removed_elements ++ [i])
        else (h, removed_elements)
    end.

(** [list(t_p for i,t_p in enumerate(self) if i not in removed_elements)].
    For a tensor without terms the generator [__iter__] raises
    [StopIteration], which in Python 2 ends the iteration: the list is
    empty. *)
Definition kept (T : list addr) (removed_elements : list nat) : list addr :=
  map snd (filter (fun it => negb (mem (fst it) removed_elements))
                  (combine (seq 0 (length T)) T)).

(** [_TensorFunction.compress]: the heap after the call and the value
    returned. *)
Definition compress (h : heap) (T : list addr) : heap * obj :=
  let '(h', removed_elements) :=
    fold_left (compress_outer T) (seq 0 (length T)) (h, []) in
  match kept T removed_elements with
  | [] => (h', Num (of_int 0))
  | tensor_products => (h', Tens tensor_products)
  end.

(** [T == 0] for the right operand of an addition: a tensor or a tensor
    product is a sympy object that is not a number. *)
Definition is_zero_obj (T : obj) : bool :=
  match T with
  | Num s => eq_zero s
  | _ => false
  end.

Definition obj_rank (h : heap) (T : obj) : result nat :=
  match T with
  | Num _ => Raise (AttributeError "rank")
  | TProd a => Ok (rank (h a))
  | Tens ts => Ok (Tensor_rank h ts)
  end.

(** [_TensorFunction.__add__] *)
Definition Tensor_add (h : heap) (self : list addr) (T : obj) : result obj :=
  if is_zero_obj T then Ok (Tens self)
  else if Tensor_rank h self =? 0 then Ok T
  else
    r <- obj_rank h T ;;
    if r =? 0 then Ok (Tens self)
    else if negb (r =? Tensor_rank h self) then
      Raise (ValueError (add_message r (Tensor_rank h self) "."))
    else
      match T with
      | Tens ts => Tensor h (self ++ ts)
      | TProd a => Tensor h (self ++ [a])
      | Num _ => Raise (AttributeError "rank")
      end.

End Objects.

(* ===================================================================== *)
(** ** Products, traces and contractions of tensors *)
(* ===================================================================== *)

Section Operations.

Context {K : Type} {KS : Scalar K}.

(** What a tensor product is multiplied with.  A vector, a tensor
    product and a tensor are sympy objects that are no numbers:
    [simplify] does not make them 0. *)
Inductive factor : Type :=
| FScalar (s : K)
| FVector (v : @Vector K)
| FTensorProduct (B : @TensorProductFunction K)
| FTensor (tensor_products : list (@TensorProductFunction K)).

(** What a multiplication returns: the integer 0, a tensor product, or
    [NotImplemented]. *)
Inductive product : Type :=
| PZero
| PProduct (t : @TensorProductFunction K)
| PNotImplemented.

(** [_TensorProductFunction.__mul__] *)
Definition TensorProduct_mul (self : @TensorProductFunction K) (B : factor) : product :=
  match B with
  | FScalar s =>
      if eq_zero (simplify s) then PZero
      else PProduct (TensorProduct (vectors self)
                       (Some (smul (coefficient self) s)) (Some (symmetric self)))
  | FTensor _ => PNotImplemented
  | FTensorProduct B =>
      PProduct (TensorProduct (vectors self ++ vectors B)
                  (Some (simplify (smul (coefficient self) (coefficient B))))
                  (Some (symmetric self)))
  | FVector v =>
      PProduct (TensorProduct (vectors self ++ [v])
                  (Some (coefficient self)) (Some (symmetric self)))
  end.

(** [_TensorProductFunction.__rmul__] *)
Definition TensorProduct_rmul (self : @TensorProductFunction K) (B : factor) : product :=
  match B with
  | FScalar s =>
      if eq_zero (simplify s) then PZero
      else PProduct (TensorProduct (vectors self)
                       (Some (smul s (coefficient self))) (Some (symmetric self)))
  | FTensor _ => PNotImplemented
  | FTensorProduct B =>
      PProduct (TensorProduct (vectors B ++ vectors self)
                  (Some (simplify (smul (coefficient B) (coefficient self))))
                  (Some (symmetric self)))
  | FVector v =>
      PProduct (TensorProduct ([v] ++ vectors self)
                  (Some (coefficient self)) (Some (symmetric self)))
  end.

(** [l[j]] for an integer [j]: negative indices count from the end. *)
Definition getitem {A : Type} (l : list A) (j : Z) : result A :=
  let n := Z.of_nat (length l) in
  let i := if (j <? 0)%Z then (n + j)%Z else j in
  if (i <? 0)%Z then Raise IndexError
  else match nth_error l (Z.to_nat i) with
       | Some x => Ok x
       | None => Raise IndexError
       end.

(** [list(v for i,v in enumerate(self) if (i!=j and i!=k))] *)
Definition without_slots (vs : list (@Vector K)) (j k : Z) : list Vector :=
  map snd (filter (fun iv => negb (Z.of_nat (fst iv) =? j)%Z
                             && negb (Z.of_nat (fst iv) =? k)%Z)
                  (combine (seq 0 (length vs)) vs)).

(** [permutations(range(n), 2)]: the pairs of two different positions. *)
Definition pairs (n : nat) : list (nat * nat) :=
  flat_map (fun a => map (pair a) (filter (fun b => negb (b =? a)) (range n)))
           (range n).

(** What a trace returns: a number or a tensor product. *)
Inductive traced : Type :=
| TNumber (s : K)
| TProduct (t : @TensorProductFunction K).

(** [_TensorProductFunction.trace].  In the symmetric case the loop over
    the pairs builds its first term with [factorial(self.rank)], a name
    the module does not bind ([module_factorial]): the first pair with a
    coefficient that is not zero raises [NameError]; without such a pair
    the sum is still the integer 0, which has no [compress]. *)
Definition TensorProduct_trace (self : @TensorProductFunction K) (j k : Z)
  : result traced :=
  vj <- getitem (vectors self) j ;;
  vk <- getitem (vectors self) k ;;
  let coeff := simplify (smul (coefficient self) (Vector_or vj vk)) in
  if rank self =? 2 then Ok (TNumber coeff)
  else if eq_zero coeff then Ok (TNumber (of_int 0))
  else if symmetric self then
    if existsb (fun jk =>
                  negb (eq_zero (simplify
                    (smul (coefficient self)
                          (Vector_or (nth (fst jk) (vectors self) vj)
                                     (nth (snd jk) (vectors self) vj))))))
               (pairs (rank self))
    then Raise (NameError "factorial")
    else Raise (AttributeError "compress")
  else Ok (TProduct (TensorProduct (without_slots (vectors self) j k)
                                   (Some coeff) (Some false))).

(** [_TensorProductFunction.__add__], the function
    [lambda self, T: Tensor(self)+T]. *)
Definition TensorProduct_add (h : @heap K) (self : addr) (T : obj) : result obj :=
  Tensor_add h [self] T.

(** [_TensorFunction.__or__], on the terms of the tensor as they are read
    when the call is made. *)
Definition Tensor_or (self : list (@TensorProductFunction K)) (B : operand)
  : result K :=
  r <- operand_rank B ;;
  let self_rank := match self with [] => 0 | t :: _ => rank t end in
  if negb (r =? self_rank) then
    Raise (ValueError (contract_message self_rank r))
  else
    match B with
    | OTensor ts =>
        cs <- mapM (fun T1T2 => TensorProduct_or (fst T1T2) (OTensorProduct (snd T1T2)))
                   (list_prod self ts) ;;
        Ok (py_sum cs)
    | OTensorProduct B =>
        cs <- mapM (fun T1 => TensorProduct_or T1 (OTensorProduct B)) self ;;
        Ok (py_sum cs)
    | OScalar _ => Raise (AttributeError "rank")
    end.

(** The rank of what a multiplication returned: the integer 0 and
    [NotImplemented] have no attribute [rank]. *)
Definition product_rank (p : product) : result nat :=
  match p with
  | PProduct t => Ok (rank t)
  | _ => Raise (AttributeError "rank")
  end.

(** [Tensor(l)] for a list [l] of what multiplications returned.  The
    terms are new objects, given here by their values. *)
Definition Tensor_new (l : list product) : result (list (@TensorProductFunction K)) :=
  match l with
  | [] => Ok []
  | p :: _ =>
      r <- product_rank p ;;
      mapM (fun t_p =>
              r' <- product_rank t_p ;;
              if negb (r' =? r) then Raise (ValueError (add_message r' r "s."))
              else match t_p with
                   | PProduct t => Ok t
                   | _ => Raise (AttributeError "rank")
                   end) l
  end.

(** [_TensorFunction.__mul__], on the terms of the tensor as they are
    read when the call is made. *)
Definition Tensor_mul (self : list (@TensorProductFunction K)) (B : factor)
  : result (list (@TensorProductFunction K)) :=
  match B with
  | FTensor ts =>
      Tensor_new (map (fun AB => TensorProduct_mul (fst AB) (FTensorProduct (snd AB)))
                      (list_prod self ts))
  | _ => Tensor_new (map (fun t_p => TensorProduct_mul t_p B) self)
  end.

End Operations.

(* ===================================================================== *)
(** ** Definitions for the statements *)
(* ===================================================================== *)

Section Statements.

Context {K : Type} {KS : Scalar K}.

(** The contraction of two vectors in the words of the specification:
    an error when the numbers of components differ, and otherwise the
    simplified sum of the products of the components. *)
Definition DimensionMismatch : exn := ValueError "DimensionMismatch".

Definition dot_spec (v w : @Vector K) : result K :=
  if length (components v) =? length (components w)
  then Ok (simplify (Vector_or v w))
  else Raise DimensionMismatch.

(** The sum of the products of the components at the positions
    [0 .. m-1]. *)
Definition dot_upto (m : nat) (v w : @Vector K) : K :=
  py_sum (map (fun i => smul (nth i (components v) (of_int 0))
                             (nth i (components w) (of_int 0)))
              (seq 0 m)).

(** What [==] looks at in a vector. *)
Definition key (v : @Vector K) : nat * string := (cls v, arg v).

Definition basis (A : @TensorProductFunction K) : list (nat * string) :=
  map key (vectors A).

Definition key_dec (x y : nat * string) : {x = y} + {x <> y}.
Proof. decide equality; [apply string_dec | apply Nat.eq_dec]. Defined.

(** The number of occurrences of a key in a list of vectors. *)
Definition occ (k : nat * string) (l : list (@Vector K)) : nat :=
  count_occ key_dec (map key l) k.

Definition dict_keys (d : list (@Vector K * nat)) : list (nat * string) :=
  map (fun kn => key (fst kn)) d.

Definition with_coefficient (t : @TensorProductFunction K) (c : K)
  : TensorProductFunction :=
  mkTensorProduct (vectors t) c (symmetric t).

(** The coefficient of a term after the terms of [group] are merged into
    it one by one. *)
Definition merge_coefficients (c : K) (group : list (@TensorProductFunction K)) : K :=
  fold_left (fun c u => simplify (sadd c (coefficient u))) group c.

Definition is_nil {A : Type} (l : list A) : bool :=
  match l with [] => true | _ :: _ => false end.

(** The two loops of [compress] on the list of the terms, when no term
    is held twice.  The first term [t] absorbs the later terms [u] for
    which [t.has_same_basis_element(u)] is true: they leave the list,
    and their coefficients are added to the coefficient of [t] one by
    one, the sum simplified at each merge ([merge_coefficients]).  Then
    [t] leaves the list itself when a term was removed so far, in this
    round or an earlier one ([merged']), and its coefficient is [== 0];
    the coefficient is tested as it stands, and a term that absorbed
    nothing keeps its coefficient as it was.  The loops go on with the
    terms that are left.  [merged] tells whether a term was removed in
    an earlier round: it is the test [if removed_elements:]. *)
Fixpoint compress_terms_fuel (fuel : nat) (merged : bool)
         (l : list (@TensorProductFunction K)) : list TensorProductFunction :=
  match fuel, l with
  | S fuel', t :: rest =>
      let group := filter (has_same_basis_element t) rest in
      let others := filter (fun u => negb (has_same_basis_element t u)) rest in
      let c := merge_coefficients (coefficient t) group in
      let merged' := merged || negb (is_nil group) in
      if merged' && eq_zero c
      then compress_terms_fuel fuel' merged' others
      else with_coefficient t c :: compress_terms_fuel fuel' merged' others
  | _, _ => []
  end.

Definition compress_terms (merged : bool) (l : list (@TensorProductFunction K))
  : list TensorProductFunction :=
  compress_terms_fuel (length l) merged l.

(** The two loops once a term has been removed: the guard
    [if removed_elements:] is open, and the coefficient of every term is
    tested after its round. *)
Definition compress_groups (l : list (@TensorProductFunction K))
  : list TensorProductFunction :=
  compress_terms true l.

(** The terms of what [compress] returns, read in the heap [h]; the
    number 0 has none. *)
Definition terms_of (h : @heap K) (r : @obj K) : list TensorProductFunction :=
  match r with
  | Tens ts => map h ts
  | _ => []
  end.

(** The vectors and the flag of every object are the same in [h'] as in [h]. *)
Definition same_shape (h h' : @heap K) : Prop :=
  forall a, vectors (h' a) = vectors (h a) /\ symmetric (h' a) = symmetric (h a).

(** No term has the basis element of a later term. *)
Definition basis_distinct (h : @heap K) (T : list addr) : Prop :=
  ForallOrdPairs (fun a b => has_same_basis_element (h a) (h b) = false) T.

(** The indices the inner loop for [i] removes among [js]. *)
Definition absorbed (T : list addr) (h : @heap K) (i : nat) (R js : list nat) : list nat :=
  filter (fun j => negb (mem j R)
                   && has_same_basis_element (h (nth i T 0)) (h (nth j T 0))) js.

(** The indices of [idx] that are not removed, and the terms at a list of
    indices. *)
Definition alive (R idx : list nat) : list nat :=
  filter (fun k => negb (mem k R)) idx.

Definition read (T : list addr) (h : @heap K) (idx : list nat) : list TensorProductFunction :=
  map (fun k => h (nth k T 0)) idx.

(** The terms the loops leave up to the index [i] have no basis element
    of a later term that is left. *)
Definition settled (T : list addr) (h0 : @heap K) (i : nat) (R : list nat) : Prop :=
  forall k j, k < i -> k < j < length T -> mem k R = false -> mem j R = false ->
    has_same_basis_element (h0 (nth k T 0)) (h0 (nth j T 0)) = false.

(** The sum of the coefficients of a list of terms, and of the terms of
    [l] with the basis element of [t]. *)
Definition total (l : list (@TensorProductFunction K)) : K :=
  fold_right (fun u acc => sadd (coefficient u) acc) (of_int 0) l.

Definition class_total (t : @TensorProductFunction K)
           (l : list TensorProductFunction) : K :=
  total (filter (has_same_basis_element t) l).

(** Two terms are the same up to [equ] and a choice of the
    representative of the basis element. *)
Definition term_equ (equ : K -> K -> Prop) (x y : @TensorProductFunction K) : Prop :=
  symmetric x = symmetric y /\
  has_same_basis_element x y = true /\
  equ (coefficient x) (coefficient y).

Definition uniform (b : bool) (l : list (@TensorProductFunction K)) : Prop :=
  Forall (fun t => symmetric t = b) l.

(** The vectors of [A] at the positions [index_set]. *)
Definition select (A : @TensorProductFunction K) (index_set : list nat) : list Vector :=
  flat_map (fun i => match nth_error (vectors A) i with
                     | Some v => [v]
                     | None => []
                     end) index_set.

End Statements.

Arguments key_dec x y : simpl never.

(** The name after [n] differentiations, each of the name the one before
    returned. *)
Fixpoint derivative_name (n : nat) (name param : string) : result string :=
  match n with
  | O => Ok name
  | S n' => s <- derivative_name n' name param ;; DifferentiateString s param
  end.

(** The openers and closers of [DelimitString] in the plain mode. *)
Definition plain_openers : list string := ["("; "["; "{"].
Definition plain_closers : list string := [")"; "]"; "}"].

(** [l'] is [l] without some of its elements, the others in their
    order. *)
Inductive subsequence {A : Type} : list A -> list A -> Prop :=
| subsequence_nil : subsequence [] []
| subsequence_skip x l' l : subsequence l' l -> subsequence l' (x :: l)
| subsequence_keep x l' l : subsequence l' l -> subsequence (x :: l') (x :: l).

(* ===================================================================== *)
(** ** Vectors, tensor products and heaps for the examples *)
(* ===================================================================== *)

Definition e1 : @Vector Q := VectorConstant 1 "e1" [inject_Z 1; inject_Z 0; inject_Z 0] "t".
Definition e2 : @Vector Q := VectorConstant 2 "e2" [inject_Z 0; inject_Z 1; inject_Z 0] "t".

(** A heap for the examples: tensor products over [e1] and [e2]. *)
Definition h_add : @heap Q := fun a =>
  match a with
  | 0 => TensorProduct [e1; e2] None None
  | _ => TensorProduct [] (Some (inject_Z 5)) None
  end.

(** A heap for the examples of compression. *)
Definition h_terms : @heap Q := fun a =>
  match a with
  | 0 => TensorProduct [e1; e2] (Some (inject_Z 2)) None
  | 1 => TensorProduct [e1; e2] (Some (inject_Z (-2))) None
  | 2 => TensorProduct [e1; e1] (Some (inject_Z 3)) None
  | 3 => TensorProduct [e1; e2] (Some (inject_Z 4)) None
  | 4 => TensorProduct [e1; e1] (Some (inject_Z 0)) None
  | 5 => TensorProduct [e1; e2] None (Some true)
  | _ => TensorProduct [e2; e1] None None
  end.

(** The product [3*e1*e2*e1]. *)
Definition e121 : @TensorProductFunction Q :=
  TensorProduct [e1; e2; e1] (Some (inject_Z 3)) None.

(* ===================================================================== *)
(** ** Names of derivatives *)
(* ===================================================================== *)

(** The three forms of the name of the derivatives of [V] by [t]. *)
Lemma DifferentiateString_thrice :
  DifferentiateString "V" "t" = Ok "\partial_t V" /\
  DifferentiateString "\partial_t V" "t" = Ok "\partial_t^{2} V" /\
  DifferentiateString "\partial_t^{2} V" "t" = Ok "\partial_t^{3} V".
Proof. repeat split; vm_compute; reflexivity. Qed.

Lemma append_assoc (a b c : string) : ((a ++ b) ++ c = a ++ (b ++ c))%string.
Proof. induction a as [|x a IH]; simpl; [reflexivity | now rewrite IH]. Qed.

Lemma prefix_append_l (a b s : string) :
  String.prefix (a ++ b) s = true -> String.prefix a s = true.
Proof.
  revert s. induction a as [|x a IH]; intros s H.
  - destruct s; reflexivity.
  - destruct s as [|y s]; simpl in *; [discriminate|].
    destruct (ascii_dec x y); [now apply IH | discriminate].
Qed.

(** A name that does not start with the marker of the parameter gets the
    bare marker and a space in front. *)
Lemma DifferentiateString_fresh (s param : string) :
  PyString.startswith s ("\partial_" ++ param)%string = false ->
  DifferentiateString s param = Ok ("\partial_" ++ param ++ " " ++ s)%string.
Proof.
  intros Hno. unfold DifferentiateString.
  destruct (PyString.startswith s ("\partial_" ++ param ++ "^{")%string) eqn:E.
  - unfold PyString.startswith in *.
    change ("\partial_" ++ param ++ "^{")%string
      with ("\partial_" ++ (param ++ "^{"))%string in E.
    rewrite <- append_assoc in E. apply prefix_append_l in E. congruence.
  - rewrite Hno. reflexivity.
Qed.

Lemma prefix_append_same (m a s : string) :
  String.prefix (m ++ a) (m ++ s) = String.prefix a s.
Proof.
  induction m as [|x m IH]; [reflexivity|].
  change (String.prefix (String x m ++ a) (String x m ++ s))
    with (if ascii_dec x x then String.prefix (m ++ a) (m ++ s) else false).
  destruct (ascii_dec x x); [exact IH | congruence].
Qed.

Lemma prefix_append_refl (m s : string) : String.prefix m (m ++ s) = true.
Proof.
  induction m as [|x m IH]; [destruct s; reflexivity|].
  change (String.prefix (String x m) (String x m ++ s))
    with (if ascii_dec x x then String.prefix m (m ++ s) else false).
  destruct (ascii_dec x x); [exact IH | congruence].
Qed.

Lemma length_append (a b : string) :
  String.length (a ++ b) = String.length a + String.length b.
Proof. induction a as [|x a IH]; simpl; [reflexivity | now rewrite IH]. Qed.

Lemma drop_append (m s : string) : PyString.drop (String.length m) (m ++ s) = s.
Proof. induction m as [|x m IH]; [reflexivity | exact IH]. Qed.

(** A bare marker of a parameter of one character becomes the marker of
    order 2, and what follows the marker is kept. *)
Lemma DifferentiateString_bare (param rest : string) :
  String.length param = 1 ->
  String.prefix "^{" rest = false ->
  DifferentiateString ("\partial_" ++ param ++ rest) param
  = Ok ("\partial_" ++ param ++ "^{2}" ++ rest)%string.
Proof.
  intros Hlen Hrest. unfold DifferentiateString, PyString.startswith.
  replace ("\partial_" ++ param ++ rest)%string
    with (("\partial_" ++ param) ++ rest)%string by apply append_assoc.
  replace ("\partial_" ++ param ++ "^{")%string
    with (("\partial_" ++ param) ++ "^{")%string by apply append_assoc.
  rewrite prefix_append_same, Hrest, prefix_append_refl.
  replace 10 with (String.length ("\partial_" ++ param)).
  - rewrite drop_append. reflexivity.
  - rewrite length_append, Hlen. reflexivity.
Qed.

(** *** The marker of order k *)

Lemma all_chars_append (P : ascii -> bool) (a b : string) :
  all_chars P (a ++ b) = all_chars P a && all_chars P b.
Proof.
  induction a as [|c a IH]; cbn; [reflexivity|]. now rewrite IH, andb_assoc.
Qed.

Lemma all_chars_impl (P Q : ascii -> bool) (s : string) :
  (forall c, P c = true -> Q c = true) -> all_chars P s = true -> all_chars Q s = true.
Proof.
  intros H. induction s as [|c s IH]; cbn; [reflexivity|].
  rewrite !andb_true_iff. intros [Hc Hs]. split; [now apply H | now apply IH].
Qed.

Lemma string_of_uint_digits (d : uint) :
  all_chars is_digit (NilEmpty.string_of_uint d) = true.
Proof. induction d; cbn; auto. Qed.

Lemma is_digit_other (c x : ascii) :
  is_digit c = true -> is_digit x = false -> Ascii.eqb c x = false.
Proof.
  intros Hc Hx. destruct (Ascii.eqb c x) eqn:E; [|reflexivity].
  apply Ascii.eqb_eq in E. congruence.
Qed.

Lemma is_digit_not_space (c : ascii) : is_digit c = true -> PyString.isspace c = false.
Proof.
  unfold is_digit, PyString.isspace. cbv zeta.
  rewrite andb_true_iff, !Nat.leb_le. intros [H1 H2].
  apply orb_false_iff. split.
  - apply Nat.eqb_neq. lia.
  - apply andb_false_iff. right. apply Nat.leb_gt. lia.
Qed.

Lemma digits_no_char (x : ascii) (d : uint) :
  is_digit x = false -> no_char x (NilEmpty.string_of_uint d) = true.
Proof.
  intros Hx. unfold no_char.
  apply all_chars_impl with (P := is_digit); [|apply string_of_uint_digits].
  intros c Hc. now rewrite (is_digit_other c x Hc Hx).
Qed.

Lemma lstrip_id (s : string) :
  all_chars (fun c => negb (PyString.isspace c)) s = true -> PyString.lstrip s = s.
Proof.
  destruct s as [|c s]; cbn; [reflexivity|].
  rewrite andb_true_iff. intros [Hc _]. apply negb_true_iff in Hc. now rewrite Hc.
Qed.

Lemma rstrip_id (s : string) :
  all_chars (fun c => negb (PyString.isspace c)) s = true -> PyString.rstrip s = s.
Proof.
  induction s as [|c s IH]; cbn; [reflexivity|].
  rewrite andb_true_iff. intros [Hc Hs]. rewrite (IH Hs).
  apply negb_true_iff in Hc. rewrite Hc. now destruct s.
Qed.

(** [int] reads back what [str] prints. *)
Lemma int_digits (d : uint) :
  d <> Nil -> PyString.int (NilEmpty.string_of_uint d) = Some (Z.of_uint d).
Proof.
  intros Hd. unfold PyString.int, PyString.strip.
  assert (Hns : all_chars (fun c => negb (PyString.isspace c))
                          (NilEmpty.string_of_uint d) = true).
  { apply all_chars_impl with (P := is_digit); [|apply string_of_uint_digits].
    intros c Hc. now rewrite (is_digit_not_space c Hc). }
  rewrite (lstrip_id _ Hns), (rstrip_id _ Hns).
  pose proof (string_of_uint_digits d) as Hdig.
  pose proof (NilZero.usu d Hd) as Husu.
  assert (Hz : NilZero.string_of_uint d = NilEmpty.string_of_uint d)
    by (destruct d; [congruence | reflexivity ..]).
  rewrite Hz in Husu.
  destruct (NilEmpty.string_of_uint d) as [|c s'] eqn:Es.
  - destruct d; [congruence | discriminate ..].
  - cbn in Hdig. apply andb_true_iff in Hdig. destruct Hdig as [Hc _].
    rewrite (is_digit_other c "-" Hc eq_refl), (is_digit_other c "+" Hc eq_refl).
    now rewrite Husu.
Qed.

Lemma str_nonneg (k : Z) :
  (0 <= k)%Z ->
  exists d, d <> Nil /\ PyString.str k = NilEmpty.string_of_uint d /\ Z.of_uint d = k.
Proof.
  intros Hk. destruct k as [|p|p]; [| |lia].
  - exists (D0 Nil). repeat split. discriminate.
  - exists (Pos.to_uint p).
    pose proof (DecimalPos.Unsigned.to_uint_nonnil p) as Hn.
    split; [exact Hn|]. split.
    + unfold PyString.str. cbn. destruct (Pos.to_uint p); [congruence | reflexivity ..].
    + unfold Z.of_uint. now rewrite DecimalPos.Unsigned.of_to.
Qed.

Lemma split_lines_single (s : string) :
  no_char PyString.LF s = true -> PyString.split_lines s = [s].
Proof.
  unfold no_char. induction s as [|c s IH]; cbn; [reflexivity|].
  rewrite andb_true_iff. intros [Hc Hs]. apply negb_true_iff in Hc.
  rewrite Hc, (IH Hs). reflexivity.
Qed.

Lemma find_prefix (p s : string) :
  String.prefix p s = true -> s <> EmptyString -> PyString.find p s = Some 0.
Proof.
  intros Hp Hs. unfold PyString.find. destruct s as [|b s]; [congruence|].
  cbn [String.index]. now rewrite Hp.
Qed.

Lemma prefix_other (x y : ascii) (p s : string) :
  Ascii.eqb y x = false -> String.prefix (String x p) (String y s) = false.
Proof.
  intros H. cbn [String.prefix]. destruct (ascii_dec x y) as [->|N]; [|reflexivity].
  now rewrite Ascii.eqb_refl in H.
Qed.

(** The first [^{] of a string that starts with characters other than
    [^] is behind them. *)
Lemma find_after (a b : string) :
  no_char "^" a = true -> PyString.find "^{" (a ++ "^{" ++ b) = Some (String.length a).
Proof.
  unfold no_char. induction a as [|c a IH]; intros Ha.
  - apply find_prefix; [apply (prefix_append_refl "^{" b) | discriminate].
  - cbn in Ha. apply andb_true_iff in Ha. destruct Ha as [Hc Ha].
    apply negb_true_iff in Hc. unfold PyString.find in *.
    change ((String c a ++ "^{" ++ b)%string) with (String c (a ++ "^{" ++ b)).
    cbn [String.index]. rewrite prefix_other by exact Hc. rewrite (IH Ha). reflexivity.
Qed.

Lemma rfind_char_none (c : ascii) (s : string) :
  no_char c s = true -> PyString.rfind_char c s = None.
Proof.
  unfold no_char. induction s as [|x s IH]; cbn; [reflexivity|].
  rewrite andb_true_iff. intros [Hx Hs]. rewrite (IH Hs).
  apply negb_true_iff in Hx. now rewrite Hx.
Qed.

Lemma rfind_char_last (c : ascii) (a b : string) :
  no_char c b = true ->
  PyString.rfind_char c (a ++ String c b) = Some (String.length a).
Proof.
  intros Hb. induction a as [|x a IH]; cbn.
  - now rewrite (rfind_char_none _ _ Hb), Ascii.eqb_refl.
  - cbn in IH. now rewrite IH.
Qed.

Lemma take_append (m s : string) : PyString.take (String.length m) (m ++ s) = m.
Proof. induction m as [|x m IH]; cbn; [reflexivity | now rewrite IH]. Qed.

(** A marker of the order [k] becomes the marker of the order [k+1] and
    the rest of the name is kept, when the name has one line, no [^] in
    the parameter and no closing brace after the marker. *)
Lemma DifferentiateString_order (param suffix : string) (k : Z) :
  (0 <= k)%Z ->
  no_char "^" param = true -> no_char PyString.LF param = true ->
  no_char "}" suffix = true -> no_char PyString.LF suffix = true ->
  DifferentiateString
    ("\partial_" ++ param ++ "^{" ++ PyString.str k ++ "}" ++ suffix) param
  = Ok ("\partial_" ++ param ++ "^{" ++ PyString.str (k + 1) ++ "}" ++ suffix)%string.
Proof.
  intros Hk Hp1 Hp2 Hs1 Hs2.
  destruct (str_nonneg Hk) as (d & Hd & Estr & Ed). rewrite Estr.
  set (digits := NilEmpty.string_of_uint d).
  set (s := ("\partial_" ++ param ++ "^{" ++ digits ++ "}" ++ suffix)%string).
  unfold DifferentiateString, PyString.startswith.
  assert (E1 : String.prefix ("\partial_" ++ param ++ "^{") s = true).
  { unfold s.
    replace ("\partial_" ++ param ++ "^{" ++ digits ++ "}" ++ suffix)%string
      with (("\partial_" ++ param ++ "^{") ++ digits ++ "}" ++ suffix)%string.
    - apply prefix_append_refl.
    - change ("\partial_" ++ param ++ "^{")%string
        with ("\partial_" ++ (param ++ "^{"))%string.
      rewrite !append_assoc. reflexivity. }
  rewrite E1. unfold re_sub_increment.
  assert (Hline : PyString.split_lines s = [s]).
  { apply split_lines_single. unfold s, no_char in *.
    rewrite !all_chars_append, Hp2, Hs2.
    fold (no_char PyString.LF digits). unfold digits.
    rewrite digits_no_char by reflexivity. reflexivity. }
  rewrite Hline. cbn [mapM bind].
  assert (Hsub : sub_line param s
                 = Ok ("\partial_" ++ param ++ "^{" ++ PyString.str (k + 1)
                         ++ "}" ++ suffix)%string).
  { unfold sub_line.
    rewrite (@find_prefix "\partial_" s);
      [|apply (prefix_append_refl "\partial_")|discriminate].
    cbn [Nat.add PyString.take].
    change (PyString.drop 9 s) with (param ++ "^{" ++ digits ++ "}" ++ suffix)%string.
    rewrite (@find_after param _ Hp1).
    replace (PyString.drop (String.length param + 2)
                           (param ++ "^{" ++ digits ++ "}" ++ suffix))
      with (digits ++ "}" ++ suffix)%string.
    2:{ replace (String.length param + 2) with (String.length (param ++ "^{"))
          by (rewrite length_append; reflexivity).
        rewrite <- (append_assoc param "^{"). now rewrite drop_append. }
    change (digits ++ "}" ++ suffix)%string with (digits ++ String "}" suffix)%string.
    rewrite (@rfind_char_last "}" digits suffix Hs1), take_append.
    replace (PyString.drop (String.length digits + 1) (digits ++ String "}" suffix))
      with suffix.
    2:{ replace (String.length digits + 1) with (String.length (digits ++ "}"))
          by (rewrite length_append; reflexivity).
        change (digits ++ String "}" suffix)%string with (digits ++ ("}" ++ suffix))%string.
        rewrite <- append_assoc. now rewrite drop_append. }
    unfold increment_match, digits. rewrite (int_digits Hd), Ed. reflexivity. }
  rewrite Hsub. cbn. reflexivity.
Qed.

(** C9.  [DifferentiateString] misses the three-way rule of the names of
    derivatives on two kinds of names.  It cuts a bare marker off by the
    constant 10, the length of the marker of a parameter of one
    character: for the parameter [tau] the rest of the parameter stays in
    the name.  And its pattern takes the order up to the last closing
    brace of the name: on a name with a brace after the marker the order
    read is not a number and the call raises [ValueError]. *)
Theorem DifferentiateString_misses_rule :
  DifferentiateString "\partial_tau V" "tau" = Ok "\partial_tau^{2}au V" /\
  DifferentiateString "\partial_t^{2} \hat{n}" "t"
  = Raise (ValueError "invalid literal for int() with base 10").
Proof. split; vm_compute; reflexivity. Qed.

(* ===================================================================== *)
(** ** Vectors *)
(* ===================================================================== *)

Section VectorProperties.

Context {K : Type} {KS : Scalar K}.

Lemma fold_left_sadd_ext (f g : nat -> K) (l : list nat) (z : K) :
  (forall i, In i l -> f i = g i) ->
  fold_left sadd (map f l) z = fold_left sadd (map g l) z.
Proof.
  revert z. induction l as [|i l IH]; intros z Hfg; simpl; [reflexivity|].
  rewrite (Hfg i (or_introl eq_refl)). apply IH.
  intros j Hj. apply Hfg. now right.
Qed.

Lemma combine_as_nth (d : K) (l1 l2 : list K) :
  map (fun so => smul (fst so) (snd so)) (combine l1 l2)
  = map (fun i => smul (nth i l1 d) (nth i l2 d))
        (seq 0 (Nat.min (length l1) (length l2))).
Proof.
  revert l2. induction l1 as [|x l1 IH]; intros [|y l2]; simpl; try reflexivity.
  f_equal. rewrite IH, <- seq_shift, map_map. reflexivity.
Qed.

Lemma Vector_or_dot_upto (v w : @Vector K) :
  Vector_or v w
  = dot_upto (Nat.min (length (components v)) (length (components w))) v w.
Proof.
  unfold Vector_or, dot_upto. now rewrite (combine_as_nth (of_int 0)).
Qed.

(** Where the specification asks for a result, it is what [simplify]
    makes of the result of the code. *)
Lemma dot_spec_equal_length (v w : @Vector K) :
  length (components v) = length (components w) ->
  dot_spec v w = Ok (simplify (dot_upto (length (components v)) v w)).
Proof.
  intros Hlen. unfold dot_spec. rewrite Vector_or_dot_upto.
  rewrite <- Hlen, Nat.eqb_refl, Nat.min_id. reflexivity.
Qed.

(** C2 as the code has it.  The contraction of two vectors raises no
    error: [zip] stops at the end of the shorter vector, and the result
    is the sum of the products of the components at the positions both
    vectors have, so at all positions when the vectors are as long; it
    is not passed to [simplify]. *)
Theorem Vector_or_truncates (v w : @Vector K) :
  let m := Nat.min (length (components v)) (length (components w)) in
  Vector_or v w = dot_upto m v w /\
  Vector_or v w
  = Vector_or (mkVector (cls v) (name v) (firstn m (components v)) (arg v) None)
              (mkVector (cls w) (name w) (firstn m (components w)) (arg w) None).
Proof.
  cbv zeta. split; [apply Vector_or_dot_upto|].
  unfold Vector_or. cbn [components]. f_equal. f_equal.
  generalize (components w). induction (components v) as [|x l1 IH]; intros [|y l2];
    cbn; try reflexivity.
  f_equal. apply IH.
Qed.

(** C7 as the code has it.  The derivative function of a constant
    vector is [lambda self, *args, **kwargs: 0]: differentiating the
    vector returns the integer 0, whatever the parameter, the components
    and the name; what is returned is no vector, and has no components
    and no name. *)
Theorem diff_VectorConstant (fresh cls : nat) (Name : string) (Components : list K)
        (arg x : string) :
  diff fresh (VectorConstant cls Name Components arg) x = Ok (VScalar (of_int 0)) /\
  forall w : Vector,
    diff fresh (VectorConstant cls Name Components arg) x <> Ok (VVector w).
Proof. split; [reflexivity|]. intros w H. discriminate H. Qed.

End VectorProperties.

(** C2, counterexample.  A vector of three components and one of two:
    the specification asks for an error, the code returns 1. *)
Lemma Vector_or_unequal_length :
  let w := VectorConstant 3 "w" [inject_Z 1; inject_Z 0] "t" in
  length (components e1) <> length (components w) /\
  Vector_or e1 w = inject_Z 1 /\
  dot_spec e1 w = Raise DimensionMismatch /\
  Ok (Vector_or e1 w) <> dot_spec e1 w.
Proof. vm_compute. repeat split; discriminate. Qed.

(** C7, counterexample.  The derivative of the constant vector [e1] is a
    number, not a vector. *)
Lemma diff_constant_not_vector :
  diff 0 e1 "t" = Ok (VScalar (inject_Z 0)) /\
  ~ exists v : Vector, diff 0 e1 "t" = Ok (VVector v).
Proof. split; [reflexivity|]. intros [v Hv]. discriminate Hv. Qed.

(* ===================================================================== *)
(** ** Contraction of tensor products *)
(* ===================================================================== *)

(** C6 as the code has it.  For the constant vectors (1,0,0) and (0,1,0):
    the two dot products are 0 and 1, and the tensor products [e1*e2] and
    [e1*e1], which are not symmetric, contracted each with itself both
    give 1: the contraction of [e1*e2] with itself is
    [(e1|e1)*(e2|e2)]. *)
Theorem basis_contractions (c1 c2 : nat) (n1 n2 a1 a2 : string) :
  let e1 := VectorConstant c1 n1 [inject_Z 1; inject_Z 0; inject_Z 0] a1 in
  let e2 := VectorConstant c2 n2 [inject_Z 0; inject_Z 1; inject_Z 0] a2 in
  let e12 := TensorProduct [e1; e2] None None in
  let e11 := TensorProduct [e1; e1] None None in
  Vector_or e1 e2 = inject_Z 0 /\
  Vector_or e1 e1 = inject_Z 1 /\
  TensorProduct_or e12 (OTensorProduct e12) = Ok (inject_Z 1) /\
  TensorProduct_or e11 (OTensorProduct e11) = Ok (inject_Z 1).
Proof. repeat split. Qed.

(** C6, counterexample.  [e1*e2] contracted with itself is 1, not 0. *)
Lemma e1e2_contracted_with_itself :
  let e12 := TensorProduct [e1; e2] None None in
  TensorProduct_or e12 (OTensorProduct e12) = Ok (inject_Z 1) /\
  TensorProduct_or e12 (OTensorProduct e12) <> Ok (inject_Z 0).
Proof. split; [reflexivity | discriminate]. Qed.

(** C3.  The contraction of a symmetric tensor product with a tensor
    product of the same rank evaluates [factorial(self.rank)], and the
    module binds the name [factorial] nowhere: the call raises
    [NameError], whatever the vectors and the coefficients, before any
    coefficient is scaled and any sum is formed. *)
Theorem symmetric_contraction_raises (K : Type) (KS : Scalar K)
        (A B : @TensorProductFunction K) :
  symmetric A = true -> rank B = rank A ->
  TensorProduct_or A (OTensorProduct B) = Raise (NameError "factorial").
Proof.
  intros Hs Hr. unfold TensorProduct_or, TensorProduct_or_in, module_factorial.
  cbn [operand_rank bind]. rewrite Hr, Nat.eqb_refl. cbn [negb].
  unfold contract_products. now rewrite Hr, Nat.eqb_refl, Hs.
Qed.

(** C3, at an instance: the symmetric [e1*e1] contracted with itself. *)
Lemma symmetric_contraction_raises_witness :
  TensorProduct_or (TensorProduct [e1; e1] None (Some true))
                   (OTensorProduct (TensorProduct [e1; e1] None (Some true)))
  = Raise (NameError "factorial").
Proof.
  apply (@symmetric_contraction_raises Q QScalar); reflexivity.
Defined.

(* ===================================================================== *)
(** ** Addition of tensors *)
(* ===================================================================== *)

Section AdditionProperties.

Context {K : Type} {KS : Scalar K}.

Lemma Tensor_raises_nonempty (h : @heap K) (l : list addr) (e : exn) :
  Tensor h l = Raise e -> l <> [].
Proof. destruct l; [discriminate | discriminate]. Qed.

(** C4 as the code has it.  Adding a zero returns the tensor itself.
    An operand of rank 0, a tensor product without vectors or a tensor
    without terms, is not rejected: the sum is the operand when the
    tensor has rank 0 too, and the tensor itself otherwise.  A number
    that is not zero has no rank: it is returned when the tensor has
    rank 0, and otherwise the lookup of its rank raises
    [AttributeError].  [ValueError] is only raised between two ranks
    that are both not 0. *)
Theorem Tensor_add_rank0 (h : @heap K) (self : list addr) (T : obj) :
  (is_zero_obj T = true -> Tensor_add h self T = Ok (Tens self)) /\
  (is_zero_obj T = false -> obj_rank h T = Ok 0 ->
   Tensor_add h self T = Ok (if Tensor_rank h self =? 0 then T else Tens self)) /\
  (forall s, T = Num s -> eq_zero s = false ->
   Tensor_add h self T
   = if Tensor_rank h self =? 0 then Ok T else Raise (AttributeError "rank")) /\
  (forall msg, Tensor_add h self T = Raise (ValueError msg) ->
   Tensor_rank h self <> 0 /\ exists r, obj_rank h T = Ok r /\ r <> 0).
Proof.
  unfold Tensor_add. repeat split.
  - intros ->. reflexivity.
  - intros -> ->. simpl. destruct (Tensor_rank h self =? 0); reflexivity.
  - intros s -> Hs. simpl. rewrite Hs.
    destruct (Tensor_rank h self =? 0); reflexivity.
  - destruct (is_zero_obj T); [discriminate|].
    destruct (Tensor_rank h self =? 0) eqn:E; [discriminate|].
    now apply Nat.eqb_neq in E.
  - destruct (is_zero_obj T); [discriminate|].
    destruct (Tensor_rank h self =? 0) eqn:E; [discriminate|].
    destruct T as [s|a|ts]; simpl in *; [discriminate| |].
    + destruct (rank (h a) =? 0) eqn:E0; [discriminate|].
      exists (rank (h a)). split; [reflexivity | now apply Nat.eqb_neq in E0].
    + destruct (Tensor_rank h ts =? 0) eqn:E0; [discriminate|].
      exists (Tensor_rank h ts).
      split; [reflexivity | now apply Nat.eqb_neq in E0].
Qed.

End AdditionProperties.

(** C4, counterexample.  A tensor of rank 2 plus a tensor product of
    rank 0, and plus a tensor without terms: no error, the operand is
    dropped. *)
Lemma Tensor_add_rank0_accepted :
  Tensor_rank h_add [0] = 2 /\
  obj_rank h_add (TProd 1) = Ok 0 /\
  Tensor_add h_add [0] (TProd 1) = Ok (Tens [0]) /\
  Tensor_add h_add [0] (Tens []) = Ok (Tens [0]) /\
  ~ exists e, Tensor_add h_add [0] (TProd 1) = Raise e.
Proof. repeat split. intros [e He]. discriminate He. Qed.

(** C4, at an instance: both parts of the statement on the heap above. *)
Lemma Tensor_add_rank0_witness :
  Tensor_add h_add [0] (Num (inject_Z 0)) = Ok (Tens [0]) /\
  Tensor_add h_add [0] (TProd 1) = Ok (Tens [0]) /\
  Tensor_add h_add [0] (Num (inject_Z 3)) = Raise (AttributeError "rank").
Proof.
  destruct (Tensor_add_rank0 h_add [0] (Num (inject_Z 0))) as (H1 & _).
  destruct (Tensor_add_rank0 h_add [0] (TProd 1)) as (_ & H2 & _).
  destruct (Tensor_add_rank0 h_add [0] (Num (inject_Z 3))) as (_ & _ & H3 & _).
  split; [apply H1; reflexivity|].
  split; [apply H2; reflexivity|].
  apply (H3 (inject_Z 3)); reflexivity.
Defined.

(* ===================================================================== *)
(** ** Basis elements *)
(* ===================================================================== *)

Section BasisProperties.

Context {K : Type} {KS : Scalar K}.

Lemma Vector_eqb_key (v w : @Vector K) : Vector_eqb v w = true <-> key v = key w.
Proof.
  unfold Vector_eqb, key. rewrite andb_true_iff, Nat.eqb_eq, String.eqb_eq.
  split; [intros [H1 H2]; congruence | intros H; split; congruence].
Qed.

Lemma Vector_eqb_dec (v w : @Vector K) :
  Vector_eqb v w = if key_dec (key v) (key w) then true else false.
Proof.
  destruct (key_dec (key v) (key w)) as [E|N].
  - now apply Vector_eqb_key.
  - destruct (Vector_eqb v w) eqn:E; [|reflexivity].
    apply Vector_eqb_key in E. contradiction.
Qed.

Lemma list_eqb_keys (l1 l2 : list (@Vector K)) :
  list_eqb l1 l2 = true <-> map key l1 = map key l2.
Proof.
  revert l2. induction l1 as [|v l1 IH]; intros [|w l2]; simpl;
    try (split; [reflexivity | reflexivity]); try (split; discriminate).
  rewrite andb_true_iff, IH, Vector_eqb_key.
  split; [intros [H1 H2]; congruence | intros H; split; congruence].
Qed.

Lemma dict_get_Some_In (v : @Vector K) (d : list (Vector * nat)) (n : nat) :
  dict_get v d = Some n -> In (key v) (dict_keys d).
Proof.
  induction d as [|[k m] d IH]; simpl; [discriminate|].
  rewrite Vector_eqb_dec. destruct (key_dec (key k) (key v)) as [E|N].
  - intros _. now left.
  - intros H. right. now apply IH.
Qed.

Lemma dict_get_None_notin (v : @Vector K) (d : list (Vector * nat)) :
  dict_get v d = None -> ~ In (key v) (dict_keys d).
Proof.
  induction d as [|[k m] d IH]; simpl; [tauto|].
  rewrite Vector_eqb_dec. destruct (key_dec (key k) (key v)) as [E|N].
  - discriminate.
  - intros H [E|I]; [contradiction | now apply IH].
Qed.

Lemma dict_get_In (v : @Vector K) (n : nat) (d : list (Vector * nat)) :
  NoDup (dict_keys d) -> In (v, n) d -> dict_get v d = Some n.
Proof.
  induction d as [|[k m] d IH]; simpl; [tauto|].
  intros Hnd [E|I].
  - injection E as -> ->. rewrite Vector_eqb_dec.
    destruct (key_dec (key v) (key v)); [reflexivity | congruence].
  - inversion Hnd as [|? ? Hk Hnd']; subst.
    rewrite Vector_eqb_dec. destruct (key_dec (key k) (key v)) as [E|N].
    + exfalso. apply Hk. rewrite E.
      change (key v) with ((fun kn : Vector * nat => key (fst kn)) (v, n)).
      now apply in_map.
    + now apply IH.
Qed.

Lemma dict_get_Counter_add (v w : @Vector K) (d : list (Vector * nat)) :
  dict_get w (Counter_add v d)
  = if key_dec (key v) (key w)
    then Some (match dict_get w d with Some n => S n | None => 1 end)
    else dict_get w d.
Proof.
  induction d as [|[k m] d IH]; simpl.
  - rewrite Vector_eqb_dec. destruct (key_dec (key v) (key w)); reflexivity.
  - rewrite (Vector_eqb_dec k v).
    destruct (key_dec (key k) (key v)) as [Ekv|Nkv]; simpl;
      rewrite (Vector_eqb_dec k w).
    + destruct (key_dec (key k) (key w)) as [Ekw|Nkw];
        destruct (key_dec (key v) (key w)) as [Evw|Nvw]; try congruence.
    + destruct (key_dec (key k) (key w)) as [Ekw|Nkw];
        destruct (key_dec (key v) (key w)) as [Evw|Nvw]; try congruence;
        rewrite IH; destruct (key_dec (key v) (key w)); congruence.
Qed.

Lemma dict_keys_Counter_add (v : @Vector K) (d : list (Vector * nat)) :
  dict_keys (Counter_add v d)
  = if in_dec key_dec (key v) (dict_keys d)
    then dict_keys d else dict_keys d ++ [key v].
Proof.
  induction d as [|[k m] d IH]; simpl; [reflexivity|].
  rewrite Vector_eqb_dec.
  destruct (key_dec (key k) (key v)) as [E|N]; simpl.
  - destruct (key_dec (key k) (key v)); [reflexivity | contradiction].
  - destruct (key_dec (key k) (key v)); [contradiction|].
    rewrite IH. destruct (in_dec key_dec (key v) (dict_keys d)); reflexivity.
Qed.

Lemma Counter_snoc (l : list (@Vector K)) (v : Vector) :
  Counter (l ++ [v]) = Counter_add v (Counter l).
Proof. unfold Counter. now rewrite fold_left_app. Qed.

Lemma occ_snoc (k : nat * string) (l : list (@Vector K)) (v : Vector) :
  occ k (l ++ [v]) = occ k l + (if key_dec (key v) k then 1 else 0).
Proof.
  unfold occ. rewrite map_app, count_occ_app. simpl.
  destruct (key_dec (key v) k); reflexivity.
Qed.

Lemma Counter_NoDup (l : list (@Vector K)) : NoDup (dict_keys (Counter l)).
Proof.
  induction l as [|v l IH] using rev_ind; [constructor|].
  rewrite Counter_snoc, dict_keys_Counter_add.
  destruct (in_dec key_dec (key v) (dict_keys (Counter l))) as [I|N]; [exact IH|].
  apply NoDup_app; [exact IH | repeat constructor; intros [] | ].
  intros x Hx [<-|[]]. contradiction.
Qed.

Lemma dict_get_Counter (l : list (@Vector K)) (w : Vector) :
  dict_get w (Counter l)
  = if occ (key w) l =? 0 then None else Some (occ (key w) l).
Proof.
  induction l as [|v l IH] using rev_ind; [reflexivity|].
  rewrite Counter_snoc, dict_get_Counter_add, occ_snoc, IH.
  destruct (key_dec (key v) (key w)) as [E|N].
  - destruct (occ (key w) l) as [|n] eqn:Ho; simpl; [reflexivity|].
    f_equal. lia.
  - rewrite Nat.add_0_r. reflexivity.
Qed.

Lemma dict_keys_Counter (l : list (@Vector K)) (k : nat * string) :
  In k (dict_keys (Counter l)) <-> occ k l <> 0.
Proof.
  split.
  - intros Hin. unfold dict_keys in Hin. apply in_map_iff in Hin.
    destruct Hin as ([v n] & <- & Hvn). simpl.
    apply dict_get_In in Hvn; [|apply Counter_NoDup].
    rewrite dict_get_Counter in Hvn.
    destruct (occ (key v) l =? 0) eqn:E; [discriminate|].
    now apply Nat.eqb_neq in E.
  - intros Hocc. unfold occ in Hocc.
    assert (Hin : In k (map key l)).
    { apply (count_occ_In key_dec). lia. }
    apply in_map_iff in Hin. destruct Hin as (v & <- & _).
    apply dict_get_Some_In with (n := occ (key v) l).
    rewrite dict_get_Counter.
    destruct (occ (key v) l =? 0) eqn:E; [|reflexivity].
    apply Nat.eqb_eq in E. unfold occ in E. contradiction.
Qed.

(** Two counters are equal when the lists they count are equal as
    multisets of keys. *)
Lemma Counter_eqb_Permutation (l1 l2 : list (@Vector K)) :
  dict_eqb (Counter l1) (Counter l2) = true
  <-> Permutation (map key l1) (map key l2).
Proof.
  rewrite (Permutation_count_occ key_dec).
  unfold dict_eqb. rewrite andb_true_iff, Nat.eqb_eq, forallb_forall.
  split.
  - intros [Hlen Hall] k.
    assert (Hincl : incl (dict_keys (Counter l1)) (dict_keys (Counter l2))).
    { intros x Hx. unfold dict_keys in Hx. apply in_map_iff in Hx.
      destruct Hx as ([v n] & <- & Hvn). specialize (Hall _ Hvn). simpl in *.
      destruct (dict_get v (Counter l2)) as [m|] eqn:E; [|discriminate].
      eapply dict_get_Some_In; eauto. }
    assert (Hincl' : incl (dict_keys (Counter l2)) (dict_keys (Counter l1))).
    { apply NoDup_length_incl; [apply Counter_NoDup | | exact Hincl].
      unfold dict_keys. rewrite !length_map. lia. }
    destruct (in_dec key_dec k (dict_keys (Counter l1))) as [I|N].
    + unfold dict_keys in I. apply in_map_iff in I.
      destruct I as ([v n] & <- & Hvn). specialize (Hall _ Hvn). simpl in *.
      apply dict_get_In in Hvn; [|apply Counter_NoDup].
      rewrite dict_get_Counter in Hvn, Hall. fold (occ (key v) l1) (occ (key v) l2).
      destruct (occ (key v) l1 =? 0); [discriminate|].
      destruct (occ (key v) l2 =? 0); [discriminate|].
      apply Nat.eqb_eq in Hall. congruence.
    + assert (N' : ~ In k (dict_keys (Counter l2))) by (intros I; apply N, Hincl', I).
      rewrite dict_keys_Counter in N, N'. fold (occ k l1) (occ k l2). lia.
  - intros Hocc.
    assert (Hocc' : forall k, occ k l1 = occ k l2) by exact Hocc.
    split.
    + assert (Hl : length (dict_keys (Counter l1)) = length (dict_keys (Counter l2))).
      { apply Nat.le_antisymm; apply NoDup_incl_length; try apply Counter_NoDup;
          intros x; rewrite !dict_keys_Counter, Hocc'; tauto. }
      unfold dict_keys in Hl. now rewrite !length_map in Hl.
    + intros [v n] Hvn. simpl.
      apply dict_get_In in Hvn; [|apply Counter_NoDup].
      rewrite dict_get_Counter in *. rewrite <- Hocc'.
      destruct (occ (key v) l1 =? 0); [discriminate|].
      injection Hvn as <-. apply Nat.eqb_refl.
Qed.

(** What [has_same_basis_element] decides. *)
Lemma has_same_basis_element_spec (A B : @TensorProductFunction K) :
  has_same_basis_element A B = true
  <-> if symmetric A then Permutation (basis A) (basis B) else basis A = basis B.
Proof.
  unfold has_same_basis_element, basis. destruct (symmetric A).
  - apply Counter_eqb_Permutation.
  - apply list_eqb_keys.
Qed.

(** C10.  [A.has_same_basis_element(B)] compares the vectors as multisets
    when [A] is symmetric and as sequences when it is not; the flag of
    [B] plays no part; so for a symmetric [A] and a [B] that is not, with
    the same vectors in another order, [A] has the basis element of [B]
    and [B] has not the basis element of [A]. *)
Theorem has_same_basis_element_one_sided (A B : @TensorProductFunction K) :
  (symmetric A = true ->
   (has_same_basis_element A B = true <-> Permutation (basis A) (basis B))) /\
  (symmetric A = false ->
   (has_same_basis_element A B = true <-> basis A = basis B)) /\
  (forall b c, has_same_basis_element A (mkTensorProduct (vectors B) c b)
               = has_same_basis_element A B) /\
  (symmetric A = true -> symmetric B = false ->
   Permutation (basis A) (basis B) -> basis A <> basis B ->
   has_same_basis_element A B = true /\ has_same_basis_element B A = false).
Proof.
  split; [|split; [|split]].
  - intros HA. rewrite has_same_basis_element_spec, HA. reflexivity.
  - intros HA. rewrite has_same_basis_element_spec, HA. reflexivity.
  - intros b c. reflexivity.
  - intros HA HB Hperm Hne. split.
    + apply has_same_basis_element_spec. now rewrite HA.
    + destruct (has_same_basis_element B A) eqn:E; [|reflexivity].
      apply has_same_basis_element_spec in E. rewrite HB in E. congruence.
Qed.

End BasisProperties.

(** C10, at an instance: [e1*e2] symmetric and [e2*e1] not symmetric. *)
Lemma has_same_basis_element_witness :
  has_same_basis_element (TensorProduct [e1; e2] None (Some true))
                         (TensorProduct [e2; e1] None None) = true /\
  has_same_basis_element (TensorProduct [e2; e1] None None)
                         (TensorProduct [e1; e2] None (Some true)) = false.
Proof.
  apply (has_same_basis_element_one_sided
           (TensorProduct [e1; e2] None (Some true))
           (TensorProduct [e2; e1] None None)).
  - reflexivity.
  - reflexivity.
  - apply perm_swap.
  - discriminate.
Defined.

(* ===================================================================== *)
(** ** Compression *)
(* ===================================================================== *)


Section CompressLoops.

Context {K : Type} {KS : Scalar K}.
Variable T : list addr.

Lemma same_shape_refl (h : @heap K) : same_shape h h.
Proof. intros a. split; reflexivity. Qed.

Lemma same_shape_trans (h1 h2 h3 : @heap K) :
  same_shape h1 h2 -> same_shape h2 h3 -> same_shape h1 h3.
Proof.
  intros H12 H23 a. destruct (H12 a) as [V1 S1], (H23 a) as [V2 S2].
  split; congruence.
Qed.

Lemma same_shape_set_coefficient (h : @heap K) (a : addr) (c : K) :
  same_shape h (set_coefficient h a c).
Proof.
  intros b. unfold set_coefficient. destruct (b =? a) eqn:E; simpl.
  - apply Nat.eqb_eq in E. subst. split; reflexivity.
  - split; reflexivity.
Qed.

Lemma has_same_basis_element_shape (A A' B B' : @TensorProductFunction K) :
  vectors A' = vectors A -> symmetric A' = symmetric A -> vectors B' = vectors B ->
  has_same_basis_element A' B' = has_same_basis_element A B.
Proof. unfold has_same_basis_element. intros -> -> ->. reflexivity. Qed.

Lemma has_same_basis_element_heap (h h' : @heap K) (a b : addr) :
  same_shape h h' ->
  has_same_basis_element (h' a) (h' b) = has_same_basis_element (h a) (h b).
Proof.
  intros Hs. destruct (Hs a) as [Va Sa], (Hs b) as [Vb Sb].
  now apply has_same_basis_element_shape.
Qed.

Lemma mem_app (j : nat) (R R' : list nat) : mem j (R ++ R') = mem j R || mem j R'.
Proof. apply existsb_app. Qed.

Lemma mem_In (j : nat) (R : list nat) : mem j R = true <-> In j R.
Proof.
  unfold mem. rewrite existsb_exists. split.
  - intros (x & Hx & E). apply Nat.eqb_eq in E. now subst.
  - intros H. exists j. split; [exact H | apply Nat.eqb_refl].
Qed.

Lemma mem_snoc_other (j x : nat) (R : list nat) :
  j <> x -> mem j (R ++ [x]) = mem j R.
Proof.
  intros N. rewrite mem_app. simpl.
  apply Nat.eqb_neq in N. rewrite N. now rewrite !orb_false_r.
Qed.

Lemma absorbed_ext (h h' : @heap K) (i : nat) (R R' js : list nat) :
  same_shape h h' -> (forall j, In j js -> mem j R' = mem j R) ->
  absorbed T h' i R' js = absorbed T h i R js.
Proof.
  intros Hs HR. unfold absorbed. apply filter_ext_in. intros j Hj.
  now rewrite (HR j Hj), (has_same_basis_element_heap _ _ Hs).
Qed.

(** The inner loop: which indices it removes, and what it leaves alone. *)
Lemma compress_inner_spec (i : nat) (js : list nat) :
  NoDup js -> forall (h : @heap K) (R : list nat),
  let st := fold_left (compress_inner T i) js (h, R) in
  snd st = R ++ absorbed T h i R js /\
  same_shape h (fst st) /\
  (forall a, a <> nth i T 0 -> fst st a = h a).
Proof.
  induction 1 as [|j js Hj Hnd IH]; intros h R; simpl.
  - rewrite app_nil_r. split; [reflexivity|]. split; [apply same_shape_refl | reflexivity].
  - destruct (mem j R) eqn:Em; simpl.
    + apply IH.
    + destruct (has_same_basis_element (h (nth i T 0)) (h (nth j T 0))) eqn:Eb.
      * set (h1 := set_coefficient h (nth i T 0) _).
        destruct (IH h1 (R ++ [j])) as (HR & Hs & Hf).
        assert (Hs1 : same_shape h h1) by apply same_shape_set_coefficient.
        split; [|split].
        -- rewrite HR, <- app_assoc. simpl. do 2 f_equal.
           apply absorbed_ext; [exact Hs1|].
           intros j' Hj'. apply mem_snoc_other. intros ->. contradiction.
        -- eapply same_shape_trans; eauto.
        -- intros a Ha. rewrite (Hf a Ha). unfold h1, set_coefficient.
           apply Nat.eqb_neq in Ha. now rewrite Ha.
      * apply IH.
Qed.

Lemma absorbed_cons (h : @heap K) (i j : nat) (R js : list nat) :
  absorbed T h i R (j :: js)
  = if negb (mem j R) && has_same_basis_element (h (nth i T 0)) (h (nth j T 0))
    then j :: absorbed T h i R js else absorbed T h i R js.
Proof. reflexivity. Qed.

Lemma compress_inner_step (h : @heap K) (i j : nat) (R : list nat) :
  compress_inner T i (h, R) j
  = if negb (mem j R) && has_same_basis_element (h (nth i T 0)) (h (nth j T 0))
    then (set_coefficient h (nth i T 0)
            (simplify (sadd (coefficient (h (nth i T 0)))
                            (coefficient (h (nth j T 0))))),
          R ++ [j])
    else (h, R).
Proof.
  unfold compress_inner. destruct (mem j R); simpl; [reflexivity|].
  destruct (has_same_basis_element _ _); reflexivity.
Qed.

(** The coefficient the inner loop leaves in the term [i], when the
    object of that term is no other term among [js]. *)
Lemma compress_inner_coefficient (i : nat) (js : list nat) :
  NoDup js -> (forall j, In j js -> nth j T 0 <> nth i T 0) ->
  forall (h : @heap K) (R : list nat),
  coefficient (fst (fold_left (compress_inner T i) js (h, R)) (nth i T 0))
  = merge_coefficients (coefficient (h (nth i T 0)))
                       (map (fun j => h (nth j T 0)) (absorbed T h i R js)).
Proof.
  induction 1 as [|j js Hj Hnd IH]; intros Hne h R; [reflexivity|].
  assert (Hne' : forall j', In j' js -> nth j' T 0 <> nth i T 0)
    by (intros; apply Hne; now right).
  cbn [fold_left]. rewrite compress_inner_step, absorbed_cons.
  destruct (negb (mem j R)
            && has_same_basis_element (h (nth i T 0)) (h (nth j T 0))) eqn:E;
    [|now apply IH].
  set (h1 := set_coefficient h (nth i T 0) _).
  rewrite (IH Hne' h1 (R ++ [j])).
  assert (Hs1 : same_shape h h1) by apply same_shape_set_coefficient.
  rewrite (absorbed_ext i R (R ++ [j]) js Hs1);
    [|intros j' Hj'; apply mem_snoc_other; intros ->; contradiction].
  cbn [map]. unfold merge_coefficients. cbn [fold_left].
  assert (Ec : coefficient (h1 (nth i T 0))
               = simplify (sadd (coefficient (h (nth i T 0)))
                                (coefficient (h (nth j T 0))))).
  { unfold h1, set_coefficient. now rewrite Nat.eqb_refl. }
  rewrite Ec. f_equal.
  apply map_ext_in. intros j' Hj'. unfold absorbed in Hj'.
  apply filter_In in Hj'. destruct Hj' as [Hj' _].
  unfold h1, set_coefficient.
  destruct (nth j' T 0 =? nth i T 0) eqn:E'; [|reflexivity].
  apply Nat.eqb_eq in E'. exfalso. now apply (Hne' j').
Qed.

Lemma compress_outer_step (h : @heap K) (R : list nat) (i : nat) :
  mem i R = false ->
  let st := fold_left (compress_inner T i)
                      (seq (i + 1) (length T - (i + 1))) (h, R) in
  compress_outer T (h, R) i
  = if negb (is_nil (snd st)) && eq_zero (coefficient (fst st (nth i T 0)))
    then (fst st, snd st ++ [i]) else st.
Proof.
  intros Em. unfold compress_outer. cbn [snd]. rewrite Em. cbv zeta.
  destruct (fold_left _ _ _) as [h1 R1]. cbn [fst snd].
  destruct R1 as [|r R1]; cbn [is_nil negb andb]; [reflexivity|].
  destruct (eq_zero _); reflexivity.
Qed.

Lemma compress_outer_skip (st : @heap K * list nat) (i : nat) :
  mem i (snd st) = true -> compress_outer T st i = st.
Proof. intros Em. unfold compress_outer. now rewrite Em. Qed.

Lemma absorbed_In (h : @heap K) (i k : nat) (R js : list nat) :
  In k (absorbed T h i R js) -> In k js.
Proof. unfold absorbed. intros H. now apply filter_In in H. Qed.

(** One round of the outer loop changes the coefficient of the term [i]
    at most, and only adds indices from [i] on to the removed ones. *)
Lemma compress_outer_frame (h : @heap K) (R : list nat) (i : nat) :
  let st := compress_outer T (h, R) i in
  same_shape h (fst st) /\
  (forall a, a <> nth i T 0 -> fst st a = h a) /\
  (forall k, mem k R = true -> mem k (snd st) = true) /\
  (forall k, mem k (snd st) = true -> mem k R = true \/ i <= k).
Proof.
  destruct (mem i R) eqn:Em.
  - rewrite compress_outer_skip by exact Em. cbn.
    split; [apply same_shape_refl|]. repeat split; auto.
  - rewrite compress_outer_step by exact Em. cbv zeta.
    destruct (compress_inner_spec i (seq_NoDup (length T - (i + 1)) (i + 1)) h R)
      as (HR & Hs & Hf).
    assert (Hup : forall k, mem k (snd (fold_left (compress_inner T i)
                      (seq (i + 1) (length T - (i + 1))) (h, R))) = true ->
                  mem k R = true \/ i <= k).
    { intros k. rewrite HR, mem_app, orb_true_iff. intros [Hk|Hk]; [now left|].
      right. apply mem_In, absorbed_In, in_seq in Hk. lia. }
    destruct (negb _ && _); cbn [fst snd];
      (split; [exact Hs|]; split; [exact Hf|]; split).
    + intros k Hk. rewrite HR, !mem_app, Hk. reflexivity.
    + intros k. rewrite mem_app, orb_true_iff. intros [Hk|Hk]; [now apply Hup|].
      right. apply mem_In in Hk. destruct Hk as [<-|[]]. lia.
    + intros k Hk. rewrite HR, !mem_app, Hk. reflexivity.
    + exact Hup.
Qed.

Lemma compress_loop_frame (idx : list nat) :
  forall (h : @heap K) (R : list nat),
  let st := fold_left (compress_outer T) idx (h, R) in
  same_shape h (fst st) /\
  (forall a, (forall i, In i idx -> a <> nth i T 0) -> fst st a = h a) /\
  (forall k, mem k R = true -> mem k (snd st) = true) /\
  (forall k, mem k (snd st) = true ->
             mem k R = true \/ exists i, In i idx /\ i <= k).
Proof.
  induction idx as [|i idx IH]; intros h R; cbn [fold_left].
  - split; [apply same_shape_refl|]. repeat split; auto.
  - destruct (compress_outer_frame h R i) as (Hs & Hf & Hm & Hu).
    destruct (compress_outer T (h, R) i) as [h1 R1] eqn:E1. cbn [fst snd] in *.
    destruct (IH h1 R1) as (Hs' & Hf' & Hm' & Hu').
    split; [eapply same_shape_trans; eauto|]. split; [|split].
    + intros a Ha. rewrite Hf'; [apply Hf|]; intros; apply Ha; simpl; auto.
    + intros k Hk. apply Hm', Hm, Hk.
    + intros k Hk. destruct (Hu' k Hk) as [Hk1|(i' & Hi' & Hle)].
      * destruct (Hu k Hk1) as [Hk0|Hle]; [now left|].
        right. exists i. split; [now left | exact Hle].
      * right. exists i'. split; [now right | exact Hle].
Qed.

(** *** The loops as a function on the list of terms *)

Lemma compress_terms_fuel_enough (fuel : nat) :
  forall (fuel' : nat) (merged : bool) (l : list (@TensorProductFunction K)),
  length l <= fuel -> length l <= fuel' ->
  compress_terms_fuel fuel merged l = compress_terms_fuel fuel' merged l.
Proof.
  induction fuel as [|fuel IH]; intros [|fuel'] merged [|t rest] H1 H2;
    simpl in *; try reflexivity; try lia.
  pose proof (filter_length_le (fun u => negb (has_same_basis_element t u)) rest).
  destruct (_ && _); [|f_equal]; apply IH; lia.
Qed.

Lemma compress_terms_cons (merged : bool) (t : @TensorProductFunction K)
      (rest : list TensorProductFunction) :
  compress_terms merged (t :: rest)
  = let group := filter (has_same_basis_element t) rest in
    let others := filter (fun u => negb (has_same_basis_element t u)) rest in
    let c := merge_coefficients (coefficient t) group in
    let merged' := merged || negb (is_nil group) in
    if merged' && eq_zero c then compress_terms merged' others
    else with_coefficient t c :: compress_terms merged' others.
Proof.
  unfold compress_terms. cbn [length compress_terms_fuel]. cbv zeta.
  pose proof (filter_length_le (fun u => negb (has_same_basis_element t u)) rest).
  destruct (_ && _); [|f_equal]; apply compress_terms_fuel_enough; lia.
Qed.

Lemma compress_groups_cons (t : @TensorProductFunction K)
      (rest : list TensorProductFunction) :
  compress_groups (t :: rest)
  = let group := filter (has_same_basis_element t) rest in
    let others := filter (fun u => negb (has_same_basis_element t u)) rest in
    let c := merge_coefficients (coefficient t) group in
    if eq_zero c then compress_groups others
    else with_coefficient t c :: compress_groups others.
Proof. unfold compress_groups. rewrite compress_terms_cons. reflexivity. Qed.

Lemma filter_read (g : @TensorProductFunction K -> bool) (h : @heap K) (idx : list nat) :
  filter g (read T h idx) = read T h (filter (fun k => g (h (nth k T 0))) idx).
Proof.
  unfold read. induction idx as [|k idx IH]; simpl; [reflexivity|].
  destruct (g (h (nth k T 0))); simpl; now rewrite IH.
Qed.

Lemma filter_filter (f g : nat -> bool) (l : list nat) :
  filter f (filter g l) = filter (fun k => g k && f k) l.
Proof.
  induction l as [|k l IH]; simpl; [reflexivity|].
  destruct (g k); simpl; [destruct (f k); now rewrite IH | exact IH].
Qed.

Lemma absorbed_alive (h : @heap K) (i : nat) (R js : list nat) :
  absorbed T h i R js
  = filter (fun k => has_same_basis_element (h (nth i T 0)) (h (nth k T 0)))
           (alive R js).
Proof. unfold absorbed, alive. now rewrite filter_filter. Qed.

Lemma alive_absorbed (h : @heap K) (i : nat) (R js : list nat) :
  NoDup js ->
  alive (R ++ absorbed T h i R js) js
  = filter (fun k => negb (has_same_basis_element (h (nth i T 0)) (h (nth k T 0))))
           (alive R js).
Proof.
  intros _. unfold alive. rewrite filter_filter. apply filter_ext_in.
  intros k Hk. rewrite mem_app.
  destruct (mem k R) eqn:Em; [reflexivity|]. cbn [orb negb andb]. f_equal.
  destruct (has_same_basis_element (h (nth i T 0)) (h (nth k T 0))) eqn:Eb.
  - apply mem_In. unfold absorbed. apply filter_In. split; [exact Hk|].
    now rewrite Em, Eb.
  - destruct (mem k (absorbed T h i R js)) eqn:E; [|reflexivity].
    apply mem_In in E. unfold absorbed in E. apply filter_In in E.
    destruct E as [_ E]. rewrite Em, Eb in E. discriminate.
Qed.

Lemma alive_ext (R R' idx : list nat) :
  (forall k, In k idx -> mem k R' = mem k R) -> alive R' idx = alive R idx.
Proof.
  intros H. unfold alive. apply filter_ext_in. intros k Hk. now rewrite H.
Qed.

Lemma read_ext (h h' : @heap K) (idx : list nat) :
  (forall k, In k idx -> h' (nth k T 0) = h (nth k T 0)) -> read T h' idx = read T h idx.
Proof. intros H. unfold read. apply map_ext_in. exact H. Qed.

Lemma shape_with_coefficient (t t' : @TensorProductFunction K) :
  vectors t' = vectors t -> symmetric t' = symmetric t ->
  t' = with_coefficient t (coefficient t').
Proof. destruct t, t'. simpl. intros -> ->. reflexivity. Qed.

(** The outer loop from the index [i] on, when no object is held twice:
    the terms it leaves are those of [compress_terms] on the terms that
    were alive. *)
Lemma compress_loop_terms :
  NoDup T -> forall (m i : nat), i + m = length T ->
  forall (h : @heap K) (R : list nat),
  let st := fold_left (compress_outer T) (seq i m) (h, R) in
  (forall k, k < i -> mem k (snd st) = mem k R) /\
  (forall k, k < i -> fst st (nth k T 0) = h (nth k T 0)) /\
  read T (fst st) (alive (snd st) (seq i m))
  = compress_terms (negb (is_nil R)) (read T h (alive R (seq i m))).
Proof.
  intros HT.
  assert (Hnth : forall a b, a < length T -> b < length T -> a <> b ->
                             nth a T 0 <> nth b T 0).
  { intros a b Ha Hb Hab E. apply Hab. eapply NoDup_nth; eauto. }
  induction m as [|m IH]; intros i Hi h R; cbn [seq fold_left].
  - cbn. split; [reflexivity|]. split; reflexivity.
  - assert (Hlen : length T - (i + 1) = m) by lia.
    destruct (mem i R) eqn:Em.
    + rewrite compress_outer_skip by exact Em.
      destruct (IH (S i) ltac:(lia) h R) as (H1 & H2 & H3).
      split; [intros; apply H1; lia|]. split; [intros; apply H2; lia|].
      unfold alive in *. cbn [filter]. rewrite (H1 i) by lia. rewrite Em.
      cbn [negb]. exact H3.
    + rewrite compress_outer_step by exact Em. cbv zeta. rewrite Hlen.
      replace (i + 1) with (S i) by lia.
      set (js := seq (S i) m).
      assert (Hjs : NoDup js) by apply seq_NoDup.
      destruct (compress_inner_spec i Hjs h R) as (HR & Hs & Hf).
      assert (Hc := compress_inner_coefficient i Hjs).
      specialize (Hc ltac:(intros j Hj; apply in_seq in Hj; apply Hnth; lia) h R).
      destruct (fold_left (compress_inner T i) js (h, R)) as [h1 R1].
      cbn [fst snd] in *.
      set (t := h (nth i T 0)).
      set (c := coefficient (h1 (nth i T 0))) in *.
      (* the terms behind [i] *)
      assert (Hrest : read T h1 (alive R1 js)
                      = filter (fun u => negb (has_same_basis_element t u))
                               (read T h (alive R js))).
      { rewrite filter_read. fold t. rewrite HR.
        rewrite (alive_absorbed h i R Hjs). apply read_ext.
        intros k Hk. apply filter_In in Hk. destruct Hk as [Hk _].
        apply filter_In in Hk. destruct Hk as [Hk _]. apply in_seq in Hk.
        apply Hf. apply Hnth; lia. }
      assert (Hgroup : map (fun j => h (nth j T 0)) (absorbed T h i R js)
                       = filter (has_same_basis_element t) (read T h (alive R js))).
      { rewrite filter_read. fold t. now rewrite absorbed_alive. }
      assert (Hflag : is_nil R1
                      = negb (negb (is_nil R)
                              || negb (is_nil (filter (has_same_basis_element t)
                                                      (read T h (alive R js)))))).
      { rewrite HR, <- Hgroup.
        destruct R; [|reflexivity]. cbn.
        destruct (absorbed T h i [] js); reflexivity. }
      assert (Hti : h1 (nth i T 0) = with_coefficient t c).
      { apply shape_with_coefficient; apply Hs. }
      assert (Hcc : c = merge_coefficients (coefficient t)
                          (filter (has_same_basis_element t) (read T h (alive R js)))).
      { rewrite <- Hgroup. exact Hc. }
      assert (Halive : alive R (i :: js) = i :: alive R js).
      { unfold alive. cbn [filter]. now rewrite Em. }
      rewrite Halive. unfold read at 2. cbn [map]. fold (read T h (alive R js)). fold t.
      rewrite compress_terms_cons. cbv zeta. rewrite <- Hcc, <- Hrest.
      rewrite <- (negb_involutive (negb (is_nil R) || _)), <- Hflag.
      assert (Hi1 : mem i R1 = false).
      { rewrite HR, mem_app, Em. cbn [orb].
        destruct (mem i (absorbed T h i R js)) eqn:E; [|reflexivity].
        apply mem_In, absorbed_In, in_seq in E. lia. }
      destruct (negb (is_nil R1) && eq_zero c) eqn:Edrop.
      * (* the term [i] is dropped *)
        destruct (IH (S i) ltac:(lia) h1 (R1 ++ [i])) as (H1 & H2 & H3).
        fold js in H1, H2, H3.
        split; [|split].
        -- intros k Hk. rewrite H1 by lia. rewrite mem_snoc_other by lia.
           rewrite HR, mem_app.
           destruct (mem k (absorbed T h i R js)) eqn:E; [|apply orb_false_r].
           apply mem_In, absorbed_In, in_seq in E. lia.
        -- intros k Hk. rewrite H2 by lia. apply Hf. apply Hnth; lia.
        -- unfold alive at 1. cbn [filter]. rewrite (H1 i) by lia.
           rewrite mem_app. cbn. rewrite Nat.eqb_refl, orb_true_r. cbn [negb].
           fold (alive (snd (fold_left (compress_outer T) js (h1, R1 ++ [i]))) js).
           rewrite H3.
           replace (negb (is_nil (R1 ++ [i]))) with (negb (is_nil R1)).
           ++ f_equal. apply f_equal. apply alive_ext.
              intros k Hk. apply mem_snoc_other. apply in_seq in Hk. lia.
           ++ apply andb_true_iff in Edrop. destruct Edrop as [E _].
              rewrite E. destruct R1; [discriminate | reflexivity].
      * (* the term [i] stays *)
        destruct (IH (S i) ltac:(lia) h1 R1) as (H1 & H2 & H3).
        fold js in H1, H2, H3.
        split; [|split].
        -- intros k Hk. rewrite H1 by lia.
           rewrite HR, mem_app.
           destruct (mem k (absorbed T h i R js)) eqn:E; [|apply orb_false_r].
           apply mem_In, absorbed_In, in_seq in E. lia.
        -- intros k Hk. rewrite H2 by lia. apply Hf. apply Hnth; lia.
        -- unfold alive at 1. cbn [filter]. rewrite (H1 i) by lia.
           rewrite Hi1. cbn [negb].
           fold (alive (snd (fold_left (compress_outer T) js (h1, R1))) js).
           unfold read at 1. cbn [map].
           fold (read T (fst (fold_left (compress_outer T) js (h1, R1)))
                      (alive (snd (fold_left (compress_outer T) js (h1, R1))) js)).
           rewrite H3, (H2 i) by lia. rewrite Hti. reflexivity.
Qed.

Lemma kept_from (R : list nat) (l : list addr) (a : nat) :
  map snd (filter (fun it => negb (mem (fst it) R)) (combine (seq a (length l)) l))
  = map (fun k => nth (k - a) l 0) (alive R (seq a (length l))).
Proof.
  revert a. induction l as [|x l IH]; intros a; [reflexivity|].
  cbn [length seq combine filter fst alive].
  assert (Htail : map (fun k => nth (k - a) (x :: l) 0) (alive R (seq (S a) (length l)))
                  = map (fun k => nth (k - S a) l 0) (alive R (seq (S a) (length l)))).
  { apply map_ext_in. intros k Hk. apply filter_In in Hk. destruct Hk as [Hk _].
    apply in_seq in Hk. replace (k - a) with (S (k - S a)) by lia. reflexivity. }
  destruct (negb (mem a R)); cbn [map snd]; fold (alive R (seq (S a) (length l)));
    rewrite IH, Htail; [|reflexivity].
  now rewrite Nat.sub_diag.
Qed.

Lemma kept_alive (R : list nat) :
  kept T R = map (fun k => nth k T 0) (alive R (seq 0 (length T))).
Proof.
  unfold kept. rewrite kept_from. apply map_ext. intros k. now rewrite Nat.sub_0_r.
Qed.

Lemma read_seq (h : @heap K) : read T h (seq 0 (length T)) = map h T.
Proof.
  unfold read. rewrite <- (map_map (fun k => nth k T 0) h). f_equal.
  apply nth_ext with (d := 0) (d' := 0).
  - now rewrite length_map, length_seq.
  - intros k Hk. rewrite length_map, length_seq in Hk.
    rewrite (nth_indep _ 0 (nth 0 T 0)) by (now rewrite length_map, length_seq).
    rewrite (map_nth (fun k => nth k T 0)), seq_nth by exact Hk. reflexivity.
Qed.

(** What [compress] returns, in terms of the last state of its loops. *)
Lemma compress_unfold (h : @heap K) :
  let st := fold_left (compress_outer T) (seq 0 (length T)) (h, []) in
  compress h T
  = (fst st, match kept T (snd st) with
             | [] => Num (of_int 0)
             | a :: l => Tens (a :: l)
             end).
Proof.
  unfold compress. destruct (fold_left _ _ _) as [h' R']. cbn [fst snd].
  destruct (kept T R'); reflexivity.
Qed.

Lemma terms_of_compress (h : @heap K) :
  let st := fold_left (compress_outer T) (seq 0 (length T)) (h, []) in
  terms_of (fst (compress h T)) (snd (compress h T))
  = read T (fst st) (alive (snd st) (seq 0 (length T))).
Proof.
  cbv zeta. rewrite compress_unfold. cbn [fst snd].
  unfold read. rewrite <- (map_map (fun k => nth k T 0)), <- kept_alive.
  destruct (kept T _); reflexivity.
Qed.

(** When no object is held twice, [compress] is [compress_terms] on the
    terms of the tensor. *)
Lemma compress_terms_correct (h : @heap K) :
  NoDup T ->
  terms_of (fst (compress h T)) (snd (compress h T))
  = compress_terms false (map h T).
Proof.
  intros HT. rewrite terms_of_compress.
  destruct (compress_loop_terms HT (length T) 0 eq_refl h []) as (_ & _ & H3).
  rewrite H3. cbn [is_nil negb]. f_equal.
  unfold alive. cbn [mem existsb negb].
  rewrite <- read_seq. f_equal.
  clear. induction (seq 0 (length T)) as [|k l IH]; simpl; [reflexivity | now rewrite IH].
Qed.

Lemma compress_returns (h : @heap K) :
  (snd (compress h T) = Num (of_int 0)
   /\ terms_of (fst (compress h T)) (snd (compress h T)) = [])
  \/ (exists a l, snd (compress h T) = Tens (a :: l)).
Proof.
  rewrite compress_unfold. cbn [fst snd]. destruct (kept T _) as [|a l].
  - left. split; reflexivity.
  - right. exists a, l. reflexivity.
Qed.

(** [compress] leaves the vectors and the flag of every object, and
    every object that is no term of the tensor. *)
Lemma compress_frame (h : @heap K) :
  same_shape h (fst (compress h T)) /\
  (forall a, ~ In a T -> fst (compress h T) a = h a).
Proof.
  rewrite compress_unfold. cbn [fst].
  destruct (compress_loop_frame (seq 0 (length T)) h []) as (Hs & Hf & _).
  split; [exact Hs|]. intros a Ha. apply Hf. intros i Hi E.
  apply Ha. rewrite E. apply nth_In. apply in_seq in Hi. lia.
Qed.

(** *** A second compression changes nothing *)

Lemma ForallOrdPairs_nth (P : addr -> addr -> Prop) (l : list addr) :
  ForallOrdPairs P l ->
  forall i j, i < j < length l -> P (nth i l 0) (nth j l 0).
Proof.
  induction 1 as [|a l Ha Hl IH]; intros i j Hij; simpl in *; [lia|].
  destruct j as [|j]; [lia|]. destruct i as [|i].
  - rewrite Forall_forall in Ha. apply Ha, nth_In. lia.
  - apply IH. lia.
Qed.

Lemma ForallOrdPairs_map_filter_seq (P : addr -> addr -> Prop)
      (f : nat -> bool) (g : nat -> addr) (n : nat) :
  forall a,
  (forall k j, a <= k < j -> j < a + n -> f k = true -> f j = true -> P (g k) (g j)) ->
  ForallOrdPairs P (map g (filter f (seq a n))).
Proof.
  induction n as [|n IH]; intros a H; cbn [seq filter]; [constructor|].
  assert (Htl : ForallOrdPairs P (map g (filter f (seq (S a) n)))).
  { apply IH. intros k j Hkj Hj. apply H; lia. }
  destruct (f a) eqn:Ea; [|exact Htl].
  cbn [map]. constructor; [|exact Htl].
  apply Forall_forall. intros x Hx. apply in_map_iff in Hx.
  destruct Hx as (j & <- & Hj). apply filter_In in Hj. destruct Hj as [Hj Hfj].
  apply in_seq in Hj. apply H; auto; lia.
Qed.

Lemma compress_inner_idle (i : nat) (js : list nat) (h : @heap K) (R : list nat) :
  (forall j, In j js ->
     has_same_basis_element (h (nth i T 0)) (h (nth j T 0)) = false) ->
  fold_left (compress_inner T i) js (h, R) = (h, R).
Proof.
  induction js as [|j js IH]; intros H; cbn [fold_left]; [reflexivity|].
  rewrite compress_inner_step, (H j) by now left.
  rewrite andb_false_r. apply IH. intros; apply H; now right.
Qed.

Lemma compress_loop_idle (h : @heap K) (idx : list nat) :
  (forall i j, In i idx -> i < j < length T ->
     has_same_basis_element (h (nth i T 0)) (h (nth j T 0)) = false) ->
  fold_left (compress_outer T) idx (h, []) = (h, []).
Proof.
  induction idx as [|i idx IH]; intros H; cbn [fold_left]; [reflexivity|].
  rewrite compress_outer_step by reflexivity. cbv zeta.
  rewrite compress_inner_idle.
  - cbn. apply IH. intros; apply H; auto. now right.
  - intros j Hj. apply in_seq in Hj. apply H; [now left | lia].
Qed.

Lemma kept_nil : kept T [] = T.
Proof.
  rewrite kept_alive. unfold alive. cbn [mem existsb negb].
  replace (filter (fun _ : nat => true) (seq 0 (length T))) with (seq 0 (length T)).
  - apply nth_ext with (d := 0) (d' := 0).
    + now rewrite length_map, length_seq.
    + intros k Hk. rewrite length_map, length_seq in Hk.
      rewrite (nth_indep _ 0 (nth 0 T 0)) by (now rewrite length_map, length_seq).
      rewrite (map_nth (fun k => nth k T 0)), seq_nth by exact Hk. reflexivity.
  - induction (seq 0 (length T)) as [|k l IH]; simpl; [reflexivity | now rewrite <- IH].
Qed.

(** A tensor whose terms have distinct basis elements is left as it is. *)
Lemma compress_distinct (h : @heap K) :
  basis_distinct h T -> T <> [] -> compress h T = (h, Tens T).
Proof.
  intros Hd Hne. rewrite compress_unfold.
  rewrite compress_loop_idle.
  - cbn [fst snd]. rewrite kept_nil. destruct T; [contradiction | reflexivity].
  - intros i j _ Hij. now apply (ForallOrdPairs_nth Hd).
Qed.

Lemma compress_outer_absorbs (h : @heap K) (R : list nat) (i j : nat) :
  mem i R = false -> i < j < length T ->
  mem j (snd (compress_outer T (h, R) i)) = false ->
  has_same_basis_element (h (nth i T 0)) (h (nth j T 0)) = false.
Proof.
  intros Em Hij Hj. rewrite compress_outer_step in Hj by exact Em. cbv zeta in Hj.
  destruct (compress_inner_spec i (seq_NoDup (length T - (i + 1)) (i + 1)) h R)
    as (HR & _ & _).
  assert (Hj1 : mem j (R ++ absorbed T h i R (seq (i + 1) (length T - (i + 1)))) = false).
  { rewrite <- HR. destruct (negb _ && _); cbn [snd] in Hj; [|exact Hj].
    rewrite mem_app in Hj. now apply orb_false_iff in Hj. }
  rewrite mem_app in Hj1. apply orb_false_iff in Hj1. destruct Hj1 as [HjR HjJ].
  destruct (has_same_basis_element (h (nth i T 0)) (h (nth j T 0))) eqn:Eb; [|reflexivity].
  assert (In j (absorbed T h i R (seq (i + 1) (length T - (i + 1))))).
  { unfold absorbed. apply filter_In. split; [apply in_seq; lia|].
    now rewrite HjR, Eb. }
  apply mem_In in H. congruence.
Qed.

Lemma compress_loop_settled (h0 : @heap K) :
  forall (m i : nat), i + m = length T ->
  forall (h : @heap K) (R : list nat), same_shape h0 h -> settled T h0 i R ->
  settled T h0 (length T) (snd (fold_left (compress_outer T) (seq i m) (h, R))).
Proof.
  induction m as [|m IH]; intros i Hi h R Hs Hset; cbn [seq fold_left].
  - cbn. now replace (length T) with i by lia.
  - destruct (compress_outer_frame h R i) as (Hs1 & _ & Hm & _).
    pose proof (fun j => @compress_outer_absorbs h R i j) as Habs.
    destruct (compress_outer T (h, R) i) as [h1 R1] eqn:E1. cbn [fst snd] in *.
    apply (IH (S i) ltac:(lia) h1 R1).
    + eapply same_shape_trans; eauto.
    + intros k j Hk Hkj Hk1 Hj1.
      assert (HkR : mem k R = false).
      { destruct (mem k R) eqn:E; [|reflexivity]. rewrite (Hm k E) in Hk1. discriminate. }
      assert (HjR : mem j R = false).
      { destruct (mem j R) eqn:E; [|reflexivity]. rewrite (Hm j E) in Hj1. discriminate. }
      destruct (Nat.eq_dec k i) as [->|Hne].
      * rewrite <- (has_same_basis_element_heap _ _ Hs). apply Habs; auto.
      * apply Hset; auto. lia.
Qed.

(** The terms [compress] returns have distinct basis elements. *)
Lemma compress_basis_distinct (h : @heap K) :
  basis_distinct (fst (compress h T)) (kept T (snd (fold_left (compress_outer T)
                                                   (seq 0 (length T)) (h, [])))).
Proof.
  unfold basis_distinct. rewrite kept_alive. unfold alive.
  destruct (compress_frame h) as [Hs _].
  pose proof (@compress_loop_settled h (length T) 0 eq_refl h [] (same_shape_refl h)) as Hset.
  specialize (Hset ltac:(intros k j Hk; lia)).
  apply ForallOrdPairs_map_filter_seq. intros k j Hkj Hj Hk1 Hj1.
  rewrite (has_same_basis_element_heap _ _ Hs).
  apply Hset; try lia.
  - now apply negb_true_iff in Hk1.
  - now apply negb_true_iff in Hj1.
Qed.

(** *** What the loops write *)

Lemma with_coefficient_same (t : @TensorProductFunction K) :
  with_coefficient t (coefficient t) = t.
Proof. now destruct t. Qed.

(** The object of the term [i] after [compress], when no object is held
    twice: it is left as it was when the term was removed before its
    round, and otherwise it has the coefficients of the terms it absorbed
    in its round merged into its own. *)
Lemma compress_write_at (h : @heap K) (i : nat) :
  NoDup T -> i < length T ->
  let R := snd (fold_left (compress_outer T) (seq 0 i) (h, [])) in
  fst (compress h T) (nth i T 0)
  = if mem i R then h (nth i T 0)
    else with_coefficient (h (nth i T 0))
           (merge_coefficients (coefficient (h (nth i T 0)))
              (map (fun j => h (nth j T 0))
                   (absorbed T h i R (seq (S i) (length T - S i))))).
Proof.
  intros HT Hi. cbv zeta.
  assert (Hnth : forall a b, a < length T -> b < length T -> a <> b ->
                             nth a T 0 <> nth b T 0).
  { intros a b Ha Hb Hab E. apply Hab. eapply NoDup_nth; eauto. }
  rewrite compress_unfold. cbn [fst].
  replace (seq 0 (length T)) with (seq 0 i ++ i :: seq (S i) (length T - S i)).
  2:{ replace (length T) with (i + S (length T - S i)) at 2 by lia.
      rewrite seq_app. reflexivity. }
  rewrite fold_left_app. cbn [fold_left].
  destruct (compress_loop_frame (seq 0 i) h []) as (Hs0 & Hf0 & _).
  destruct (fold_left (compress_outer T) (seq 0 i) (h, [])) as [h0 R0].
  cbn [fst snd] in *.
  assert (Hh0 : forall j, i <= j < length T -> h0 (nth j T 0) = h (nth j T 0)).
  { intros j Hj. apply Hf0. intros k Hk. apply in_seq in Hk. apply Hnth; lia. }
  assert (Hlater : forall st,
            fst (fold_left (compress_outer T) (seq (S i) (length T - S i)) st)
                (nth i T 0)
            = fst st (nth i T 0)).
  { intros [h1 R1].
    destruct (compress_loop_frame (seq (S i) (length T - S i)) h1 R1) as (_ & Hf & _).
    cbn [fst]. apply Hf. intros k Hk. apply in_seq in Hk. apply Hnth; lia. }
  rewrite Hlater.
  destruct (mem i R0) eqn:Em.
  - rewrite compress_outer_skip by exact Em. cbn [fst]. apply Hh0. lia.
  - rewrite compress_outer_step by exact Em. cbv zeta.
    replace (i + 1) with (S i) by lia.
    set (js := seq (S i) (length T - S i)).
    assert (Hjs : NoDup js) by apply seq_NoDup.
    destruct (compress_inner_spec i Hjs h0 R0) as (_ & Hs & _).
    assert (Hc := compress_inner_coefficient i Hjs).
    specialize (Hc ltac:(intros j Hj; apply in_seq in Hj; apply Hnth; lia) h0 R0).
    destruct (fold_left (compress_inner T i) js (h0, R0)) as [h1 R1].
    cbn [fst snd] in *.
    assert (E1 : fst (if negb (is_nil R1) && eq_zero (coefficient (h1 (nth i T 0)))
                      then (h1, R1 ++ [i]) else (h1, R1)) = h1).
    { destruct (_ && _); reflexivity. }
    rewrite E1.
    rewrite (shape_with_coefficient (h0 (nth i T 0)) (h1 (nth i T 0))) by apply Hs.
    rewrite Hc, Hh0 by lia.
    rewrite (absorbed_ext i R0 R0 js Hs0) by reflexivity.
    f_equal. f_equal. apply map_ext_in. intros j Hj.
    apply absorbed_In, in_seq in Hj. apply Hh0. lia.
Qed.

(** What [compress] writes into an object is a merge: its coefficient
    with the coefficients of later terms with its basis element, none
    for a term that absorbs nothing. *)
Lemma compress_writes_merge (h : @heap K) (i : nat) :
  NoDup T -> i < length T ->
  exists js,
    (forall j, In j js ->
       i < j < length T /\
       has_same_basis_element (h (nth i T 0)) (h (nth j T 0)) = true) /\
    fst (compress h T) (nth i T 0)
    = with_coefficient (h (nth i T 0))
        (merge_coefficients (coefficient (h (nth i T 0)))
                            (map (fun j => h (nth j T 0)) js)).
Proof.
  intros HT Hi. rewrite (compress_write_at h HT Hi). cbv zeta.
  destruct (mem i _).
  - exists []. split; [intros j []|]. cbn. symmetry. apply with_coefficient_same.
  - eexists. split; [|reflexivity].
    intros j Hj. unfold absorbed in Hj. apply filter_In in Hj.
    destruct Hj as [Hj Hb]. apply in_seq in Hj. apply andb_true_iff in Hb.
    split; [lia | apply Hb].
Qed.

End CompressLoops.

Section CompressProperties.

Context {K : Type} {KS : Scalar K}.

Lemma has_same_basis_element_same_vectors (t u : @TensorProductFunction K) :
  vectors t = vectors u -> has_same_basis_element t u = true.
Proof.
  intros E. apply has_same_basis_element_spec. unfold basis. rewrite E.
  destruct (symmetric t); reflexivity.
Qed.

Lemma compress_groups_nonzero (l : list (@TensorProductFunction K)) :
  Forall (fun t => eq_zero (coefficient t) = false) (compress_groups l).
Proof.
  remember (length l) as n eqn:Hn. revert l Hn.
  induction n as [n IH] using lt_wf_ind. intros [|t rest] Hn; [constructor|].
  rewrite compress_groups_cons. cbv zeta.
  pose proof (filter_length_le (fun u => negb (has_same_basis_element t u)) rest) as Hle.
  simpl in Hn.
  destruct (eq_zero (merge_coefficients _ _)) eqn:Ez.
  - eapply IH; [|reflexivity]. lia.
  - constructor; [exact Ez|]. eapply IH; [|reflexivity]. lia.
Qed.

(** With no zero coefficient among the terms, the loops drop a term
    exactly when its coefficient is zero. *)
Lemma compress_terms_groups (l : list (@TensorProductFunction K)) :
  Forall (fun t => eq_zero (coefficient t) = false) l ->
  forall merged, compress_terms merged l = compress_groups l.
Proof.
  remember (length l) as n eqn:Hn. revert l Hn.
  induction n as [n IH] using lt_wf_ind. intros [|t rest] Hn Hnz merged; [reflexivity|].
  rewrite compress_terms_cons, compress_groups_cons. cbv zeta.
  pose proof (filter_length_le (fun u => negb (has_same_basis_element t u)) rest) as Hle.
  simpl in Hn. inversion Hnz as [|? ? Ht Hrest]; subst.
  assert (Hothers : Forall (fun t => eq_zero (coefficient t) = false)
                           (filter (fun u => negb (has_same_basis_element t u)) rest)).
  { apply Forall_forall. intros u Hu. apply filter_In in Hu.
    rewrite Forall_forall in Hrest. now apply Hrest. }
  assert (Htest : (merged || negb (is_nil (filter (has_same_basis_element t) rest)))
                  && eq_zero (merge_coefficients (coefficient t)
                                (filter (has_same_basis_element t) rest))
                  = eq_zero (merge_coefficients (coefficient t)
                               (filter (has_same_basis_element t) rest))).
  { destruct (filter (has_same_basis_element t) rest) as [|u g].
    - cbn. rewrite Ht. apply andb_false_r.
    - cbn. now rewrite orb_true_r. }
  rewrite Htest.
  destruct (eq_zero (merge_coefficients _ _));
    [|f_equal]; (eapply IH; [|reflexivity|exact Hothers]; lia).
Qed.

(** For a tensor that holds no object twice and no term with a
    coefficient that is [== 0], the guard [if removed_elements:] makes
    no difference: the terms returned are those of [compress_groups],
    none of them has a coefficient that is [== 0], and the number 0 is
    returned when no term is left. *)
Lemma compress_merges_general (h : @heap K) (T : list addr) :
  NoDup T ->
  (forall a, In a T -> eq_zero (coefficient (h a)) = false) ->
  terms_of (fst (compress h T)) (snd (compress h T)) = compress_groups (map h T) /\
  (compress_groups (map h T) = [] <-> snd (compress h T) = Num (of_int 0)) /\
  Forall (fun t => eq_zero (coefficient t) = false)
         (terms_of (fst (compress h T)) (snd (compress h T))).
Proof.
  intros HT Hnz.
  assert (E : terms_of (fst (compress h T)) (snd (compress h T))
              = compress_groups (map h T)).
  { rewrite compress_terms_correct by exact HT. apply compress_terms_groups.
    apply Forall_forall. intros t Ht. apply in_map_iff in Ht.
    destruct Ht as (a & <- & Ha). now apply Hnz. }
  split; [exact E|]. split.
  - rewrite <- E. destruct (compress_returns T h) as [[H0 _]|(a & l & Hal)].
    + rewrite H0. split; reflexivity.
    + rewrite Hal. cbn. split; discriminate.
  - rewrite E. apply compress_groups_nonzero.
Qed.

(** Two terms with the same vectors whose coefficients sum to zero are
    compressed to the number 0. *)
Lemma compress_cancels (h : @heap K) (a b : addr) :
  a <> b -> vectors (h a) = vectors (h b) ->
  eq_zero (simplify (sadd (coefficient (h a)) (coefficient (h b)))) = true ->
  snd (compress h [a; b]) = Num (of_int 0).
Proof.
  intros Hab Hv Hz.
  assert (HT : NoDup [a; b]).
  { constructor; [intros [E|[]]; congruence|]. constructor; [intros []|constructor]. }
  pose proof (compress_terms_correct h HT) as E.
  cbn [map] in E. rewrite compress_terms_cons in E. cbv zeta in E.
  cbn [filter] in E. rewrite (has_same_basis_element_same_vectors _ _ Hv) in E.
  cbn in E. rewrite Hz in E. cbn in E.
  destruct (compress_returns [a; b] h) as [[H0 _]|(x & l & Hal)]; [exact H0|].
  rewrite Hal in E. discriminate E.
Qed.

(** When no object is held twice, the terms [compress] returns are
    those of [compress_terms], and the number 0 is returned exactly when
    there are none. *)
Lemma compress_terms_result (h : @heap K) (T : list addr) :
  NoDup T ->
  terms_of (fst (compress h T)) (snd (compress h T)) = compress_terms false (map h T) /\
  (compress_terms false (map h T) = [] <-> snd (compress h T) = Num (of_int 0)).
Proof.
  intros HT. pose proof (compress_terms_correct h HT) as E. split; [exact E|].
  rewrite <- E. destruct (compress_returns T h) as [[H0 _]|(a & l & Hal)].
  - rewrite H0. split; reflexivity.
  - rewrite Hal. cbn. split; discriminate.
Qed.

Lemma read_tail (h : @heap K) (a : addr) (rest : list addr) :
  read (a :: rest) h (seq 1 (length rest)) = map h rest.
Proof.
  rewrite <- (read_seq rest h). unfold read.
  rewrite <- seq_shift, map_map. reflexivity.
Qed.

(** The object of the first term after [compress]: its coefficient is
    merged with the coefficient of every later term with its basis
    element, also when the term itself is removed afterwards. *)
Lemma compress_first_term (h : @heap K) (a : addr) (rest : list addr) :
  NoDup (a :: rest) ->
  fst (compress h (a :: rest)) a
  = with_coefficient (h a)
      (merge_coefficients (coefficient (h a))
         (filter (has_same_basis_element (h a)) (map h rest))).
Proof.
  intros HT.
  assert (Hi : 0 < length (a :: rest)) by (cbn; lia).
  pose proof (compress_write_at h HT Hi) as H. cbv zeta in H.
  cbn [seq fold_left snd mem existsb] in H.
  change (nth 0 (a :: rest) 0) with a in H.
  replace (length (a :: rest) - 1) with (length rest) in H by (cbn; lia).
  rewrite H. f_equal. f_equal.
  transitivity (read (a :: rest) h
                  (absorbed (a :: rest) h 0 [] (seq 1 (length rest))));
    [reflexivity|].
  rewrite absorbed_alive.
  change (fun k => has_same_basis_element (h (nth 0 (a :: rest) 0))
                                          (h (nth k (a :: rest) 0)))
    with (fun k => has_same_basis_element (h a) (h (nth k (a :: rest) 0))).
  rewrite <- (filter_read (a :: rest) (has_same_basis_element (h a)) h).
  f_equal. rewrite <- (read_tail h a rest). f_equal.
  clear. generalize (seq 1 (length rest)). intros l. unfold alive.
  induction l as [|k l IH]; [reflexivity|].
  cbn [filter]. change (mem k []) with false. cbn [negb]. now rewrite IH.
Qed.

(** C8 as the code has it.  [compress] writes into the objects of the
    terms.  When [T1] holds no object twice: what is written into an
    object is its own coefficient merged, with [simplify] at every merge,
    with the coefficients of later terms of [T1] that have its basis
    element, none for a term that absorbs nothing; the first term is
    merged with every later term that has its basis element; and the
    objects of the terms [compress] returns hold the terms of
    [compress_terms].  Compressing [T1] leaves the vectors and the flag
    of every term of [T2], and leaves every term of [T2] that is no term
    of [T1].  The coefficient of a term the two tensors share is not
    protected. *)
Theorem compress_frame_terms (h : @heap K) (T1 T2 : list addr) :
  let h' := fst (compress h T1) in
  map (fun a => vectors (h' a)) T2 = map (fun a => vectors (h a)) T2 /\
  map (fun a => symmetric (h' a)) T2 = map (fun a => symmetric (h a)) T2 /\
  (forall a, In a T2 -> ~ In a T1 -> h' a = h a) /\
  (NoDup T1 ->
   (forall i, i < length T1 ->
      exists js,
        (forall j, In j js ->
           i < j < length T1 /\
           has_same_basis_element (h (nth i T1 0)) (h (nth j T1 0)) = true) /\
        h' (nth i T1 0)
        = mkTensorProduct
            (vectors (h (nth i T1 0)))
            (fold_left (fun c u => simplify (sadd c (coefficient u)))
                       (map (fun j => h (nth j T1 0)) js)
                       (coefficient (h (nth i T1 0))))
            (symmetric (h (nth i T1 0)))) /\
   (forall a rest, T1 = a :: rest ->
      h' a = mkTensorProduct
               (vectors (h a))
               (fold_left (fun c u => simplify (sadd c (coefficient u)))
                          (filter (has_same_basis_element (h a)) (map h rest))
                          (coefficient (h a)))
               (symmetric (h a))) /\
   terms_of h' (snd (compress h T1)) = compress_terms false (map h T1)).
Proof.
  cbv zeta. destruct (compress_frame T1 h) as [Hs Hf].
  split; [|split; [|split]].
  - apply map_ext. intros a. apply Hs.
  - apply map_ext. intros a. apply Hs.
  - intros a _ Ha. now apply Hf.
  - intros HT. split; [|split].
    + intros i Hi. exact (compress_writes_merge h HT Hi).
    + intros a rest E. subst T1. exact (compress_first_term h HT).
    + exact (compress_terms_correct h HT).
Qed.

(** A second compression returns the same tensor and leaves the heap. *)
Lemma compress_idempotent (h h' : @heap K) (T T' : list addr) :
  compress h T = (h', Tens T') -> compress h' T' = (h', Tens T').
Proof.
  intros E. pose proof (compress_basis_distinct T h) as Hd.
  pose proof (compress_unfold T h) as U. cbv zeta in U.
  rewrite E in Hd, U. cbn [fst] in Hd. injection U as _ Ek.
  destruct (kept T _) as [|a l]; [discriminate|].
  injection Ek as ->. apply compress_distinct; [exact Hd | discriminate].
Qed.

End CompressProperties.

(* ===================================================================== *)
(** ** The order of the terms *)
(* ===================================================================== *)

#[export] Instance QSumLaws : SumLaws Qeq.
Proof.
  split.
  - apply Q_Setoid.
  - intros x x' Hx y y' Hy. change (Qeq (Qred (Qplus x y)) (Qred (Qplus x' y'))).
    rewrite !Qred_correct. now rewrite Hx, Hy.
  - intros x y. change (Qeq (Qred (Qplus x y)) (Qred (Qplus y x))).
    rewrite !Qred_correct. apply Qplus_comm.
  - intros x y z.
    change (Qeq (Qred (Qplus (Qred (Qplus x y)) z)) (Qred (Qplus x (Qred (Qplus y z))))).
    rewrite !Qred_correct. symmetry. apply Qplus_assoc.
  - intros x. change (Qeq (Qred (Qplus x (inject_Z 0))) x).
    rewrite Qred_correct. apply Qplus_0_r.
  - intros x. apply Qred_correct.
Qed.

#[export] Instance QScalarLaws : ScalarLaws Qeq.
Proof.
  split; [exact QSumLaws|].
  intros x y Hxy. change (Qeq_bool x (inject_Z 0) = Qeq_bool y (inject_Z 0)).
  destruct (Qeq_bool x (inject_Z 0)) eqn:Ex, (Qeq_bool y (inject_Z 0)) eqn:Ey;
    try reflexivity.
  - apply Qeq_bool_iff in Ex. rewrite Hxy in Ex. apply Qeq_bool_iff in Ex. congruence.
  - apply Qeq_bool_iff in Ey. rewrite <- Hxy in Ey. apply Qeq_bool_iff in Ey. congruence.
Qed.

Section SumsOfTerms.

Context {K : Type} {KS : Scalar K} {equ : K -> K -> Prop} {SL : SumLaws equ}.

(** *** [has_same_basis_element] between terms of one flag *)

Lemma has_same_basis_element_refl (t : @TensorProductFunction K) :
  has_same_basis_element t t = true.
Proof. now apply has_same_basis_element_same_vectors. Qed.

Lemma has_same_basis_element_sym (t u : @TensorProductFunction K) :
  symmetric t = symmetric u ->
  has_same_basis_element t u = has_same_basis_element u t.
Proof.
  intros E. apply eq_iff_eq_true. rewrite !has_same_basis_element_spec, E.
  destruct (symmetric u); split; intros H; now symmetry.
Qed.

Lemma has_same_basis_element_trans_l (t u v : @TensorProductFunction K) :
  symmetric t = symmetric u -> has_same_basis_element t u = true ->
  has_same_basis_element t v = has_same_basis_element u v.
Proof.
  intros E H. apply eq_iff_eq_true.
  rewrite has_same_basis_element_spec in H. rewrite !has_same_basis_element_spec.
  rewrite E in *. destruct (symmetric u).
  - split; intros H'; [now rewrite <- H | now rewrite H].
  - split; intros H'; congruence.
Qed.

Lemma has_same_basis_element_trans_r (t u v : @TensorProductFunction K) :
  symmetric t = symmetric u -> symmetric u = symmetric v ->
  has_same_basis_element u v = true ->
  has_same_basis_element t u = has_same_basis_element t v.
Proof.
  intros E1 E2 H.
  rewrite (has_same_basis_element_sym t u E1).
  rewrite (has_same_basis_element_sym t v) by congruence.
  rewrite (has_same_basis_element_trans_l u v t E2 H). reflexivity.
Qed.

#[local] Instance term_equ_equivalence : Equivalence (term_equ equ).
Proof.
  split.
  - intros x. split; [reflexivity|]. split; [apply has_same_basis_element_refl | reflexivity].
  - intros x y (E & H & C). split; [now symmetry|]. split; [|now symmetry].
    now rewrite <- (has_same_basis_element_sym x y E).
  - intros x y z (E1 & H1 & C1) (E2 & H2 & C2).
    split; [congruence|]. split; [|now rewrite C1].
    now rewrite (has_same_basis_element_trans_l x y z E1 H1).
Qed.

(** *** Sums of coefficients *)

Lemma merge_total (g : list (@TensorProductFunction K)) :
  forall c, equ (merge_coefficients c g) (sadd c (total g)).
Proof.
  induction g as [|u g IH]; intros c; cbn.
  - symmetry. apply sadd_0_r.
  - unfold merge_coefficients in IH. rewrite IH.
    rewrite simplify_equ. apply sadd_assoc.
Qed.

Lemma total_Permutation (l l' : list (@TensorProductFunction K)) :
  Permutation l l' -> equ (total l) (total l').
Proof.
  induction 1 as [|x l l' _ IH|x y l|l l' l'' _ IH1 _ IH2]; cbn.
  - reflexivity.
  - now rewrite IH.
  - rewrite <- !sadd_assoc. now rewrite (sadd_comm (coefficient y)).
  - now rewrite IH1.
Qed.

Lemma Permutation_filter' {A : Type} (f : A -> bool) (l l' : list A) :
  Permutation l l' -> Permutation (filter f l) (filter f l').
Proof.
  induction 1 as [|x l l' _ IH|x y l|l l' l'' _ IH1 _ IH2]; cbn.
  - constructor.
  - destruct (f x); [now constructor | exact IH].
  - destruct (f x), (f y); try reflexivity. apply perm_swap.
  - now transitivity (filter f l').
Qed.

Lemma class_total_Permutation (t : @TensorProductFunction K)
      (l l' : list TensorProductFunction) :
  Permutation l l' -> equ (class_total t l) (class_total t l').
Proof. intros H. apply total_Permutation. now apply Permutation_filter'. Qed.

Lemma filter_filter_terms (f g : @TensorProductFunction K -> bool)
      (l : list TensorProductFunction) :
  filter f (filter g l) = filter (fun u => g u && f u) l.
Proof.
  induction l as [|u l IH]; simpl; [reflexivity|].
  destruct (g u); simpl; [destruct (f u); now rewrite IH | exact IH].
Qed.

(** The terms with the basis element of [u] are not touched when the
    terms with another basis element leave. *)
Lemma class_of_others (b : bool) (t u : @TensorProductFunction K)
      (rest : list TensorProductFunction) :
  symmetric t = b -> symmetric u = b -> uniform b rest ->
  has_same_basis_element t u = false ->
  filter (has_same_basis_element u)
         (filter (fun v => negb (has_same_basis_element t v)) rest)
  = filter (has_same_basis_element u) (t :: rest).
Proof.
  intros Et Eu Hrest Htu. cbn [filter].
  rewrite <- (has_same_basis_element_sym t u) by congruence. rewrite Htu.
  rewrite filter_filter_terms. apply filter_ext_in. intros v Hv.
  unfold uniform in Hrest. rewrite Forall_forall in Hrest. specialize (Hrest v Hv).
  destruct (has_same_basis_element u v) eqn:Euv; [|apply andb_false_r].
  rewrite <- (has_same_basis_element_trans_r t u v) by congruence.
  now rewrite Htu.
Qed.

(** *** Induction along [compress_groups] *)

Lemma compress_groups_ind
      (P : list (@TensorProductFunction K) -> list (@TensorProductFunction K) -> Prop) :
  P [] [] ->
  (forall t rest,
     let group := filter (has_same_basis_element t) rest in
     let others := filter (fun u => negb (has_same_basis_element t u)) rest in
     let c := merge_coefficients (coefficient t) group in
     P others (compress_groups others) ->
     P (t :: rest) (if eq_zero c then compress_groups others
                    else with_coefficient t c :: compress_groups others)) ->
  forall l, P l (compress_groups l).
Proof.
  intros Hnil Hcons l. remember (length l) as n eqn:Hn. revert l Hn.
  induction n as [n IH] using lt_wf_ind. intros [|t rest] Hn; [exact Hnil|].
  rewrite compress_groups_cons. apply Hcons.
  pose proof (filter_length_le (fun u => negb (has_same_basis_element t u)) rest).
  eapply IH; [|reflexivity]. simpl in Hn. lia.
Qed.

Lemma uniform_filter (b : bool) (f : @TensorProductFunction K -> bool)
      (l : list TensorProductFunction) :
  uniform b l -> uniform b (filter f l).
Proof.
  unfold uniform. rewrite !Forall_forall. intros H u Hu.
  apply filter_In in Hu. now apply H.
Qed.

Lemma leader_total (t : @TensorProductFunction K) (rest : list TensorProductFunction) :
  equ (merge_coefficients (coefficient t) (filter (has_same_basis_element t) rest))
      (class_total t (t :: rest)).
Proof.
  rewrite merge_total. unfold class_total. cbn [filter].
  rewrite has_same_basis_element_refl. reflexivity.
Qed.

(** Every term [compress_groups] returns is a term of the list with the
    sum of the coefficients of its basis element. *)
Lemma compress_groups_sound (b : bool) (l : list (@TensorProductFunction K)) :
  uniform b l ->
  forall o, In o (compress_groups l) ->
  exists u, In u l /\ vectors o = vectors u /\ symmetric o = symmetric u /\
            equ (coefficient o) (class_total u l).
Proof.
  pattern l, (compress_groups l). apply compress_groups_ind; clear l.
  - intros _ o [].
  - intros t rest group others c IH Hu o Ho.
    inversion Hu as [|? ? Et Hrest]; subst.
    assert (Hin_others : In o (compress_groups others) ->
              exists u, In u (t :: rest) /\ vectors o = vectors u /\
                        symmetric o = symmetric u /\
                        equ (coefficient o) (class_total u (t :: rest))).
    { intros Ho'. destruct (IH (uniform_filter _ Hrest) o Ho') as (u & Hu' & Hv & Hs & Hc).
      apply filter_In in Hu'. destruct Hu' as [Hur Htu]. apply negb_true_iff in Htu.
      exists u. split; [now right|]. split; [exact Hv|]. split; [exact Hs|].
      rewrite Hc. unfold class_total, others.
      rewrite (@class_of_others (symmetric t) t u rest); auto; try reflexivity.
      unfold uniform in Hrest. rewrite Forall_forall in Hrest. now apply Hrest. }
    destruct (eq_zero c); [now apply Hin_others|].
    destruct Ho as [<-|Ho]; [|now apply Hin_others].
    exists t. split; [now left|]. split; [reflexivity|]. split; [reflexivity|].
    apply leader_total.
Qed.

(** Every term of the list has a term with its basis element and the
    sum of the coefficients of its basis element in what
    [compress_groups] returns, unless the coefficient merged for its
    basis element, a scalar equal to that sum, was [== 0]. *)
Lemma compress_groups_represented (b : bool) (l : list (@TensorProductFunction K)) :
  uniform b l ->
  forall u, In u l ->
  (exists o, In o (compress_groups l) /\ symmetric o = symmetric u /\
             has_same_basis_element u o = true /\
             equ (coefficient o) (class_total u l)) \/
  (exists c, equ c (class_total u l) /\ eq_zero c = true).
Proof.
  pattern l, (compress_groups l). apply compress_groups_ind; clear l.
  - intros _ u [].
  - intros t rest group others c IH Hu u Hin.
    inversion Hu as [|? ? Et Hrest]; subst.
    assert (Eu : symmetric u = symmetric t).
    { destruct Hin as [<-|Hin]; [reflexivity|].
      unfold uniform in Hrest. rewrite Forall_forall in Hrest. now apply Hrest. }
    destruct (has_same_basis_element t u) eqn:Etu.
    + (* [u] is merged into [t] *)
      assert (Hclass : class_total u (t :: rest) = class_total t (t :: rest)).
      { unfold class_total. f_equal. apply filter_ext. intros v. symmetry.
        apply has_same_basis_element_trans_l; [now symmetry | exact Etu]. }
      assert (Hc : equ c (class_total u (t :: rest))).
      { rewrite Hclass. apply leader_total. }
      destruct (eq_zero c) eqn:Ez; [right; now exists c|].
      left. exists (with_coefficient t c). split; [now left|]. split; [now symmetry|].
      split; [|exact Hc].
      rewrite (has_same_basis_element_sym u (with_coefficient t c)) by exact Eu.
      exact Etu.
    + (* [u] is among the others *)
      assert (Hur : In u rest).
      { destruct Hin as [<-|Hin]; [|exact Hin].
        rewrite has_same_basis_element_refl in Etu. discriminate. }
      assert (Hclass : class_total u others = class_total u (t :: rest)).
      { unfold class_total, others.
        rewrite (@class_of_others (symmetric t) t u rest); auto. }
      destruct (IH (uniform_filter _ Hrest) u) as [(o & Ho & Hs & Hb & Hc)|(c' & Hc' & Hz)].
      * unfold others. apply filter_In. split; [exact Hur | now rewrite Etu].
      * left. exists o. split; [|split; [exact Hs|split; [exact Hb|now rewrite <- Hclass]]].
        destruct (eq_zero c); [exact Ho | now right].
      * right. exists c'. split; [now rewrite <- Hclass | exact Hz].
Qed.

End SumsOfTerms.

Section OrderOfTerms.

Context {K : Type} {KS : Scalar K} {equ : K -> K -> Prop} {KL : ScalarLaws equ}.

#[local] Existing Instance term_equ_equivalence.

(** Every basis element of the list whose coefficients do not sum to
    zero has a term in what [compress_groups] returns. *)
Lemma compress_groups_complete (b : bool) (l : list (@TensorProductFunction K)) :
  uniform b l ->
  forall u, In u l -> eq_zero (class_total u l) = false ->
  exists o, In o (compress_groups l) /\ symmetric o = symmetric u /\
            has_same_basis_element u o = true /\
            equ (coefficient o) (class_total u l).
Proof.
  intros Hu u Hin Hz.
  destruct (compress_groups_represented Hu u Hin) as [H|(c & Hc & Hc0)]; [exact H|].
  rewrite (eq_zero_proper _ _ Hc) in Hc0. congruence.
Qed.

(** No term [compress_groups] returns has the basis element of a later one. *)
Lemma compress_groups_distinct (b : bool) (l : list (@TensorProductFunction K)) :
  uniform b l ->
  ForallOrdPairs (fun x y => has_same_basis_element x y = false) (compress_groups l).
Proof.
  intros Hu. generalize (compress_groups_sound Hu). revert Hu.
  pattern l, (compress_groups l). apply compress_groups_ind; clear l.
  - constructor.
  - intros t rest group others c IH Hu Hsound.
    inversion Hu as [|? ? Et Hrest]; subst.
    pose proof (compress_groups_sound (uniform_filter
                  (fun u => negb (has_same_basis_element t u)) Hrest)) as Hs'.
    specialize (IH (uniform_filter _ Hrest) Hs'). fold others in Hs'.
    destruct (eq_zero c); [exact IH|].
    constructor; [|exact IH].
    apply Forall_forall. intros o Ho.
    destruct (Hs' o Ho) as (u & Hu' & Hv & Hsy & _).
    apply filter_In in Hu'. destruct Hu' as [_ Htu]. apply negb_true_iff in Htu.
    rewrite <- Htu. apply has_same_basis_element_shape; auto.
Qed.

Lemma compress_groups_InA (b : bool) (l l' : list (@TensorProductFunction K)) :
  uniform b l -> Permutation l l' ->
  forall x, InA (term_equ equ) x (compress_groups l) -> InA (term_equ equ) x (compress_groups l').
Proof.
  intros Hu Hp x Hx. apply InA_alt in Hx. destruct Hx as (o & Hxo & Ho).
  assert (Hu' : uniform b l').
  { unfold uniform in *. rewrite Forall_forall in *. intros t Ht.
    apply Hu. eapply Permutation_in; [symmetry; exact Hp | exact Ht]. }
  destruct (compress_groups_sound Hu o Ho) as (u & Hul & Hv & Hs & Hc).
  pose proof (compress_groups_nonzero l) as Hnz. rewrite Forall_forall in Hnz.
  specialize (Hnz o Ho).
  assert (Hc' : equ (coefficient o) (class_total u l')).
  { rewrite Hc. now apply class_total_Permutation. }
  destruct (compress_groups_complete Hu' u) as (o' & Ho' & Hs' & Hb' & Hco').
  - eapply Permutation_in; eauto.
  - now rewrite <- (eq_zero_proper _ _ Hc').
  - apply InA_alt. exists o'. split; [|exact Ho'].
    transitivity o; [exact Hxo|].
    split; [congruence|]. split; [|now rewrite Hc', Hco'].
    rewrite <- Hb'. apply has_same_basis_element_shape; auto.
Qed.

Lemma compress_groups_NoDupA (b : bool) (l : list (@TensorProductFunction K)) :
  uniform b l -> NoDupA (term_equ equ) (compress_groups l).
Proof.
  intros Hu. pose proof (compress_groups_distinct Hu) as Hd.
  induction Hd as [|x O Hx HO IH]; constructor; [|exact IH].
  intros Hin. apply InA_alt in Hin. destruct Hin as (y & (_ & Hb & _) & Hy).
  rewrite Forall_forall in Hx. rewrite (Hx y Hy) in Hb. discriminate.
Qed.

(** The terms [compress_groups] returns for two orders of the same terms
    are the same up to their order, the representatives and [equ]. *)
Lemma compress_groups_Permutation (b : bool) (l l' : list (@TensorProductFunction K)) :
  uniform b l -> Permutation l l' ->
  PermutationA (term_equ equ) (compress_groups l) (compress_groups l').
Proof.
  intros Hu Hp.
  assert (Hu' : uniform b l').
  { unfold uniform in *. rewrite Forall_forall in *. intros t Ht.
    apply Hu. eapply Permutation_in; [symmetry; exact Hp | exact Ht]. }
  apply NoDupA_equivlistA_PermutationA.
  - apply term_equ_equivalence.
  - now apply compress_groups_NoDupA with b.
  - now apply compress_groups_NoDupA with b.
  - intros x. split; eapply compress_groups_InA; eauto. now symmetry.
Qed.

End OrderOfTerms.

(* ===================================================================== *)
(** ** Compression: the statements *)
(* ===================================================================== *)

(** C1 as the code has it.  For a tensor that holds no tensor product
    object twice, [compress] returns the terms of [compress_terms], which
    goes through the terms in their order.  A term absorbs every later
    term that is left and for which [has_same_basis_element], called on
    the term with the later one, is true: the later term is removed and
    its coefficient is added to the coefficient of the term, the sum
    simplified at every merge.  After that the term is removed itself
    when some term was removed so far, by it or in an earlier round, and
    its coefficient is [== 0].  The coefficient is tested as it stands:
    the coefficient of a term that absorbed nothing is not simplified,
    and it is not tested as long as no term was removed.  The terms left
    are returned in their order, and the number 0 exactly when none is
    left.  When no term of the tensor has a coefficient that is [== 0],
    no term returned has one.  And the tensor of
    [TensorProduct(v,w, coefficient=2)] and
    [TensorProduct(v,w, coefficient=-2)] is compressed to 0. *)
Theorem compress_merges :
  (forall (K : Type) (KS : Scalar K) (h : @heap K) (T : list addr),
     NoDup T ->
     terms_of (fst (compress h T)) (snd (compress h T))
     = compress_terms false (map h T) /\
     (compress_terms false (map h T) = [] <-> snd (compress h T) = Num (of_int 0)) /\
     ((forall a, In a T -> eq_zero (coefficient (h a)) = false) ->
      Forall (fun t => eq_zero (coefficient t) = false)
             (terms_of (fst (compress h T)) (snd (compress h T))))) /\
  (forall (K : Type) (KS : Scalar K) (merged : bool)
          (t : @TensorProductFunction K) (rest : list (@TensorProductFunction K)),
     compress_terms merged [] = [] /\
     compress_terms merged (t :: rest)
     = let group := filter (has_same_basis_element t) rest in
       let others := filter (fun u => negb (has_same_basis_element t u)) rest in
       let c := fold_left (fun c u => simplify (sadd c (coefficient u)))
                          group (coefficient t) in
       let merged' := merged || negb (is_nil group) in
       if merged' && eq_zero c then compress_terms merged' others
       else mkTensorProduct (vectors t) c (symmetric t)
              :: compress_terms merged' others) /\
  (forall (v w : @Vector Q) (h : @heap Q) (a b : addr),
     a <> b ->
     h a = TensorProduct [v; w] (Some (inject_Z 2)) None ->
     h b = TensorProduct [v; w] (Some (inject_Z (-2))) None ->
     snd (compress h [a; b]) = Num (inject_Z 0)).
Proof.
  split; [|split].
  - intros K KS h T HT. destruct (compress_terms_result h HT) as [E H0].
    split; [exact E|]. split; [exact H0|].
    intros Hnz. now destruct (compress_merges_general h HT Hnz) as (_ & _ & H).
  - intros K KS merged t rest. split; [reflexivity|].
    rewrite compress_terms_cons. reflexivity.
  - intros v w h a b Hab Ha Hb.
    apply (@compress_cancels Q QScalar h a b); [exact Hab| |].
    + rewrite Ha, Hb. reflexivity.
    + rewrite Ha, Hb. reflexivity.
Qed.

(** C1, at an instance: the terms [2 e1*e2], [3 e1*e1], [4 e1*e2] become
    [6 e1*e2], [3 e1*e1], and [2 e1*e2 - 2 e1*e2] becomes 0. *)
Lemma compress_merges_witness :
  terms_of (fst (compress h_terms [0; 2; 3])) (snd (compress h_terms [0; 2; 3]))
  = [TensorProduct [e1; e2] (Some (inject_Z 6)) None;
     TensorProduct [e1; e1] (Some (inject_Z 3)) None] /\
  snd (compress h_terms [0; 1]) = Num (inject_Z 0).
Proof.
  destruct compress_merges as (Hgen & _ & Hex). split.
  - destruct (Hgen Q QScalar h_terms [0; 2; 3]) as (E & _).
    + repeat constructor; simpl; intuition discriminate.
    + rewrite E. reflexivity.
  - apply (Hex e1 e2 h_terms 0 1); [discriminate | reflexivity | reflexivity].
Defined.

(** C1, counterexample.  A tensor of one term with the coefficient 0,
    which is zero simplified too: no term was removed before the test of
    the coefficient, which is then not made, and the term stays. *)
Lemma compress_keeps_zero_term :
  snd (compress h_terms [4]) = Tens [4] /\
  eq_zero (coefficient (fst (compress h_terms [4]) 4)) = true /\
  eq_zero (simplify (coefficient (fst (compress h_terms [4]) 4))) = true.
Proof. repeat split. Qed.

(** The same object three times, as [t + t + t] builds it: the second
    merge reads the coefficient the first merge wrote, and the coefficient
    3 becomes 12 where the sum of the three terms is 9. *)
Lemma compress_same_object_thrice :
  snd (compress h_terms [2; 2; 2]) = Tens [2] /\
  coefficient (fst (compress h_terms [2; 2; 2]) 2) = inject_Z 12 /\
  map coefficient (compress_terms false (map h_terms [2; 2; 2])) = [inject_Z 9].
Proof. repeat split. Qed.

(** C8, counterexample.  The tensors [0; 3] and [0] share the object 0:
    after the first is compressed the only term of the second has the
    coefficient 6 instead of 2. *)
Lemma compress_alters_shared_term :
  coefficient (h_terms 0) = inject_Z 2 /\
  coefficient (fst (compress h_terms [0; 3]) 0) = inject_Z 6 /\
  map (fst (compress h_terms [0; 3])) [0] <> map h_terms [0].
Proof.
  split; [reflexivity|]. split; [reflexivity|].
  intros E. apply (f_equal (map coefficient)) in E. vm_compute in E. discriminate E.
Qed.

(** C8, at an instance: compressing [0; 3] leaves the term 2 of the
    tensor [0; 2], and writes the coefficient 6 into the term 0 that the
    two tensors share. *)
Lemma compress_frame_terms_witness :
  fst (compress h_terms [0; 3]) 2 = h_terms 2 /\
  fst (compress h_terms [0; 3]) 0 = TensorProduct [e1; e2] (Some (inject_Z 6)) None.
Proof.
  destruct (compress_frame_terms h_terms [0; 3] [0; 2]) as (_ & _ & H & Hw).
  split.
  - apply H; simpl; intuition discriminate.
  - destruct Hw as (_ & Hfirst & _).
    + repeat constructor; simpl; intuition discriminate.
    + rewrite (Hfirst 0 [3] eq_refl). reflexivity.
Defined.




(** Why the statement on the order asks for terms without a zero
    coefficient and for objects held once.  The term 4 has the coefficient
    0 and stays only when it comes before the first merge.  The object 0
    held twice is merged with what was written into it, and the result
    depends on what came before. *)
Lemma compress_order_other_cases :
  snd (compress h_terms [4; 0; 3]) = Tens [4; 0] /\
  snd (compress h_terms [0; 3; 4]) = Tens [0] /\
  coefficient (fst (compress h_terms [0; 3; 0]) 0) = inject_Z 12 /\
  coefficient (fst (compress h_terms [3; 0; 0]) 3) = inject_Z 8.
Proof. repeat split. Qed.

(* ===================================================================== *)
(** ** The symmetric contraction, were [factorial] bound *)
(* ===================================================================== *)

Section PermutationsProperties.

Context {A : Type}.

Lemma selections_Permutation (l : list A) (x : A) (r : list A) :
  In (x, r) (selections l) -> Permutation (x :: r) l.
Proof.
  revert x r. induction l as [|a l IH]; intros x r; cbn [selections]; [intros []|].
  intros [E|Hin].
  - injection E as -> ->. reflexivity.
  - apply in_map_iff in Hin. destruct Hin as ([y r'] & E & Hin).
    cbn [fst snd] in E. injection E as <- <-.
    rewrite perm_swap. constructor. now apply IH.
Qed.

Lemma selections_In (l : list A) (x : A) :
  In x l -> exists r, In (x, r) (selections l).
Proof.
  induction l as [|a l IH]; cbn [selections]; [intros []|].
  intros [->|Hin].
  - exists l. now left.
  - destruct (IH Hin) as (r & Hr). exists (a :: r). right.
    apply in_map_iff. exists (x, r). split; [reflexivity | exact Hr].
Qed.

Lemma selections_length (l : list A) : length (selections l) = length l.
Proof.
  induction l as [|a l IH]; cbn [selections length]; [reflexivity|].
  now rewrite length_map, IH.
Qed.

(** [permutations] lists the permutations of the list, all of them. *)
Lemma permutations_fuel_In (n : nat) :
  forall (l p : list A), length l = n ->
  (In p (permutations_fuel n l) <-> Permutation p l).
Proof.
  induction n as [|n IH]; intros l p Hl; cbn [permutations_fuel].
  - destruct l; [|discriminate]. split.
    + intros [<-|[]]. constructor.
    + intros H. symmetry in H. apply Permutation_nil in H. now left.
  - rewrite in_flat_map. split.
    + intros ([x r] & Hsel & Hp). cbn [fst snd] in Hp.
      apply in_map_iff in Hp. destruct Hp as (p' & <- & Hp').
      pose proof (selections_Permutation _ _ _ Hsel) as Hperm.
      rewrite <- Hperm. constructor. apply IH; [|exact Hp'].
      apply Permutation_length in Hperm. cbn in Hperm. lia.
    + intros Hperm. destruct p as [|x p'].
      { apply Permutation_length in Hperm. cbn in Hperm. lia. }
      assert (Hx : In x l) by (eapply Permutation_in; [exact Hperm | now left]).
      destruct (selections_In _ _ Hx) as (r & Hr).
      exists (x, r). split; [exact Hr|]. cbn [fst snd].
      apply in_map. pose proof (selections_Permutation _ _ _ Hr) as Hperm'.
      apply IH.
      * apply Permutation_length in Hperm'. cbn in Hperm'. lia.
      * apply Permutation_cons_inv with x. now rewrite Hperm.
Qed.

Lemma length_flat_map_const {B C : Type} (f : B -> list C) (k : nat) (l : list B) :
  (forall x, In x l -> length (f x) = k) -> length (flat_map f l) = length l * k.
Proof.
  induction l as [|x l IH]; intros H; cbn [flat_map length]; [reflexivity|].
  rewrite length_app, (H x) by now left. rewrite IH; [lia|].
  intros y Hy. apply H. now right.
Qed.

Lemma permutations_fuel_length (n : nat) :
  forall l : list A, length l = n -> length (permutations_fuel n l) = fact n.
Proof.
  induction n as [|n IH]; intros l Hl; cbn [permutations_fuel fact]; [reflexivity|].
  rewrite length_flat_map_const with (k := fact n).
  - rewrite selections_length, Hl. lia.
  - intros [x r] Hsel. cbn [fst snd]. rewrite length_map. apply IH.
    apply selections_Permutation, Permutation_length in Hsel. cbn in Hsel. lia.
Qed.

Lemma permutations_In (l p : list A) : In p (permutations l) <-> Permutation p l.
Proof. now apply permutations_fuel_In. Qed.

Lemma permutations_length (l : list A) : length (permutations l) = fact (length l).
Proof. now apply permutations_fuel_length. Qed.

End PermutationsProperties.

Section SymmetricContraction.

Context {K : Type} {KS : Scalar K}.

Lemma ordered_as_select (A : @TensorProductFunction K) (index_set : list nat) :
  (forall i, In i index_set -> i < rank A) ->
  ordered_as A index_set = Ok (select A index_set).
Proof.
  unfold ordered_as, select.
  induction index_set as [|i idx IH]; intros H; cbn; [reflexivity|].
  destruct (nth_error (vectors A) i) as [v|] eqn:E.
  - cbn. rewrite IH by (intros; apply H; now right). reflexivity.
  - apply nth_error_None in E. specialize (H i (or_introl eq_refl)).
    unfold rank in H. lia.
Qed.

Lemma mapM_Ok {B C : Type} (f : B -> result C) (g : B -> C) (l : list B) :
  (forall x, In x l -> f x = Ok (g x)) -> mapM f l = Ok (map g l).
Proof.
  induction l as [|x l IH]; intros H; cbn; [reflexivity|].
  rewrite (H x) by now left. cbn. rewrite IH by (intros; apply H; now right).
  reflexivity.
Qed.

(** With [factorial] bound to the factorial, the contraction of a
    symmetric [A] with a [B] of the same rank [r] is what the
    specification says: the coefficient [simplify(cA*cB*(1/r!))] times
    the sum, over the [r!] permutations of the positions, of the products
    of the dot products; and 0 at once when that coefficient is zero. *)
Lemma contract_products_symmetric (A B : @TensorProductFunction K) :
  symmetric A = true -> rank B = rank A ->
  let r := rank A in
  let c := simplify (smul (smul (coefficient A) (coefficient B))
                          (frac 1 (Z.of_nat (fact r)))) in
  contract_products (Some fact) A B
  = Ok (if eq_zero c then of_int 0
        else simplify (smul c (py_sum
               (map (fun index_set => sympy_prod (dots (select A index_set) (vectors B)))
                    (permutations (range r)))))) /\
  length (permutations (range r)) = fact r /\
  (forall p, In p (permutations (range r)) <-> Permutation p (range r)).
Proof.
  intros Hs Hr. cbv zeta. split; [|split].
  - unfold contract_products. rewrite Hr, Nat.eqb_refl, Hs. cbn [negb].
    destruct (eq_zero _); [reflexivity|].
    rewrite (mapM_Ok _ (fun index_set =>
               sympy_prod (dots (select A index_set) (vectors B)))); [reflexivity|].
    intros p Hp. rewrite ordered_as_select; [reflexivity|].
    intros i Hi. apply permutations_In in Hp.
    apply (Permutation_in _ Hp), in_seq in Hi. lia.
  - rewrite permutations_length. unfold range. now rewrite length_seq.
  - intros p. apply permutations_In.
Qed.

End SymmetricContraction.

(* ===================================================================== *)
(** ** Further properties: names and delimiters *)
(* ===================================================================== *)

Lemma mapM_Raise {A B : Type} (f : A -> result B) (l : list A) (e : exn) :
  mapM f l = Raise e -> exists x, In x l /\ f x = Raise e.
Proof.
  induction l as [|a l IH]; cbn; [discriminate|].
  destruct (f a) as [b|e'] eqn:Ea; cbn.
  - destruct (mapM f l) as [bs|e'']; cbn; [discriminate|].
    intros [= ->]. destruct (IH eq_refl) as (x & Hx & Hfx).
    exists x. split; [now right | exact Hfx].
  - intros [= ->]. exists a. split; [now left | exact Ea].
Qed.

(** X1.  For a parameter of one character and a name of one line that
    has no marker of the parameter yet and no closing brace, the name
    after [n] differentiations carries the bare marker for [n = 1] and
    the marker of the order [n] from [n = 2] on: no call fails and no
    marker is doubled. *)
Theorem derivative_name_order (name param : string) :
  String.length param = 1 ->
  no_char "^" param = true -> no_char PyString.LF param = true ->
  PyString.startswith name ("\partial_" ++ param)%string = false ->
  no_char "}" name = true -> no_char PyString.LF name = true ->
  derivative_name 1 name param = Ok ("\partial_" ++ param ++ " " ++ name)%string /\
  forall n, 2 <= n ->
    derivative_name n name param
    = Ok ("\partial_" ++ param ++ "^{" ++ PyString.str (Z.of_nat n) ++ "}"
            ++ " " ++ name)%string.
Proof.
  intros Hlen Hp1 Hp2 Hfresh Hn1 Hn2.
  assert (H1 : derivative_name 1 name param
               = Ok ("\partial_" ++ param ++ " " ++ name)%string).
  { cbn. now apply DifferentiateString_fresh. }
  split; [exact H1|].
  intros n Hn. induction n as [|n IH]; [lia|].
  destruct (Nat.eq_dec n 1) as [->|Hne].
  - change (derivative_name 2 name param)
      with (s <- derivative_name 1 name param ;; DifferentiateString s param).
    rewrite H1. cbn [bind].
    change ("\partial_" ++ param ++ " " ++ name)%string
      with ("\partial_" ++ param ++ (" " ++ name))%string.
    rewrite DifferentiateString_bare; [reflexivity | exact Hlen | reflexivity].
  - cbn [derivative_name]. rewrite IH by lia. cbn [bind].
    change ("\partial_" ++ param ++ "^{" ++ PyString.str (Z.of_nat n) ++ "}"
              ++ " " ++ name)%string
      with ("\partial_" ++ param ++ "^{" ++ PyString.str (Z.of_nat n) ++ "}"
              ++ (" " ++ name))%string.
    rewrite DifferentiateString_order; try assumption; try lia.
    replace (Z.of_nat n + 1)%Z with (Z.of_nat (S n)) by lia. reflexivity.
Qed.

(** X1, at an instance: the name [V] and the parameter [t], four times. *)
Lemma derivative_name_order_witness :
  derivative_name 4 "V" "t" = Ok "\partial_t^{4} V".
Proof.
  refine (proj2 (@derivative_name_order "V" "t" _ _ _ _ _ _) 4 _);
    try reflexivity.
  lia.
Defined.

(** X2.  [DifferentiateString] fails on one kind of name only: a name
    that starts with a marker of an order for the parameter; the error
    is then the [ValueError] of [int], for an order that is no number. *)
Theorem DifferentiateString_Raise (s param : string) (e : exn) :
  DifferentiateString s param = Raise e ->
  PyString.startswith s ("\partial_" ++ param ++ "^{")%string = true /\
  e = ValueError "invalid literal for int() with base 10".
Proof.
  unfold DifferentiateString.
  destruct (PyString.startswith s ("\partial_" ++ param ++ "^{")%string);
    [|destruct (PyString.startswith s ("\partial_" ++ param)%string); discriminate].
  intros H. split; [reflexivity|].
  unfold re_sub_increment in H.
  destruct (mapM (sub_line param) (PyString.split_lines s)) as [ls|e'] eqn:Em;
    cbn in H; [discriminate|]. injection H as ->.
  apply mapM_Raise in Em. destruct Em as (line & _ & Hline).
  unfold sub_line in Hline.
  destruct (PyString.find "\partial_" line) as [p|]; [|discriminate].
  destruct (PyString.find "^{" _) as [q|]; [|discriminate].
  destruct (PyString.rfind_char "}" _) as [r|]; [|discriminate].
  unfold increment_match in Hline.
  destruct (PyString.int _); cbn in Hline; [discriminate|].
  now injection Hline as <-.
Qed.

(** X2, at an instance: the order of the name is [2} \hat{n]. *)
Lemma DifferentiateString_Raise_witness :
  PyString.startswith "\partial_t^{2} \hat{n}" "\partial_t^{" = true.
Proof.
  apply (@DifferentiateString_Raise "\partial_t^{2} \hat{n}" "t"
           (ValueError "invalid literal for int() with base 10")).
  vm_compute. reflexivity.
Defined.

Lemma FindFirst_typeset (S : string) :
  FindFirst S ["("; "["; "\{"] = FindFirst S ["("; "["].
Proof.
  induction S as [|c S IH]; [reflexivity|]. cbn [FindFirst List.find].
  change (String.eqb (String c "") "(") with (Ascii.eqb c "(" && true).
  change (String.eqb (String c "") "[") with (Ascii.eqb c "[" && true).
  change (String.eqb (String c "") "\{") with (Ascii.eqb c "\" && false).
  rewrite andb_false_r, IH. reflexivity.
Qed.

Lemma FindFirst_None (S : string) (latex : bool) :
  no_char "(" S = true -> no_char "[" S = true ->
  (latex = false -> no_char "{" S = true) ->
  FindFirst S (if latex then ["("; "["; "\{"] else ["("; "["; "{"]) = None.
Proof.
  unfold no_char. induction S as [|c S IH]; intros H1 H2 H3; [now destruct latex|].
  cbn in H1, H2. apply andb_true_iff in H1, H2.
  destruct H1 as [Hc1 H1], H2 as [Hc2 H2].
  apply negb_true_iff in Hc1, Hc2.
  destruct latex.
  - rewrite FindFirst_typeset in *. cbn [FindFirst List.find].
    change (String.eqb (String c "") "(") with (Ascii.eqb c "(" && true).
    change (String.eqb (String c "") "[") with (Ascii.eqb c "[" && true).
    rewrite Hc1, Hc2. cbn. apply IH; auto; discriminate.
  - specialize (H3 eq_refl). cbn in H3. apply andb_true_iff in H3.
    destruct H3 as [Hc3 H3]. apply negb_true_iff in Hc3.
    cbn [FindFirst List.find].
    change (String.eqb (String c "") "(") with (Ascii.eqb c "(" && true).
    change (String.eqb (String c "") "[") with (Ascii.eqb c "[" && true).
    change (String.eqb (String c "") "{") with (Ascii.eqb c "{" && true).
    rewrite Hc1, Hc2, Hc3. cbn. apply IH; auto.
Qed.

(** X3.  A string without an opening parenthesis or bracket, and in the
    plain mode without an opening brace, is put between parentheses with
    no space; in the typeset mode the braces of the string do not
    count. *)
Theorem DelimitString_plain (S : string) (latex : bool) :
  no_char "(" S = true -> no_char "[" S = true ->
  (latex = false -> no_char "{" S = true) ->
  DelimitString S latex
  = Ok ((if latex then "\left" else "") ++ "(" ++ S
          ++ (if latex then "\right" else "") ++ ")")%string.
Proof.
  intros H1 H2 H3. unfold DelimitString. cbv zeta.
  now rewrite (@FindFirst_None S latex H1 H2 H3).
Qed.

(** X3, at an instance: [\hat{n}] in the typeset mode. *)
Lemma DelimitString_plain_witness :
  DelimitString "\hat{n}" true = Ok "\left(\hat{n}\right)".
Proof.
  apply (@DelimitString_plain "\hat{n}" true); [reflexivity | reflexivity | discriminate].
Defined.

Lemma FindFirst_In (S : string) (D : list string) (d : string) :
  FindFirst S D = Some d -> In d D.
Proof.
  induction S as [|c S IH]; cbn; [discriminate|].
  destruct (List.find _ D) as [x|] eqn:E.
  - intros [= <-]. now apply find_some in E.
  - exact IH.
Qed.

(** X4.  In the plain mode the result starts with one of the three
    openers, and delimiting the result again takes the next opener of
    the rotation parenthesis, bracket, brace, with its closer: a string
    is never put between the delimiters it was given just before. *)
Theorem DelimitString_rotates (S : string) :
  exists i body,
    i < 3 /\
    DelimitString S false = Ok (nth i plain_openers "" ++ body)%string /\
    DelimitString (nth i plain_openers "" ++ body) false
    = Ok (nth ((i + 1) mod 3) plain_openers "" ++ " "
            ++ (nth i plain_openers "" ++ body) ++ " "
            ++ nth ((i + 1) mod 3) plain_closers "")%string.
Proof.
  unfold DelimitString. cbv zeta.
  destruct (FindFirst S ["("; "["; "{"]) as [d|] eqn:E.
  - apply FindFirst_In in E.
    destruct E as [<-|[<-|[<-|[]]]].
    + exists 1, (" " ++ S ++ " " ++ "]")%string. repeat split; lia.
    + exists 2, (" " ++ S ++ " " ++ "}")%string. repeat split; lia.
    + exists 0, (" " ++ S ++ " " ++ ")")%string. repeat split; lia.
  - exists 0, (S ++ ")")%string. repeat split; lia.
Qed.

Lemma FindFirst_app (S S' : string) (D : list string) (d : string) :
  FindFirst S D = Some d -> FindFirst (S ++ S') D = Some d.
Proof.
  induction S as [|c S IH]; cbn; [discriminate|].
  destruct (List.find _ D); [trivial | exact IH].
Qed.

(** X5.  In the typeset mode the third opener is never found in a
    string, since it has two characters and the string is read one
    character at a time.  So a string whose first parenthesis or bracket
    is a bracket is put between braces, and the result, delimited again,
    is put between braces once more: the rotation stops at the braces. *)
Theorem DelimitString_typeset_braces (S : string) :
  FindFirst S ["("; "["] = Some "[" ->
  let B := ("\left\{ " ++ S ++ " \right\}")%string in
  DelimitString S true = Ok B /\
  DelimitString B true = Ok ("\left\{ " ++ B ++ " \right\}")%string.
Proof.
  intros H. cbv zeta. unfold DelimitString. cbv zeta.
  rewrite !FindFirst_typeset.
  assert (HB : FindFirst ("\left\{ " ++ S ++ " \right\}") ["("; "["] = Some "[").
  { change (FindFirst (S ++ " \right\}") ["("; "["] = Some "[").
    now apply FindFirst_app. }
  rewrite H, HB. split; reflexivity.
Qed.

(** X5, at an instance: a string between brackets. *)
Lemma DelimitString_typeset_braces_witness :
  DelimitString "\left\{ [x] \right\}" true
  = Ok "\left\{ \left\{ [x] \right\} \right\}".
Proof.
  apply (@DelimitString_typeset_braces "[x]"). reflexivity.
Defined.

(* ===================================================================== *)
(** ** Further properties: vectors and contractions *)
(* ===================================================================== *)

(** The products of rationals in lowest terms commute. *)
Lemma Q_smul_comm (x y : Q) : smul x y = smul y x.
Proof. apply Qred_complete, Qmult_comm. Qed.

Section FurtherContractions.

Context {K : Type} {KS : Scalar K}.

Lemma Vector_or_swap (v w : @Vector K) :
  (forall x y : K, smul x y = smul y x) -> Vector_or v w = Vector_or w v.
Proof.
  intros Hc. unfold Vector_or. f_equal.
  generalize (components w).
  induction (components v) as [|x l IH]; intros [|y l']; cbn; try reflexivity.
  rewrite Hc. f_equal. apply IH.
Qed.

Lemma dots_swap (vs ws : list (@Vector K)) :
  (forall x y : K, smul x y = smul y x) -> dots vs ws = dots ws vs.
Proof.
  intros Hc. unfold dots. revert ws.
  induction vs as [|v vs IH]; intros [|w ws]; cbn; try reflexivity.
  rewrite (Vector_or_swap v w Hc). f_equal. apply IH.
Qed.

(** X6.  When the product of scalars commutes, so does the contraction
    of two vectors, also of vectors that are not as long. *)
Theorem Vector_or_comm (v w : @Vector K) :
  (forall x y : K, smul x y = smul y x) -> Vector_or v w = Vector_or w v.
Proof. apply Vector_or_swap. Qed.

(** X7.  A vector without a derivative function of its own, of an
    argument of one character, differentiated twice: both derivatives
    are vectors, and the second has the name with the marker of order 2,
    the components differentiated twice and the argument of the vector.
    The marker names the argument of the vector, whatever the variables
    [x] and [y] of the two differentiations. *)
Theorem diff_twice (c f1 f2 : nat) (Name a : string) (cs : list K) (x y : string) :
  String.length a = 1 ->
  PyString.startswith Name ("\partial_" ++ a)%string = false ->
  exists w : Vector,
    diff f1 (VectorFunction c Name cs None a) x = Ok (VVector w) /\
    diff f2 w y
    = Ok (VVector (VectorFunction f2 ("\partial_" ++ a ++ "^{2} " ++ Name)%string
                     (map (fun s => scalar_derivative (scalar_derivative s x) y) cs)
                     None a)).
Proof.
  intros Ha Hn.
  exists (VectorFunction f1 ("\partial_" ++ a ++ " " ++ Name)%string
            (map (fun s => scalar_derivative s x) cs) None a).
  unfold diff, VectorFunction. cbn [DerivativeFunction name arg components].
  rewrite (DifferentiateString_fresh Name a Hn). cbn [bind].
  split; [reflexivity|].
  rewrite (@DifferentiateString_bare a (" " ++ Name)%string Ha eq_refl).
  cbn [bind]. rewrite map_map. reflexivity.
Qed.

(** X8.  Between tensor products of one flag, [has_same_basis_element]
    is an equivalence: every product has its own basis element, the test
    gives the same answer in both directions, and two products that pass
    it pass it with the same products. *)
Theorem has_same_basis_element_equivalence (A B C : @TensorProductFunction K) :
  has_same_basis_element A A = true /\
  (symmetric A = symmetric B ->
   has_same_basis_element A B = has_same_basis_element B A) /\
  (symmetric A = symmetric B ->
   has_same_basis_element A B = true ->
   has_same_basis_element A C = has_same_basis_element B C).
Proof.
  split; [apply has_same_basis_element_refl|].
  split; [apply has_same_basis_element_sym | apply has_same_basis_element_trans_l].
Qed.

(** X9.  The contraction of a product that is not symmetric with a
    tensor: when every term has the rank of the product (and the
    product the rank 0 when the tensor has no term) it is the sum of the
    contractions with the terms; and whatever the terms, the only error
    it raises is the [ValueError] of two different ranks. *)
Theorem TensorProduct_or_Tensor (A : @TensorProductFunction K)
        (ts : list (@TensorProductFunction K)) :
  symmetric A = false ->
  (Forall (fun t => rank t = rank A) ts -> (ts = [] -> rank A = 0) ->
   TensorProduct_or A (OTensor ts)
   = Ok (py_sum (map (fun t => smul (smul (coefficient A) (coefficient t))
                                    (sympy_prod (dots (vectors A) (vectors t)))) ts))) /\
  (forall e, TensorProduct_or A (OTensor ts) = Raise e ->
     exists r, r <> rank A /\ e = ValueError (contract_message (rank A) r)).
Proof.
  intros Hs. unfold TensorProduct_or, TensorProduct_or_in, module_factorial.
  split.
  - intros Hall H0.
    assert (Hr : operand_rank (OTensor ts) = Ok (rank A)).
    { destruct ts as [|t ts]; cbn; [now rewrite H0|].
      now rewrite (Forall_inv Hall). }
    rewrite Hr. cbn [bind]. rewrite Nat.eqb_refl. cbn [negb].
    rewrite (@mapM_Ok _ _ (contract_products None A)
               (fun t => smul (smul (coefficient A) (coefficient t))
                              (sympy_prod (dots (vectors A) (vectors t))))).
    + reflexivity.
    + intros t Ht. rewrite Forall_forall in Hall. unfold contract_products.
      now rewrite (Hall t Ht), Nat.eqb_refl, Hs.
  - intros e.
    destruct (operand_rank (OTensor ts)) as [r|e0] eqn:Er;
      [|destruct ts; discriminate Er].
    cbn [bind]. destruct (r =? rank A) eqn:E; cbn [negb].
    + destruct (mapM (contract_products None A) ts) as [cs|e1] eqn:Em;
        [discriminate|].
      apply mapM_Raise in Em. destruct Em as (t & _ & Ht).
      unfold contract_products in Ht. rewrite Hs in Ht.
      destruct (rank t =? rank A) eqn:Et; cbn [negb] in Ht; [discriminate|].
      injection Ht as <-. intros [= <-].
      exists (rank t). split; [now apply Nat.eqb_neq | reflexivity].
    + intros [= <-]. exists r. split; [now apply Nat.eqb_neq | reflexivity].
Qed.

(** X10.  When the product of scalars commutes, the contraction of two
    tensor products of one rank that are both not symmetric commutes.
    The formula is chosen by the flag of the left product alone: with a
    symmetric right product the contraction returns, and the same two
    products in the other order raise [NameError]. *)
Theorem TensorProduct_or_comm (A B : @TensorProductFunction K) :
  (forall x y : K, smul x y = smul y x) ->
  rank A = rank B -> symmetric A = false ->
  (symmetric B = false ->
   TensorProduct_or A (OTensorProduct B) = TensorProduct_or B (OTensorProduct A)) /\
  (symmetric B = true ->
   TensorProduct_or A (OTensorProduct B)
   = Ok (smul (smul (coefficient A) (coefficient B))
              (sympy_prod (dots (vectors A) (vectors B)))) /\
   TensorProduct_or B (OTensorProduct A) = Raise (NameError "factorial")).
Proof.
  intros Hc Hr HA.
  unfold TensorProduct_or, TensorProduct_or_in, module_factorial, contract_products.
  cbn [operand_rank bind]. rewrite Hr, Nat.eqb_refl, HA. cbn [negb].
  split; intros HB; rewrite HB.
  - rewrite (Hc (coefficient A)), (dots_swap (vectors A) (vectors B) Hc).
    reflexivity.
  - split; reflexivity.
Qed.

(** X11.  Were the name [factorial] bound to the factorial, the
    contraction of a symmetric product with a product of the same rank
    [r] would be 0 when [simplify(cA*cB/r!)] is zero, and otherwise that
    coefficient times the sum of the products of the dot products over
    the orders of the positions of the left product; the orders are the
    [r!] permutations of the positions, and reading a position never
    fails. *)
Theorem symmetric_contraction_bound (A B : @TensorProductFunction K) :
  symmetric A = true -> rank B = rank A ->
  TensorProduct_or_in (Some fact) A (OTensorProduct B)
  = Ok (let c := simplify (smul (smul (coefficient A) (coefficient B))
                                (frac 1 (Z.of_nat (fact (rank A))))) in
        if eq_zero c then of_int 0
        else simplify (smul c (py_sum
               (map (fun index_set =>
                       sympy_prod (dots (select A index_set) (vectors B)))
                    (permutations (range (rank A))))))) /\
  length (permutations (range (rank A))) = fact (rank A) /\
  (forall p, In p (permutations (range (rank A))) <-> Permutation p (range (rank A))).
Proof.
  intros Hs Hr. destruct (contract_products_symmetric A B Hs Hr) as (H1 & H2 & H3).
  split; [|split; assumption].
  unfold TensorProduct_or_in. cbn [operand_rank bind].
  rewrite Hr, Nat.eqb_refl. cbn [negb]. exact H1.
Qed.

End FurtherContractions.

(** X6, at an instance: two vectors of rationals. *)
Lemma Vector_or_comm_witness : Vector_or e1 e2 = Vector_or e2 e1.
Proof. apply (@Vector_or_comm Q QScalar e1 e2). exact Q_smul_comm. Defined.

(** X7, at an instance: the vector [n] of [t]. *)
Lemma diff_twice_witness :
  exists w : @Vector Q,
    diff 1 (VectorFunction 0 "n" [inject_Z 1; inject_Z 2] None "t") "t" = Ok (VVector w) /\
    diff 2 w "t"
    = Ok (VVector (VectorFunction 2 "\partial_t^{2} n" [inject_Z 0; inject_Z 0] None "t")).
Proof.
  apply (@diff_twice Q QScalar 0 1 2 "n" "t" [inject_Z 1; inject_Z 2] "t" "t");
    reflexivity.
Defined.

(** X8, at an instance: a symmetric product and the same vectors in the
    other order. *)
Lemma has_same_basis_element_equivalence_witness :
  has_same_basis_element (TensorProduct [e1; e2] None (Some true))
                         (TensorProduct [e2; e1] None (Some true))
  = has_same_basis_element (TensorProduct [e2; e1] None (Some true))
                           (TensorProduct [e1; e2] None (Some true)).
Proof.
  destruct (@has_same_basis_element_equivalence Q
              (TensorProduct [e1; e2] None (Some true))
              (TensorProduct [e2; e1] None (Some true))
              (TensorProduct [e1; e2] None (Some true))) as (_ & H & _).
  apply H. reflexivity.
Defined.

(** X9, at an instance: [e1*e2] contracted with the tensor of [e1*e2]
    and [e2*e1]. *)
Lemma TensorProduct_or_Tensor_witness :
  TensorProduct_or (TensorProduct [e1; e2] None None)
                   (OTensor [TensorProduct [e1; e2] None None;
                             TensorProduct [e2; e1] None None])
  = Ok (inject_Z 1).
Proof.
  destruct (@TensorProduct_or_Tensor Q QScalar (TensorProduct [e1; e2] None None)
              [TensorProduct [e1; e2] None None; TensorProduct [e2; e1] None None]
              eq_refl) as [H _].
  rewrite H; [reflexivity | repeat constructor | discriminate].
Defined.

(** X10, at an instance: [e1*e2] and [e2*e1]. *)
Lemma TensorProduct_or_comm_witness :
  TensorProduct_or (TensorProduct [e1; e2] None None)
                   (OTensorProduct (TensorProduct [e2; e1] None None))
  = TensorProduct_or (TensorProduct [e2; e1] None None)
                     (OTensorProduct (TensorProduct [e1; e2] None None)).
Proof.
  destruct (@TensorProduct_or_comm Q QScalar (TensorProduct [e1; e2] None None)
              (TensorProduct [e2; e1] None None) Q_smul_comm eq_refl eq_refl)
    as [H _].
  apply H. reflexivity.
Defined.

(** X11, at an instance: the symmetric [e1*e2] with itself, a half. *)
Lemma symmetric_contraction_bound_witness :
  TensorProduct_or_in (Some fact) (TensorProduct [e1; e2] None (Some true))
                      (OTensorProduct (TensorProduct [e1; e2] None (Some true)))
  = Ok (1 # 2)%Q.
Proof.
  destruct (@symmetric_contraction_bound Q QScalar
              (TensorProduct [e1; e2] None (Some true))
              (TensorProduct [e1; e2] None (Some true)) eq_refl eq_refl) as [H _].
  rewrite H. reflexivity.
Defined.

(* ===================================================================== *)
(** ** Further properties: building, adding and compressing tensors *)
(* ===================================================================== *)

Lemma find_split {A : Type} (f : A -> bool) (l : list A) (x : A) :
  find f l = Some x ->
  exists l1 l2, l = l1 ++ x :: l2 /\ Forall (fun y => f y = false) l1 /\ f x = true.
Proof.
  induction l as [|y l IH]; cbn; [discriminate|].
  destruct (f y) eqn:E.
  - intros [= <-]. exists [], l. repeat split; [constructor | exact E].
  - intros H. destruct (IH H) as (l1 & l2 & -> & H1 & H2).
    exists (y :: l1), l2. repeat split; [now constructor | exact H2].
Qed.

Lemma find_none_Forall {A : Type} (f : A -> bool) (l : list A) :
  find f l = None <-> Forall (fun y => f y = false) l.
Proof.
  split.
  - intros H. apply Forall_forall. intros y Hy. exact (find_none f l H y Hy).
  - induction 1 as [|y l Hy _ IH]; cbn; [reflexivity | now rewrite Hy].
Qed.

Lemma subsequence_filter {A B : Type} (f : B * A -> bool) (l : list A) :
  forall idx : list B,
  subsequence (map snd (filter f (combine idx l))) l.
Proof.
  induction l as [|x l IH]; intros [|i idx]; cbn.
  - constructor.
  - constructor.
  - constructor. apply (IH []).
  - destruct (f (i, x)); cbn; constructor; apply IH.
Qed.

Lemma subsequence_length {A : Type} (l' l : list A) :
  subsequence l' l -> length l' <= length l.
Proof. induction 1; cbn; lia. Qed.

Lemma subsequence_In {A : Type} (l' l : list A) (x : A) :
  subsequence l' l -> In x l' -> In x l.
Proof.
  induction 1 as [|y l' l _ IH|y l' l _ IH]; cbn; [tauto | tauto |].
  intros [->|H]; [now left | right; now apply IH].
Qed.

Section FurtherTensors.

Context {K : Type} {KS : Scalar K}.

(** X12.  [Tensor] returns a tensor of the terms it is given exactly
    when every term has the rank of the first; otherwise it raises
    [ValueError] with the rank of the first term that has another
    rank. *)
Theorem Tensor_checks_ranks (h : @heap K) (l : list addr) :
  (Tensor h l = Ok (Tens l)
   <-> Forall (fun a => rank (h a) = Tensor_rank h l) l) /\
  (forall e, Tensor h l = Raise e ->
     exists l1 a l2,
       l = l1 ++ a :: l2 /\
       Forall (fun b => rank (h b) = Tensor_rank h l) l1 /\
       rank (h a) <> Tensor_rank h l /\
       e = ValueError (add_message (rank (h a)) (Tensor_rank h l) "s.")).
Proof.
  destruct l as [|a0 l]; [split; [split; [constructor | reflexivity] | discriminate]|].
  unfold Tensor. cbn [Tensor_rank].
  set (f := fun t_p => negb (rank (h t_p) =? rank (h a0))).
  assert (Hf : forall b, f b = false <-> rank (h b) = rank (h a0)).
  { intros b. unfold f. rewrite negb_false_iff. apply Nat.eqb_eq. }
  split.
  - destruct (find f (a0 :: l)) as [x|] eqn:E.
    + split; [discriminate|]. intros Hall.
      apply find_some in E. destruct E as [Hin Hx].
      rewrite Forall_forall in Hall. apply Hall in Hin. apply Hf in Hin. congruence.
    + split; [intros _|reflexivity].
      apply find_none_Forall in E. revert E. apply Forall_impl. intros b. apply Hf.
  - intros e. destruct (find f (a0 :: l)) as [x|] eqn:E; [|discriminate].
    intros [= <-]. destruct (find_split _ _ E) as (l1 & l2 & El & H1 & Hx).
    exists l1, x, l2. split; [exact El|]. split; [|split; [|reflexivity]].
    + revert H1. apply Forall_impl. intros b. apply Hf.
    + intros Hr. apply Hf in Hr. congruence.
Qed.

Lemma Tensor_uniform (h : @heap K) (r : nat) (l : list addr) :
  Forall (fun a => rank (h a) = r) l -> Tensor h l = Ok (Tens l).
Proof.
  intros H. destruct l as [|a l]; [reflexivity|].
  unfold Tensor.
  replace (find _ (a :: l)) with (@None addr); [reflexivity|].
  symmetry. apply find_none_Forall. pose proof (Forall_inv H) as Ha.
  revert H. apply Forall_impl. intros b Hb. rewrite Ha, Hb, Nat.eqb_refl. reflexivity.
Qed.

Lemma Tensor_add_uniform (h : @heap K) (r : nat) (T1 T2 : list addr) :
  r <> 0 -> T1 <> [] -> T2 <> [] ->
  Forall (fun a => rank (h a) = r) T1 -> Forall (fun a => rank (h a) = r) T2 ->
  Tensor_add h T1 (Tens T2) = Ok (Tens (T1 ++ T2)).
Proof.
  intros Hr H1 H2 F1 F2. unfold Tensor_add. cbn [is_zero_obj obj_rank bind].
  assert (R1 : Tensor_rank h T1 = r).
  { destruct T1; [contradiction|]. exact (Forall_inv F1). }
  assert (R2 : Tensor_rank h T2 = r).
  { destruct T2; [contradiction|]. exact (Forall_inv F2). }
  rewrite R1, R2. apply Nat.eqb_neq in Hr. rewrite Hr, Nat.eqb_refl.
  cbn [negb].
  apply (@Tensor_uniform h r). now apply Forall_app.
Qed.

(** X13.  The sum of two tensors with terms, all of one rank that is not
    0, is the tensor of the terms of the first followed by the terms of
    the second, and the same holds for a tensor product as the right
    operand; so sums of three tensors have the same terms in the same
    order however they are bracketed.  No term is copied and none is
    merged. *)
Theorem Tensor_add_appends (h : @heap K) (r : nat) (T1 T2 T3 : list addr) (b : addr) :
  r <> 0 -> T1 <> [] -> T2 <> [] -> T3 <> [] ->
  Forall (fun a => rank (h a) = r) (T1 ++ T2 ++ T3) -> rank (h b) = r ->
  Tensor_add h T1 (Tens T2) = Ok (Tens (T1 ++ T2)) /\
  Tensor_add h T1 (TProd b) = Ok (Tens (T1 ++ [b])) /\
  Tensor_add h (T1 ++ T2) (Tens T3) = Ok (Tens (T1 ++ T2 ++ T3)) /\
  Tensor_add h T1 (Tens (T2 ++ T3)) = Ok (Tens (T1 ++ T2 ++ T3)).
Proof.
  intros Hr H1 H2 H3 F Hb.
  apply Forall_app in F. destruct F as [F1 F]. apply Forall_app in F.
  destruct F as [F2 F3].
  split; [now apply (@Tensor_add_uniform h r)|]. split; [|split].
  - unfold Tensor_add. cbn [is_zero_obj obj_rank bind].
    assert (R1 : Tensor_rank h T1 = r).
    { destruct T1; [contradiction|]. exact (Forall_inv F1). }
    rewrite R1, Hb. apply Nat.eqb_neq in Hr. rewrite Hr, Nat.eqb_refl.
    cbn [negb].
    apply (@Tensor_uniform h r). apply Forall_app. split; [exact F1|].
    constructor; [exact Hb | constructor].
  - rewrite app_assoc. apply (@Tensor_add_uniform h r); auto.
    + intros E. apply app_eq_nil in E. now destruct E.
    + now apply Forall_app.
  - apply (@Tensor_add_uniform h r); auto.
    + intros E. apply app_eq_nil in E. now destruct E.
    + now apply Forall_app.
Qed.

(** X14.  The sum of a tensor product of a rank that is not 0 with
    itself is a tensor that holds the one object twice; compressing it
    writes the simplified double of the coefficient into the object
    itself, and returns the tensor of that one object, or the number 0
    when the double is zero. *)
Theorem TensorProduct_add_self (h : @heap K) (a : addr) :
  rank (h a) <> 0 ->
  let c := simplify (sadd (coefficient (h a)) (coefficient (h a))) in
  TensorProduct_add h a (TProd a) = Ok (Tens [a; a]) /\
  compress h [a; a]
  = (set_coefficient h a c, if eq_zero c then Num (of_int 0) else Tens [a]).
Proof.
  intros Hr. cbv zeta. split.
  - unfold TensorProduct_add, Tensor_add.
    cbn [is_zero_obj obj_rank bind Tensor_rank].
    apply Nat.eqb_neq in Hr. rewrite Hr, Nat.eqb_refl.
    cbn [negb app]. apply (@Tensor_uniform h (rank (h a))).
    repeat constructor.
  - unfold compress. cbn [length seq fold_left].
    unfold compress_outer at 2. cbn [snd mem existsb].
    cbn [Nat.add Nat.sub length seq fold_left].
    unfold compress_inner. cbn [mem existsb nth].
    rewrite has_same_basis_element_same_vectors by reflexivity.
    cbn [app]. unfold set_coefficient at 1. rewrite Nat.eqb_refl. cbn [coefficient].
    destruct (eq_zero _) eqn:Ez; reflexivity.
Qed.

(** X15.  [compress] returns a sublist of the terms in their order: it
    adds no term and moves none.  When it returns the number 0 no term
    is left. *)
Theorem compress_subsequence (h : @heap K) (T : list addr) :
  subsequence (match snd (compress h T) with
               | Tens T' => T'
               | _ => []
               end) T /\
  (forall T', snd (compress h T) = Tens T' ->
     T' <> [] /\ length T' <= length T /\ forall a, In a T' -> In a T) /\
  (forall s, snd (compress h T) = Num s -> s = of_int 0).
Proof.
  rewrite (compress_unfold T h). cbn [snd].
  set (R := snd (fold_left (compress_outer T) (seq 0 (length T)) (h, []))).
  assert (Hsub : subsequence (kept T R) T) by apply subsequence_filter.
  destruct (kept T R) as [|a l] eqn:E.
  - split; [exact Hsub|]. split; [discriminate | now intros s [= <-]].
  - split; [exact Hsub|]. split; [|discriminate].
    intros T' [= <-]. split; [discriminate|].
    split; [now apply subsequence_length|].
    intros x. now apply subsequence_In.
Qed.

(** X16.  In the tensor [compress] returns no term has the basis element
    of a later term, as the terms are after the call. *)
Theorem compress_result_distinct (h : @heap K) (T T' : list addr) :
  snd (compress h T) = Tens T' ->
  basis_distinct (fst (compress h T)) T'.
Proof.
  intros E. pose proof (compress_basis_distinct T h) as Hd.
  pose proof (compress_unfold T h) as U. cbv zeta in U.
  rewrite U in E. cbn [snd] in E.
  destruct (kept T _) as [|a l]; [discriminate|].
  injection E as <-. exact Hd.
Qed.

Lemma basis_distinct_shape (h h' : @heap K) (T : list addr) :
  same_shape h h' -> basis_distinct h' T -> basis_distinct h T.
Proof.
  intros Hs. unfold basis_distinct.
  induction 1 as [|a l Ha _ IH]; constructor; [|exact IH].
  revert Ha. apply Forall_impl. intros b Hb.
  now rewrite <- (has_same_basis_element_heap a b Hs).
Qed.

(** X17.  [compress] returns all the terms of a tensor with terms
    exactly when none has the basis element of a later one; and then it
    writes no coefficient: a term with the coefficient 0 stays in the
    tensor. *)
Theorem compress_fixed_point (h : @heap K) (T : list addr) :
  T <> [] ->
  (snd (compress h T) = Tens T <-> basis_distinct h T) /\
  (basis_distinct h T -> compress h T = (h, Tens T)).
Proof.
  intros Hne. split; [split|].
  - intros E. apply (@basis_distinct_shape h (fst (compress h T))).
    + apply compress_frame.
    + pose proof (compress_basis_distinct T h) as Hd.
      pose proof (compress_unfold T h) as U. cbv zeta in U.
      rewrite U in E. cbn [snd] in E.
      destruct (kept T _) as [|a l]; [discriminate|].
      injection E as <-. exact Hd.
  - intros Hd. now rewrite (compress_distinct Hd Hne).
  - intros Hd. now apply compress_distinct.
Qed.

End FurtherTensors.

(** X12, at an instance: two terms of rank 2. *)
Lemma Tensor_checks_ranks_witness : Tensor h_terms [0; 3] = Ok (Tens [0; 3]).
Proof.
  destruct (@Tensor_checks_ranks Q h_terms [0; 3]) as [H _].
  apply H. repeat constructor.
Defined.

(** X13, at an instance: the terms 0, 3, 1 and 6 of rank 2. *)
Lemma Tensor_add_appends_witness :
  Tensor_add h_terms [0; 3] (Tens [1]) = Ok (Tens [0; 3; 1]) /\
  Tensor_add h_terms [0] (Tens [3; 1]) = Ok (Tens [0; 3; 1]).
Proof.
  destruct (@Tensor_add_appends Q QScalar h_terms 2 [0] [3] [1] 6)
    as (_ & _ & H1 & H2);
    [discriminate | discriminate | discriminate | discriminate
    | repeat constructor | reflexivity |].
  split; [exact H1 | exact H2].
Defined.

(** X14, at an instance: the term 0, of the coefficient 2. *)
Lemma TensorProduct_add_self_witness :
  TensorProduct_add h_terms 0 (TProd 0) = Ok (Tens [0; 0]) /\
  coefficient (fst (compress h_terms [0; 0]) 0) = inject_Z 4.
Proof.
  assert (Hr : rank (h_terms 0) <> 0) by discriminate.
  pose proof (@TensorProduct_add_self Q QScalar h_terms 0 Hr) as H.
  cbv zeta in H. destruct H as [H1 H2].
  split; [exact H1|]. exact (f_equal (fun r => coefficient (fst r 0)) H2).
Defined.

(** X15, at an instance: the terms 0, 2 and 3, of which the third is
    merged into the first. *)
Lemma compress_subsequence_witness :
  snd (compress h_terms [0; 2; 3]) = Tens [0; 2] /\ length [0; 2] <= length [0; 2; 3].
Proof.
  split; [reflexivity|].
  destruct (@compress_subsequence Q QScalar h_terms [0; 2; 3]) as (_ & H & _).
  apply (H [0; 2]). reflexivity.
Defined.

(** X16, at an instance: the terms 0, 2 and 3. *)
Lemma compress_result_distinct_witness :
  basis_distinct (fst (compress h_terms [0; 2; 3])) [0; 2].
Proof.
  apply (@compress_result_distinct Q QScalar h_terms [0; 2; 3] [0; 2]). reflexivity.
Defined.

(** X17, at an instance: the term 4, of the coefficient 0, before the
    term 0. *)
Lemma compress_fixed_point_witness :
  compress h_terms [4; 0] = (h_terms, Tens [4; 0]).
Proof.
  assert (Hne : [4; 0] <> @nil addr) by discriminate.
  destruct (@compress_fixed_point Q QScalar h_terms [4; 0] Hne) as [_ H].
  apply H. repeat constructor.
Defined.

(* ===================================================================== *)
(** ** Further properties: what compression computes *)
(* ===================================================================== *)

Section FurtherCompression.

Context {K : Type} {KS : Scalar K} {equ : K -> K -> Prop} {SL : SumLaws equ}.

(** X18.  For an equality of scalars with the laws of the sum, under
    which [simplify] keeps the value, and whatever the test [== 0] does
    with equal scalars; for a tensor that holds no object twice, whose
    terms have all the same flag and no coefficient that is [== 0]:
    every term [compress] returns has the vectors of a term of the
    tensor and, up to the equality of scalars, the sum of the
    coefficients of all the terms with that basis element; and every
    term of the tensor has a term with its basis element and that sum in
    what is returned, unless the coefficient merged for its basis
    element, a scalar equal to that sum, was [== 0]. *)
Theorem compress_class_totals (b : bool) (h : @heap K) (T : list addr) :
  NoDup T ->
  (forall a, In a T -> symmetric (h a) = b) ->
  (forall a, In a T -> eq_zero (coefficient (h a)) = false) ->
  let out := terms_of (fst (compress h T)) (snd (compress h T)) in
  (forall o, In o out ->
     exists a, In a T /\ vectors o = vectors (h a) /\ symmetric o = b /\
               equ (coefficient o) (class_total (h a) (map h T))) /\
  (forall a, In a T ->
     (exists o, In o out /\ has_same_basis_element (h a) o = true /\
                equ (coefficient o) (class_total (h a) (map h T))) \/
     (exists c, equ c (class_total (h a) (map h T)) /\ eq_zero c = true)).
Proof.
  intros HT Hb Hnz. cbv zeta.
  destruct (compress_merges_general h HT Hnz) as [E _]. rewrite E.
  assert (Hu : uniform b (map h T)).
  { apply Forall_forall. intros t Ht. apply in_map_iff in Ht.
    destruct Ht as (a & <- & Ha). now apply Hb. }
  split.
  - intros o Ho. destruct (compress_groups_sound Hu o Ho) as (u & Hin & Hv & Hs & Hc).
    apply in_map_iff in Hin. destruct Hin as (a & <- & Ha).
    exists a. split; [exact Ha|]. split; [exact Hv|].
    split; [rewrite Hs; now apply Hb | exact Hc].
  - intros a Ha.
    destruct (compress_groups_represented Hu (h a) (in_map h T a Ha))
      as [(o & Ho & _ & Hsame & Hc)|(c & Hc & Hz)].
    + left. exists o. split; [exact Ho|]. split; assumption.
    + right. now exists c.
Qed.

End FurtherCompression.

(** X18, at an instance: the terms 0 and 3 have one basis element and
    the coefficients 2 and 4; the term returned for them has the
    coefficient 6. *)
Lemma compress_class_totals_witness :
  exists a, In a [0; 2; 3] /\
            [e1; e2] = vectors (h_terms a) /\ false = false /\
            Qeq (inject_Z 6) (class_total (h_terms a) (map h_terms [0; 2; 3])).
Proof.
  assert (HT : NoDup [0; 2; 3]).
  { repeat constructor; cbn; intuition discriminate. }
  destruct (@compress_class_totals Q QScalar Qeq QSumLaws false h_terms [0; 2; 3] HT)
    as [H _].
  - intros a [<-|[<-|[<-|[]]]]; reflexivity.
  - intros a [<-|[<-|[<-|[]]]]; reflexivity.
  - apply (H (TensorProduct [e1; e2] (Some (inject_Z 6)) None)).
    left. reflexivity.
Defined.

(* ===================================================================== *)
(** ** Further properties: traces of tensor products *)
(* ===================================================================== *)

Lemma Z_of_nat_eqb (a b : nat) : (Z.of_nat a =? Z.of_nat b)%Z = (a =? b).
Proof.
  destruct (Nat.eqb_spec a b) as [->|H]; [apply Z.eqb_refl|].
  apply Z.eqb_neq. lia.
Qed.

Lemma filter_combine_seq {A : Type} (p : nat -> bool) (l : list A) :
  forall a, length (filter (fun iv => p (fst iv)) (combine (seq a (length l)) l))
            = length (filter p (seq a (length l))).
Proof.
  induction l as [|x l IH]; intros a; cbn; [reflexivity|].
  destruct (p a); cbn; now rewrite IH.
Qed.

Lemma length_without (j k n : nat) :
  length (filter (fun i => negb (i =? j) && negb (i =? k)) (seq 0 n))
  + (if j <? n then 1 else 0) + (if (k <? n) && negb (k =? j) then 1 else 0) = n.
Proof.
  induction n as [|n IH]; [reflexivity|].
  rewrite seq_S, filter_app, length_app. cbn [Nat.add filter].
  destruct (Nat.eqb_spec n j), (Nat.eqb_spec n k), (Nat.eqb_spec k j),
    (Nat.ltb_spec j n), (Nat.ltb_spec k n), (Nat.ltb_spec j (S n)),
    (Nat.ltb_spec k (S n)); cbn in *; lia.
Qed.

Lemma map_snd_combine_seq {A : Type} (l : list A) :
  forall a, map snd (combine (seq a (length l)) l) = l.
Proof. induction l as [|x l IH]; intros a; cbn; [reflexivity | now rewrite IH]. Qed.

Lemma filter_all {A : Type} (f : A -> bool) (l : list A) :
  (forall x, In x l -> f x = true) -> filter f l = l.
Proof.
  induction l as [|x l IH]; intros H; cbn; [reflexivity|].
  rewrite (H x) by now left. f_equal. apply IH. intros y Hy. apply H. now right.
Qed.

(** The elements of a list at the positions other than two given ones. *)
Lemma remove_none {A : Type} (vs : list A) (o c c' : nat) :
  c < o -> c' < o ->
  map snd (filter (fun iv => negb (fst iv =? c) && negb (fst iv =? c'))
                  (combine (seq o (length vs)) vs))
  = vs.
Proof.
  intros Hc Hc'. rewrite filter_all; [apply map_snd_combine_seq|].
  intros [i v] Hin. apply in_combine_l, in_seq in Hin. cbn [fst].
  destruct (Nat.eqb_spec i c), (Nat.eqb_spec i c'); (reflexivity || lia).
Qed.

Lemma remove_one {A : Type} (vs : list A) :
  forall o c b : nat,
  c < o ->
  map snd (filter (fun iv => negb (fst iv =? c) && negb (fst iv =? o + b))
                  (combine (seq o (length vs)) vs))
  = firstn b vs ++ skipn (S b) vs.
Proof.
  induction vs as [|x vs IH]; intros o c b Hc.
  - cbn. now rewrite firstn_nil.
  - cbn [length seq combine filter fst].
    destruct (Nat.eqb_spec o c) as [|_]; [lia|]. cbn [negb andb].
    destruct b as [|b].
    + rewrite Nat.add_0_r, Nat.eqb_refl. cbn [negb firstn skipn app].
      apply remove_none; lia.
    + destruct (Nat.eqb_spec o (o + S b)) as [|_]; [lia|].
      cbn [negb map snd firstn skipn app]. f_equal.
      replace (o + S b) with (S o + b) by lia. apply IH. lia.
Qed.

Lemma remove_two {A : Type} (vs : list A) :
  forall o a b : nat,
  a <= b ->
  map snd (filter (fun iv => negb (fst iv =? o + a) && negb (fst iv =? o + b))
                  (combine (seq o (length vs)) vs))
  = firstn a vs ++ firstn (b - S a) (skipn (S a) vs) ++ skipn (S b) vs.
Proof.
  induction vs as [|x vs IH]; intros o a b Hab.
  - cbn. now rewrite !firstn_nil.
  - cbn [length seq combine filter fst].
    destruct a as [|a].
    + rewrite Nat.add_0_r, Nat.eqb_refl. cbn [negb andb firstn skipn app].
      destruct b as [|b].
      * rewrite Nat.add_0_r. cbn [Nat.sub firstn app]. apply remove_none; lia.
      * cbn [Nat.sub]. rewrite Nat.sub_0_r.
        replace (o + S b) with (S o + b) by lia. apply remove_one. lia.
    + destruct b as [|b]; [lia|].
      destruct (Nat.eqb_spec o (o + S a)) as [|_]; [lia|].
      destruct (Nat.eqb_spec o (o + S b)) as [|_]; [lia|].
      cbn [negb andb map snd firstn skipn app Nat.sub]. f_equal.
      replace (o + S a) with (S o + a) by lia.
      replace (o + S b) with (S o + b) by lia. apply IH. lia.
Qed.

Lemma getitem_nat {A : Type} (l : list A) (j : nat) :
  getitem l (Z.of_nat j)
  = match nth_error l j with Some x => Ok x | None => Raise IndexError end.
Proof.
  unfold getitem. cbv zeta.
  assert (E : (Z.of_nat j <? 0)%Z = false) by (apply Z.ltb_ge; lia).
  rewrite E. cbv iota. rewrite E, Nat2Z.id. reflexivity.
Qed.

Lemma getitem_range {A : Type} (l : list A) (j : Z) :
  let n := Z.of_nat (length l) in
  ((- n <= j < n)%Z ->
   exists x, getitem l j = Ok x /\
             nth_error l (Z.to_nat (if (j <? 0)%Z then n + j else j)%Z) = Some x) /\
  (~ (- n <= j < n)%Z -> getitem l j = Raise IndexError).
Proof.
  cbv zeta. unfold getitem. cbv zeta.
  set (n := Z.of_nat (length l)).
  set (i := if (j <? 0)%Z then (n + j)%Z else j).
  assert (Hi : (0 <= i < n)%Z <-> (- n <= j < n)%Z).
  { unfold i. destruct (Z.ltb_spec j 0); lia. }
  split; intros H.
  - apply Hi in H. replace (i <? 0)%Z with false by (symmetry; apply Z.ltb_ge; lia).
    destruct (nth_error l (Z.to_nat i)) as [x|] eqn:E; [now exists x|].
    apply nth_error_None in E. lia.
  - destruct (Z.ltb_spec i 0) as [|H0]; [reflexivity|].
    destruct (nth_error l (Z.to_nat i)) as [x|] eqn:E; [|reflexivity].
    exfalso. apply H, Hi. split; [exact H0|].
    assert (Z.to_nat i < length l) by (apply nth_error_Some; congruence). lia.
Qed.

Section FurtherTraces.

Context {K : Type} {KS : Scalar K}.

Lemma without_slots_nat (vs : list (@Vector K)) (j k : nat) :
  without_slots vs (Z.of_nat j) (Z.of_nat k)
  = map snd (filter (fun iv => (fun i => negb (i =? j) && negb (i =? k)) (fst iv))
                    (combine (seq 0 (length vs)) vs)).
Proof.
  unfold without_slots. f_equal. apply filter_ext. intros [i v]. cbn [fst].
  now rewrite !Z_of_nat_eqb.
Qed.

(** The vectors [trace] keeps for two indices that are not negative:
    those before the first of the two positions, those between the two,
    and those after the second. *)
Lemma without_slots_exact (vs : list (@Vector K)) (j k : nat) :
  without_slots vs (Z.of_nat j) (Z.of_nat k)
  = firstn (Nat.min j k) vs
      ++ firstn (Nat.max j k - S (Nat.min j k)) (skipn (S (Nat.min j k)) vs)
      ++ skipn (S (Nat.max j k)) vs.
Proof.
  rewrite without_slots_nat.
  rewrite <- (remove_two vs 0 (Nat.le_trans _ _ _ (Nat.le_min_l j k) (Nat.le_max_l j k))).
  f_equal. apply filter_ext. intros [i v]. cbn [fst Nat.add].
  destruct (Nat.le_ge_cases j k) as [H|H].
  - now rewrite (Nat.min_l _ _ H), (Nat.max_r _ _ H).
  - rewrite (Nat.min_r _ _ H), (Nat.max_l _ _ H). apply andb_comm.
Qed.

Lemma without_slots_negative (vs : list (@Vector K)) (j k : Z) :
  (j < 0)%Z -> (k < 0)%Z -> without_slots vs j k = vs.
Proof.
  intros Hj Hk. unfold without_slots. rewrite filter_all.
  - apply map_snd_combine_seq.
  - intros [i v] _. cbn [fst].
    replace (Z.of_nat i =? j)%Z with false by (symmetry; apply Z.eqb_neq; lia).
    replace (Z.of_nat i =? k)%Z with false by (symmetry; apply Z.eqb_neq; lia).
    reflexivity.
Qed.

(** X19.  The trace of a product that is not symmetric and not of rank 2
    over two positions [j] and [k] of the product: 0 when the coefficient
    times the dot product of the two vectors simplifies to zero, and
    otherwise a product that is not symmetric, with that coefficient and
    the vectors at the other positions in their order: those before the
    first of the two positions, those between the two, and those after
    the second.  Its rank is 2 less, and only 1 less when [j] and [k]
    are the same position. *)
Theorem TensorProduct_trace_rank (self : @TensorProductFunction K) (j k : nat) :
  symmetric self = false -> rank self <> 2 -> j < rank self -> k < rank self ->
  exists vj vk,
    nth_error (vectors self) j = Some vj /\ nth_error (vectors self) k = Some vk /\
    let c := simplify (smul (coefficient self) (Vector_or vj vk)) in
    if eq_zero c
    then TensorProduct_trace self (Z.of_nat j) (Z.of_nat k) = Ok (TNumber (of_int 0))
    else exists t,
        TensorProduct_trace self (Z.of_nat j) (Z.of_nat k) = Ok (TProduct t) /\
        coefficient t = c /\ symmetric t = false /\
        vectors t
        = firstn (Nat.min j k) (vectors self)
            ++ firstn (Nat.max j k - S (Nat.min j k))
                      (skipn (S (Nat.min j k)) (vectors self))
            ++ skipn (S (Nat.max j k)) (vectors self) /\
        rank t + (if j =? k then 1 else 2) = rank self.
Proof.
  intros Hs Hr Hj Hk. unfold rank in *.
  destruct (nth_error (vectors self) j) as [vj|] eqn:Ej;
    [|apply nth_error_None in Ej; lia].
  destruct (nth_error (vectors self) k) as [vk|] eqn:Ek;
    [|apply nth_error_None in Ek; lia].
  exists vj, vk. split; [reflexivity|]. split; [reflexivity|]. cbv zeta.
  unfold TensorProduct_trace. rewrite !getitem_nat, Ej, Ek. cbn [bind].
  unfold rank. apply Nat.eqb_neq in Hr. rewrite Hr.
  destruct (eq_zero _) eqn:Ez; [reflexivity|]. rewrite Hs.
  eexists. split; [reflexivity|]. cbn [TensorProduct coefficient symmetric vectors].
  split; [reflexivity|]. split; [reflexivity|].
  split; [apply without_slots_exact|].
  rewrite without_slots_nat, length_map.
  rewrite (filter_combine_seq (fun i => negb (i =? j) && negb (i =? k))).
  pose proof (length_without j k (length (vectors self))) as H.
  destruct (Nat.ltb_spec j (length (vectors self))); [|lia].
  destruct (Nat.ltb_spec k (length (vectors self))); [|lia].
  rewrite (Nat.eqb_sym j k). destruct (k =? j); cbn in H; lia.
Qed.

(** X20.  A negative index counts from the end when the two vectors of
    the dot product are read, and is compared as it is with the
    positions when the vectors are removed: with two negative indices
    the trace of a product that is not symmetric and not of rank 2 is 0
    or a product with all the vectors of the product, of the same
    rank. *)
Theorem TensorProduct_trace_negative (self : @TensorProductFunction K) (j k : Z) :
  symmetric self = false -> rank self <> 2 ->
  (- Z.of_nat (rank self) <= j < 0)%Z -> (- Z.of_nat (rank self) <= k < 0)%Z ->
  TensorProduct_trace self j k = Ok (TNumber (of_int 0)) \/
  exists c, eq_zero c = false /\
            TensorProduct_trace self j k
            = Ok (TProduct (TensorProduct (vectors self) (Some c) (Some false))).
Proof.
  intros Hs Hr Hj Hk. unfold rank in *.
  destruct (getitem_range (vectors self) j) as [Gj _].
  destruct (getitem_range (vectors self) k) as [Gk _].
  destruct Gj as (vj & Ej & _); [lia|]. destruct Gk as (vk & Ek & _); [lia|].
  unfold TensorProduct_trace. rewrite Ej, Ek. cbn [bind].
  unfold rank. apply Nat.eqb_neq in Hr. rewrite Hr.
  destruct (eq_zero _) eqn:Ez; [now left|]. right. rewrite Hs.
  rewrite without_slots_negative by lia.
  eexists. split; [exact Ez | reflexivity].
Qed.

(** X21.  [trace] raises [IndexError] exactly when one of the two
    indices is not a position of the product, counted from the start or
    from the end. *)
Theorem TensorProduct_trace_IndexError (self : @TensorProductFunction K) (j k : Z) :
  let n := Z.of_nat (rank self) in
  TensorProduct_trace self j k = Raise IndexError
  <-> ~ ((- n <= j < n)%Z /\ (- n <= k < n)%Z).
Proof.
  cbv zeta. unfold rank.
  destruct (getitem_range (vectors self) j) as [Gj Nj].
  destruct (getitem_range (vectors self) k) as [Gk Nk].
  set (n := Z.of_nat (length (vectors self))) in *.
  unfold TensorProduct_trace.
  destruct (Z_le_dec (- n) j) as [Hj1|Hj1];
    [destruct (Z_lt_dec j n) as [Hj2|Hj2]|].
  - destruct (Gj (conj Hj1 Hj2)) as (vj & -> & _). cbn [bind].
    destruct (Z_le_dec (- n) k) as [Hk1|Hk1];
      [destruct (Z_lt_dec k n) as [Hk2|Hk2]|].
    + destruct (Gk (conj Hk1 Hk2)) as (vk & -> & _). cbn [bind].
      split; [|intros H; exfalso; apply H; lia].
      destruct (rank self =? 2); [discriminate|].
      destruct (eq_zero _); [discriminate|].
      destruct (symmetric self); [|discriminate].
      destruct (existsb _ _); discriminate.
    + rewrite Nk by lia. cbn [bind]. split; [lia | reflexivity].
    + rewrite Nk by lia. cbn [bind]. split; [lia | reflexivity].
  - rewrite Nj by lia. cbn [bind]. split; [lia | reflexivity].
  - rewrite Nj by lia. cbn [bind]. split; [lia | reflexivity].
Qed.

Lemma In_pairs (n j k : nat) : j < n -> k < n -> j <> k -> In (j, k) (pairs n).
Proof.
  intros Hj Hk Hjk. unfold pairs, range. apply in_flat_map.
  exists j. split; [apply in_seq; lia|].
  apply in_map, filter_In. split; [apply in_seq; lia|].
  apply negb_true_iff, Nat.eqb_neq. congruence.
Qed.

(** X22.  The trace of a symmetric product of a rank other than 2
    returns nothing but 0: when the coefficient of the two positions is
    not zero the name [factorial], which the module binds nowhere, is
    evaluated.  Over two different positions of the product it raises
    [NameError]. *)
Theorem TensorProduct_trace_symmetric (self : @TensorProductFunction K) :
  symmetric self = true -> rank self <> 2 ->
  (forall (j k : Z) (r : traced),
     TensorProduct_trace self j k = Ok r -> r = TNumber (of_int 0)) /\
  (forall (j k : nat) (vj vk : Vector),
     nth_error (vectors self) j = Some vj -> nth_error (vectors self) k = Some vk ->
     j <> k ->
     eq_zero (simplify (smul (coefficient self) (Vector_or vj vk))) = false ->
     TensorProduct_trace self (Z.of_nat j) (Z.of_nat k) = Raise (NameError "factorial")).
Proof.
  intros Hs Hr. apply Nat.eqb_neq in Hr. split.
  - intros j k r. unfold TensorProduct_trace.
    destruct (getitem (vectors self) j) as [vj|]; [|discriminate].
    destruct (getitem (vectors self) k) as [vk|]; [|discriminate].
    cbn [bind]. rewrite Hr, Hs.
    destruct (eq_zero _); [now intros [= <-]|].
    destruct (existsb _ _); discriminate.
  - intros j k vj vk Ej Ek Hjk Hz.
    unfold TensorProduct_trace. rewrite !getitem_nat, Ej, Ek. cbn [bind].
    rewrite Hr, Hz, Hs.
    replace (existsb _ _) with true; [reflexivity|].
    symmetry. apply existsb_exists. exists (j, k). split.
    + apply In_pairs; [| |exact Hjk].
      * apply nth_error_Some. unfold rank. congruence.
      * apply nth_error_Some. unfold rank. congruence.
    + cbn [fst snd]. rewrite (nth_error_nth _ _ _ Ej), (nth_error_nth _ _ _ Ek).
      now rewrite Hz.
Qed.

End FurtherTraces.

(** X19, at an instance: the first and the third vector of [3*e1*e2*e1]. *)
Lemma TensorProduct_trace_rank_witness :
  exists t, TensorProduct_trace e121 0 2 = Ok (TProduct t) /\ vectors t = [e2].
Proof.
  assert (Hr : rank e121 <> 2) by discriminate.
  assert (H0 : 0 < rank e121) by (cbn; lia).
  assert (H2 : 2 < rank e121) by (cbn; lia).
  destruct (@TensorProduct_trace_rank Q QScalar e121 0 2 eq_refl Hr H0 H2)
    as (vj & vk & Ej & Ek & H).
  injection Ej as <-. injection Ek as <-. cbv zeta in H.
  change (eq_zero (simplify (smul (coefficient e121) (Vector_or e1 e1)))) with false in H.
  destruct H as (t & Ht & _ & _ & Hv & _).
  exists t. split; [exact Ht | exact Hv].
Defined.

(** X20, at an instance: the last and the first vector of [3*e1*e2*e1],
    by negative indices. *)
Lemma TensorProduct_trace_negative_witness :
  TensorProduct_trace e121 (-1) (-3)
  = Ok (TProduct (TensorProduct [e1; e2; e1] (Some (inject_Z 3)) (Some false))).
Proof.
  assert (Hr : rank e121 <> 2) by discriminate.
  destruct (@TensorProduct_trace_negative Q QScalar e121 (-1) (-3) eq_refl Hr)
    as [H|(c & Hc & H)]; [cbn; lia | cbn; lia | discriminate H | reflexivity].
Defined.

(** X21, at an instance: the index 3 in a product of three vectors. *)
Lemma TensorProduct_trace_IndexError_witness :
  TensorProduct_trace e121 0 3 = Raise IndexError.
Proof.
  apply (@TensorProduct_trace_IndexError Q QScalar e121 0 3). cbn. lia.
Defined.

(** X22, at an instance: the symmetric product of [e1], [e2] and [e1]. *)
Lemma TensorProduct_trace_symmetric_witness :
  TensorProduct_trace (TensorProduct [e1; e2; e1] None (Some true)) 0 2
  = Raise (NameError "factorial").
Proof.
  assert (Hr : rank (TensorProduct [e1; e2; e1] None (Some true)) <> 2) by discriminate.
  destruct (@TensorProduct_trace_symmetric Q QScalar
              (TensorProduct [e1; e2; e1] None (Some true)) eq_refl Hr) as [_ H].
  apply (H 0 2 e1 e1); [reflexivity | reflexivity | discriminate | reflexivity].
Defined.

(* ===================================================================== *)
(** ** Further properties: products and contractions of tensors *)
(* ===================================================================== *)

Lemma mapM_app {A B : Type} (f : A -> result B) (l1 l2 : list A) :
  mapM f (l1 ++ l2)
  = (a <- mapM f l1 ;; b <- mapM f l2 ;; Ok (a ++ b)).
Proof.
  induction l1 as [|x l1 IH]; cbn.
  - destruct (mapM f l2); reflexivity.
  - destruct (f x) as [y|e]; cbn; [|reflexivity]. rewrite IH.
    destruct (mapM f l1) as [a|e]; cbn; [|reflexivity].
    destruct (mapM f l2); reflexivity.
Qed.

Lemma mapM_map {A B C : Type} (f : B -> result C) (g : A -> B) (l : list A) :
  mapM f (map g l) = mapM (fun x => f (g x)) l.
Proof. induction l as [|x l IH]; cbn; [reflexivity | now rewrite IH]. Qed.

Lemma mapM_ext {A B : Type} (f g : A -> result B) (l : list A) :
  (forall x, f x = g x) -> mapM f l = mapM g l.
Proof. intros H. induction l as [|x l IH]; cbn; [reflexivity | now rewrite H, IH]. Qed.

Lemma list_prod_app {A B : Type} (l1 l2 : list A) (l : list B) :
  list_prod (l1 ++ l2) l = list_prod l1 l ++ list_prod l2 l.
Proof.
  induction l1 as [|x l1 IH]; cbn; [reflexivity|]. now rewrite IH, app_assoc.
Qed.

Section FurtherProducts.

Context {K : Type} {KS : Scalar K}.

Lemma Tensor_new_map {A : Type} (r : nat) (f : A -> product)
      (g : A -> @TensorProductFunction K) (l : list A) :
  (forall x, In x l -> f x = PProduct (g x) /\ rank (g x) = r) ->
  Tensor_new (map f l) = Ok (map g l).
Proof.
  intros H. destruct l as [|a l]; [reflexivity|].
  unfold Tensor_new. cbn [map].
  destruct (H a (or_introl eq_refl)) as [Ea Ra]. rewrite Ea at 1.
  cbn [product_rank bind]. rewrite <- !map_cons, mapM_map.
  apply mapM_Ok. intros x Hx. destruct (H x Hx) as [Ex Rx].
  rewrite Ex. cbn [product_rank bind]. now rewrite Ra, Rx, Nat.eqb_refl.
Qed.

(** X23.  The product of a tensor with a scalar.  When the scalar
    simplifies to zero every term times the scalar is the integer 0, and
    [Tensor] of these integers raises [AttributeError] on the rank of
    the first, unless the tensor has no term.  Otherwise the product of
    a tensor whose terms have one rank is the tensor of the terms in
    their order, each with its vectors and flag and its coefficient
    times the scalar. *)
Theorem Tensor_mul_scalar (self : list (@TensorProductFunction K)) (s : K) :
  (eq_zero (simplify s) = true ->
   Tensor_mul self (FScalar s)
   = match self with [] => Ok [] | _ :: _ => Raise (AttributeError "rank") end) /\
  (eq_zero (simplify s) = false ->
   forall r, Forall (fun t => rank t = r) self ->
   Tensor_mul self (FScalar s)
   = Ok (map (fun t => mkTensorProduct (vectors t) (smul (coefficient t) s)
                                       (symmetric t)) self)).
Proof.
  unfold Tensor_mul, TensorProduct_mul. split; intros Hz.
  - rewrite Hz. destruct self as [|t self]; reflexivity.
  - intros r Hall. rewrite Hz. apply (@Tensor_new_map _ r).
    intros t Ht. rewrite Forall_forall in Hall. split; [reflexivity|].
    exact (Hall t Ht).
Qed.

(** X24.  The product of two tensors whose terms have the ranks [r1] and
    [r2] is a tensor with a term for every pair of a term of the first
    and a term of the second, the pairs of the first term first: its
    vectors are the vectors of the two terms, its coefficient is their
    simplified product, its flag is the flag of the left term, and its
    rank is [r1 + r2]. *)
Theorem Tensor_mul_Tensor (r1 r2 : nat) (self ts : list (@TensorProductFunction K)) :
  Forall (fun t => rank t = r1) self -> Forall (fun t => rank t = r2) ts ->
  exists out,
    Tensor_mul self (FTensor ts) = Ok out /\
    out = map (fun AB => mkTensorProduct
                           (vectors (fst AB) ++ vectors (snd AB))
                           (simplify (smul (coefficient (fst AB)) (coefficient (snd AB))))
                           (symmetric (fst AB)))
              (list_prod self ts) /\
    length out = length self * length ts /\
    Forall (fun t => rank t = r1 + r2) out.
Proof.
  intros H1 H2. eexists. split; [|split; [reflexivity|]].
  - unfold Tensor_mul, TensorProduct_mul. apply (@Tensor_new_map _ (r1 + r2)).
    intros [A B] Hin. apply in_prod_iff in Hin. split; [reflexivity|].
    rewrite Forall_forall in H1, H2. unfold rank in *. cbn [vectors fst snd].
    rewrite length_app. destruct Hin as [HA HB]. now rewrite (H1 A HA), (H2 B HB).
  - split; [now rewrite length_map, length_prod|].
    apply Forall_map, Forall_forall. intros [A B] Hin. apply in_prod_iff in Hin.
    rewrite Forall_forall in H1, H2. unfold rank in *. cbn [vectors fst snd].
    rewrite length_app. destruct Hin as [HA HB]. now rewrite (H1 A HA), (H2 B HB).
Qed.

Lemma TensorProduct_or_product (A B : @TensorProductFunction K) :
  TensorProduct_or A (OTensorProduct B) = contract_products None A B.
Proof.
  unfold TensorProduct_or, TensorProduct_or_in, module_factorial.
  cbn [operand_rank bind]. unfold contract_products.
  destruct (rank B =? rank A); reflexivity.
Qed.

Lemma contract_products_errors (A B : @TensorProductFunction K) (e : exn) :
  contract_products None A B = Raise e ->
  e = ValueError (contract_message (rank A) (rank B)) \/ e = NameError "factorial".
Proof.
  unfold contract_products. destruct (rank B =? rank A); cbn [negb].
  - destruct (symmetric A); [|discriminate]. intros [= <-]. now right.
  - intros [= <-]. now left.
Qed.

(** X25.  The tensor of one tensor product contracted with a tensor is
    the contraction of the tensor product with that tensor: the same
    number, or the same error. *)
Theorem Tensor_or_single (A : @TensorProductFunction K)
        (ts : list (@TensorProductFunction K)) :
  Tensor_or [A] (OTensor ts) = TensorProduct_or A (OTensor ts).
Proof.
  unfold Tensor_or. unfold TensorProduct_or at 2. unfold TensorProduct_or_in.
  fold (@module_factorial). unfold module_factorial.
  destruct (operand_rank (OTensor ts)) as [r|e]; [|reflexivity]. cbn [bind].
  destruct (negb (r =? rank A)); [reflexivity|].
  cbn [list_prod]. rewrite app_nil_r, mapM_map. cbn [fst snd].
  rewrite (mapM_ext _ (contract_products None A) ts)
    by (intros t; apply TensorProduct_or_product).
  destruct (mapM (contract_products None A) ts) as [cs|e] eqn:E; [reflexivity|].
  cbn [bind]. apply mapM_Raise in E. destruct E as (t & _ & Ht).
  destruct (contract_products_errors _ _ Ht) as [->| ->]; reflexivity.
Qed.

End FurtherProducts.

Section FurtherLinearity.

Context {K : Type} {KS : Scalar K} {equ : K -> K -> Prop}.
Context {KL : ScalarLaws equ}.

Lemma sadd_0_l (x : K) : equ (sadd (of_int 0) x) x.
Proof. rewrite sadd_comm. apply sadd_0_r. Qed.

Lemma fold_left_sadd (l : list K) :
  forall a, equ (fold_left sadd l a) (sadd a (py_sum l)).
Proof.
  unfold py_sum. induction l as [|x l IH]; intros a; cbn [fold_left].
  - symmetry. apply sadd_0_r.
  - rewrite (IH (sadd a x)), (IH (sadd (of_int 0) x)).
    rewrite sadd_0_l. symmetry. rewrite <- sadd_assoc. reflexivity.
Qed.

Lemma py_sum_app (l1 l2 : list K) :
  equ (py_sum (l1 ++ l2)) (sadd (py_sum l1) (py_sum l2)).
Proof. unfold py_sum at 1. rewrite fold_left_app. apply fold_left_sadd. Qed.

(** X26.  The contraction of a tensor is additive in its terms: when the
    tensors of the terms [s1] and of the terms [s2] can be contracted
    with [B], so can the tensor of the terms [s1] followed by [s2], and
    the result is the sum of the two, up to the equality of scalars. *)
Theorem Tensor_or_additive (s1 s2 : list (@TensorProductFunction K)) (B : operand)
        (c1 c2 : K) :
  Tensor_or s1 B = Ok c1 -> Tensor_or s2 B = Ok c2 ->
  exists c, Tensor_or (s1 ++ s2) B = Ok c /\ equ c (sadd c1 c2).
Proof.
  unfold Tensor_or.
  destruct (operand_rank B) as [r|e]; [|discriminate]. cbn [bind].
  set (rk := fun s : list (@TensorProductFunction K) =>
               match s with [] => 0 | t :: _ => rank t end).
  change (match s1 with [] => 0 | t :: _ => rank t end) with (rk s1).
  change (match s2 with [] => 0 | t :: _ => rank t end) with (rk s2).
  change (match s1 ++ s2 with [] => 0 | t :: _ => rank t end) with (rk (s1 ++ s2)).
  destruct (r =? rk s1) eqn:E1; [|discriminate].
  destruct (r =? rk s2) eqn:E2; [|discriminate].
  assert (E : (r =? rk (s1 ++ s2)) = true).
  { destruct s1; [exact E2 | exact E1]. }
  rewrite E. cbn [negb].
  destruct B as [B|ts|s]; [| |discriminate].
  - rewrite mapM_app.
    destruct (mapM _ s1) as [a|]; [|discriminate].
    destruct (mapM _ s2) as [b|]; [|discriminate].
    cbn [bind]. intros [= <-] [= <-].
    eexists. split; [reflexivity | apply py_sum_app].
  - rewrite list_prod_app, mapM_app.
    destruct (mapM _ (list_prod s1 ts)) as [a|]; [|discriminate].
    destruct (mapM _ (list_prod s2 ts)) as [b|]; [|discriminate].
    cbn [bind]. intros [= <-] [= <-].
    eexists. split; [reflexivity | apply py_sum_app].
Qed.

Context {KP : ProductLaws equ}.

Lemma smul_interchange (w x y z : K) :
  equ (smul (smul w x) (smul y z)) (smul (smul w y) (smul x z)).
Proof.
  rewrite smul_assoc, <- (smul_assoc x y z), (smul_comm x y).
  rewrite (smul_assoc y x z), <- smul_assoc. reflexivity.
Qed.

Lemma fold_left_smul (l : list K) :
  forall a, equ (fold_left smul l a) (smul a (sympy_prod l)).
Proof.
  unfold sympy_prod. induction l as [|x l IH]; intros a; cbn [fold_left].
  - rewrite smul_comm. symmetry. apply smul_1_l.
  - rewrite (IH (smul a x)), (IH (smul (of_int 1) x)).
    rewrite smul_1_l. apply smul_assoc.
Qed.

Lemma sympy_prod_app (l1 l2 : list K) :
  equ (sympy_prod (l1 ++ l2)) (smul (sympy_prod l1) (sympy_prod l2)).
Proof. unfold sympy_prod at 1. rewrite fold_left_app. apply fold_left_smul. Qed.

Lemma dots_app (v1 v2 w1 w2 : list (@Vector K)) :
  length v1 = length w1 ->
  dots (v1 ++ v2) (w1 ++ w2) = dots v1 w1 ++ dots v2 w2.
Proof.
  unfold dots. revert w1.
  induction v1 as [|v v1 IH]; intros [|w w1] H; try discriminate H; cbn.
  - reflexivity.
  - f_equal. apply IH. now injection H.
Qed.

(** X27.  The contraction of products factors: for products [A] and [B]
    that are not symmetric, [C] of the rank of [A] and [D] of the rank
    of [B], the contraction of [A*B] with [C*D] is the product of the
    contraction of [A] with [C] and of the contraction of [B] with [D],
    up to the equality of scalars. *)
Theorem contraction_of_products (A B C D : @TensorProductFunction K) :
  symmetric A = false -> symmetric B = false ->
  rank A = rank C -> rank B = rank D ->
  exists P Q x y z,
    TensorProduct_mul A (FTensorProduct B) = PProduct P /\
    TensorProduct_mul C (FTensorProduct D) = PProduct Q /\
    TensorProduct_or A (OTensorProduct C) = Ok x /\
    TensorProduct_or B (OTensorProduct D) = Ok y /\
    TensorProduct_or P (OTensorProduct Q) = Ok z /\
    equ z (smul x y).
Proof.
  intros HA HB HAC HBD. unfold TensorProduct_mul.
  do 2 eexists. exists (smul (smul (coefficient A) (coefficient C))
                             (sympy_prod (dots (vectors A) (vectors C)))).
  exists (smul (smul (coefficient B) (coefficient D))
               (sympy_prod (dots (vectors B) (vectors D)))).
  eexists. split; [reflexivity|]. split; [reflexivity|].
  rewrite !TensorProduct_or_product. unfold contract_products.
  unfold rank in *. cbn [TensorProduct vectors coefficient symmetric].
  rewrite !length_app, HA, HB, <- HAC, <- HBD, !Nat.eqb_refl. cbn [negb].
  split; [reflexivity|]. split; [reflexivity|]. split; [reflexivity|].
  rewrite dots_app by exact HAC. rewrite sympy_prod_app, !simplify_equ.
  rewrite (smul_interchange (coefficient A) (coefficient B)).
  apply smul_interchange.
Qed.

End FurtherLinearity.

#[export] Instance QProductLaws : ProductLaws Qeq.
Proof.
  split.
  - intros x x' Hx y y' Hy. change (Qeq (Qred (Qmult x y)) (Qred (Qmult x' y'))).
    rewrite !Qred_correct. now rewrite Hx, Hy.
  - intros x y. change (Qeq (Qred (Qmult x y)) (Qred (Qmult y x))).
    rewrite !Qred_correct. apply Qmult_comm.
  - intros x y z.
    change (Qeq (Qred (Qmult (Qred (Qmult x y)) z)) (Qred (Qmult x (Qred (Qmult y z))))).
    rewrite !Qred_correct. symmetry. apply Qmult_assoc.
  - intros x. change (Qeq (Qred (Qmult (inject_Z 1) x)) x).
    rewrite Qred_correct. apply Qmult_1_l.
Qed.

(** X23, at an instance: the tensor of [3*e1*e2*e1] times 0. *)
Lemma Tensor_mul_scalar_witness :
  Tensor_mul [e121] (FScalar (inject_Z 0)) = Raise (AttributeError "rank").
Proof.
  destruct (@Tensor_mul_scalar Q QScalar [e121] (inject_Z 0)) as [H _].
  apply H. reflexivity.
Defined.

(** X24, at an instance: one term of rank 3 times two terms of rank 2. *)
Lemma Tensor_mul_Tensor_witness :
  exists out, Tensor_mul [e121] (FTensor [h_terms 0; h_terms 6]) = Ok out /\
              length out = 2 /\ Forall (fun t => rank t = 5) out.
Proof.
  destruct (@Tensor_mul_Tensor Q QScalar 3 2 [e121] [h_terms 0; h_terms 6])
    as (out & H1 & _ & H2 & H3); [repeat constructor | repeat constructor |].
  exists out. split; [exact H1|]. split; [exact H2 | exact H3].
Defined.

(** X26, at an instance: the tensors of the terms 0 and 6 with [e1*e2]. *)
Lemma Tensor_or_additive_witness :
  exists c, Tensor_or [h_terms 0; h_terms 6] (OTensorProduct (h_terms 5)) = Ok c /\
            Qeq c (sadd (inject_Z 2) (inject_Z 0)).
Proof.
  apply (@Tensor_or_additive Q QScalar Qeq QScalarLaws [h_terms 0] [h_terms 6]
           (OTensorProduct (h_terms 5))); reflexivity.
Defined.

(** X27, at an instance: [(e1*e2)*(e1*e1)] with itself. *)
Lemma contraction_of_products_witness :
  exists P Q x y z,
    TensorProduct_mul (h_terms 0) (FTensorProduct (h_terms 2)) = PProduct P /\
    TensorProduct_mul (h_terms 0) (FTensorProduct (h_terms 2)) = PProduct Q /\
    TensorProduct_or (h_terms 0) (OTensorProduct (h_terms 0)) = Ok x /\
    TensorProduct_or (h_terms 2) (OTensorProduct (h_terms 2)) = Ok y /\
    TensorProduct_or P (OTensorProduct Q) = Ok z /\
    Qeq z (smul x y).
Proof.
  apply (@contraction_of_products Q QScalar Qeq QScalarLaws QProductLaws
           (h_terms 0) (h_terms 2) (h_terms 0) (h_terms 2)); reflexivity.
Defined.

Section FurtherAssociativity.

Context {K : Type} {KS : Scalar K} {equ : K -> K -> Prop}.
Context {KL : ScalarLaws equ} {KP : ProductLaws equ}.

(** X28.  The product of tensor products is associative: [(A*B)*C] and
    [A*(B*C)] have the same vectors and the same flag, the flag of [A],
    and coefficients that are equal as scalars.  The product computed by
    the method of the right operand, [B.__rmul__(A)], has the vectors
    and the coefficient of [A*B], and the flag of [B] where [A*B] has
    the flag of [A]. *)
Theorem TensorProduct_mul_assoc (A B C : @TensorProductFunction K) :
  exists AB BC L R BA,
    TensorProduct_mul A (FTensorProduct B) = PProduct AB /\
    TensorProduct_mul B (FTensorProduct C) = PProduct BC /\
    TensorProduct_mul AB (FTensorProduct C) = PProduct L /\
    TensorProduct_mul A (FTensorProduct BC) = PProduct R /\
    vectors L = vectors R /\ symmetric L = symmetric A /\ symmetric R = symmetric A /\
    equ (coefficient L) (coefficient R) /\
    TensorProduct_rmul B (FTensorProduct A) = PProduct BA /\
    vectors BA = vectors AB /\ coefficient BA = coefficient AB /\
    symmetric BA = symmetric B /\ symmetric AB = symmetric A.
Proof.
  unfold TensorProduct_mul, TensorProduct_rmul. do 5 eexists.
  do 4 (split; [reflexivity|]).
  cbn [TensorProduct vectors coefficient symmetric].
  split; [symmetry; apply app_assoc|]. split; [reflexivity|]. split; [reflexivity|].
  split; [|repeat split].
  rewrite !simplify_equ. apply smul_assoc.
Qed.

End FurtherAssociativity.

Section FurtherTracesOfPairs.

Context {K : Type} {KS : Scalar K}.

(** X29.  The trace of a product of two vectors is the number
    [simplify(c*(vj|vk))], whatever the flag of the product and also
    when it is zero: the symmetric product of rank 2 that no contraction
    accepts has a trace.  When the product of scalars commutes the two
    indices can be exchanged. *)
Theorem TensorProduct_trace_rank2 (self : @TensorProductFunction K) (j k : nat) :
  rank self = 2 -> j < 2 -> k < 2 ->
  exists vj vk,
    nth_error (vectors self) j = Some vj /\ nth_error (vectors self) k = Some vk /\
    TensorProduct_trace self (Z.of_nat j) (Z.of_nat k)
    = Ok (TNumber (simplify (smul (coefficient self) (Vector_or vj vk)))) /\
    ((forall x y : K, smul x y = smul y x) ->
     TensorProduct_trace self (Z.of_nat k) (Z.of_nat j)
     = TensorProduct_trace self (Z.of_nat j) (Z.of_nat k)).
Proof.
  intros Hr Hj Hk. unfold rank in Hr.
  destruct (nth_error (vectors self) j) as [vj|] eqn:Ej;
    [|apply nth_error_None in Ej; lia].
  destruct (nth_error (vectors self) k) as [vk|] eqn:Ek;
    [|apply nth_error_None in Ek; lia].
  exists vj, vk. split; [reflexivity|]. split; [reflexivity|].
  unfold TensorProduct_trace. rewrite !getitem_nat, Ej, Ek. cbn [bind].
  unfold rank. rewrite Hr. cbn [Nat.eqb]. split; [reflexivity|].
  intros Hc. now rewrite (Vector_or_swap vk vj Hc).
Qed.

End FurtherTracesOfPairs.

(** X28, at an instance: three products of rationals. *)
Lemma TensorProduct_mul_assoc_witness :
  exists L R,
    TensorProduct_mul (TensorProduct [e1; e2; e2] (Some (inject_Z 6)) None)
                      (FTensorProduct (h_terms 2)) = PProduct L /\
    TensorProduct_mul (h_terms 0)
                      (FTensorProduct (TensorProduct [e2; e1; e1] (Some (inject_Z 9)) None))
    = PProduct R /\
    vectors L = vectors R /\ Qeq (coefficient L) (coefficient R).
Proof.
  destruct (@TensorProduct_mul_assoc Q QScalar Qeq QScalarLaws QProductLaws
              (h_terms 0) (TensorProduct [e2] (Some (inject_Z 3)) None) (h_terms 2))
    as (AB & BC & L & R & BA & H1 & H2 & H3 & H4 & H5 & _ & _ & H6 & _).
  injection H1 as <-. injection H2 as <-.
  exists L, R. split; [exact H3|]. split; [exact H4|]. split; [exact H5 | exact H6].
Defined.

(** X29, at an instance: the symmetric product of [e1] and [e2]. *)
Lemma TensorProduct_trace_rank2_witness :
  TensorProduct_trace (h_terms 5) 0 1 = Ok (TNumber (inject_Z 0)).
Proof.
  assert (H0 : 0 < 2) by lia. assert (H1 : 1 < 2) by lia.
  destruct (@TensorProduct_trace_rank2 Q QScalar (h_terms 5) 0 1 eq_refl H0 H1)
    as (vj & vk & Ej & Ek & H & _).
  injection Ej as <-. injection Ek as <-. exact H.
Defined.
